(** * A constant-product exchange: Pair, Factory and Router

    Shallow embedding of [blockchain/contracts/Pair.sol], [Factory.sol] and
    [Router.sol] (Solidity 0.8.21) and the properties of the exchange core.

    Conventions of the embedding:
    - a [uint256] (and every narrower unsigned type) is an [N]; the checked
      arithmetic of Solidity 0.8 is written out ([add], [sub], [mul], [div]
      revert with a [Panic]), and the explicit narrowing conversions
      [uint112(x)], [uint32(x)] are written out as the truncations they are;
    - an [address] is an [N] (160 bits), compared with [<] as the source does;
    - a [mapping] is a [gmap] read with default [0];
    - a call either returns a value and a new world or reverts; a revert
      discards every effect of the call, so it carries no state. *)

From Stdlib Require Import NArith ZArith Lia.
From stdpp Require Import base option list gmap strings.
From Equations Require Import Equations.

Local Open Scope N_scope.

Abbreviation address := N (only parsing).

(** ** Failures *)

Inductive Error : Type :=
| Forbidden                 (* custom errors of Pair *)
| InsufficientLiquidity
| InsufficientInput
| InsufficientOutput        (* also declared by Router *)
| PairNotFound              (* custom error of Router *)
| RequireFailed (reason : string) (* require(cond, reason) *)
| Panic (code : N)          (* compiler-inserted checks *)
| CallFailed.               (* high-level call to an address without code *)

(** Panic codes of the Solidity compiler. *)
Definition ArithmeticOverflow : Error := Panic 0x11.
Definition DivisionByZero : Error := Panic 0x12.

(** The reasons the three contracts pass to [require]. *)
Definition TransferFailed : Error := RequireFailed "TRANSFER_FAILED".
Definition IdenticalTokens : Error := RequireFailed "IDENTICAL".
Definition ZeroToken : Error := RequireFailed "ZERO".
Definition PairExists : Error := RequireFailed "EXISTS".
Definition QuoteInsufficientInput : Error := RequireFailed "INSUFFICIENT_INPUT".
Definition QuoteInsufficientLiquidity : Error := RequireFailed "INSUFFICIENT_LIQUIDITY".
Definition PathTooShort : Error := RequireFailed "PATH_SHORT".

Inductive Result (A : Type) : Type :=
| Ok (a : A)
| Revert (e : Error).
Arguments Ok {A} a.
Arguments Revert {A} e.

Definition rbind {A B} (r : Result A) (k : A -> Result B) : Result B :=
  match r with
  | Ok a => k a
  | Revert e => Revert e
  end.

Notation "'let?' x ':=' r 'in' k" := (rbind r (fun x => k))
  (at level 10, x pattern, r at level 100, k at level 200).

(** require(cond, reason) *)
Definition require (cond : bool) (e : Error) : Result unit :=
  if cond then Ok tt else Revert e.

(** ** Unsigned 256-bit arithmetic, checked *)

Definition MAX_UINT256 : N := 2 ^ 256 - 1.

Definition add (a b : N) : Result N :=
  if a + b <=? MAX_UINT256 then Ok (a + b) else Revert ArithmeticOverflow.

Definition sub (a b : N) : Result N :=
  if b <=? a then Ok (a - b) else Revert ArithmeticOverflow.

Definition mul (a b : N) : Result N :=
  if a * b <=? MAX_UINT256 then Ok (a * b) else Revert ArithmeticOverflow.

Definition div (a b : N) : Result N :=
  if b =? 0 then Revert DivisionByZero else Ok (a / b).

(** Explicit conversions to a narrower type cut the high-order bits off and
    never revert. *)
Definition uint112 (x : N) : N := x mod 2 ^ 112.
Definition uint32 (x : N) : N := x mod 2 ^ 32.

(** ** The token custody provider *)

(** Modelled from the spec: the token contracts behind [IERC20] are outside
    the repository's sources; section 6 of the specification describes them
    as a custody provider with [balanceOf(holder)] and a [transfer] that
    reports success.  A token is modelled as a ledger from holders to
    amounts, [transfer] moves [value] from the caller to [to] and fails when
    the caller holds less than [value]. *)
Definition IERC20_balanceOf (ledger : gmap address N) (account : address) : N :=
  default 0 (ledger !! account).

Definition IERC20_transfer (ledger : gmap address N) (sender to : address) (value : N)
  : option (gmap address N) :=
  if value <=? IERC20_balanceOf ledger sender then
    let ledger1 := <[sender := IERC20_balanceOf ledger sender - value]> ledger in
    Some (<[to := IERC20_balanceOf ledger1 to + value]> ledger1)
  else None.

(** ** Pair.sol *)

Module Pair.

Inductive Event : Type :=
| Approval (owner spender : address) (value : N)
| Transfer (from to : address) (value : N)
| Mint (sender : address) (amount0 amount1 : N) (to : address)
| Burn (sender : address) (amount0 amount1 : N) (to : address)
| Swap (sender : address) (amountIn0 amountIn1 amountOut0 amountOut1 : N) (to : address)
| Sync (reserve0 reserve1 : N).

(** Storage of one Pair contract; [this] is [address(this)]. *)
Record State : Type := mkState {
  this : address;
  token0 : address;
  token1 : address;
  factory : address;
  reserve0 : N;              (* uint112 *)
  reserve1 : N;              (* uint112 *)
  blockTimestampLast : N;    (* uint32 *)
  totalSupply : N;
  balanceOf : gmap address N;
  allowance : gmap (address * address) N
}.

(** What a call to the Pair can see and change: its own storage, the ledgers
    of the token contracts (by token address; an address never used as a token
    has the empty ledger), the event log, and [block.timestamp]. *)
Record World : Type := mkWorld {
  st : State;
  tokens : gmap address (gmap address N);
  log : list Event;
  block_timestamp : N
}.

(** constructor(address _token0, address _token1), deployed at [self] by
    [sender]. *)
Definition constructor (self sender _token0 _token1 : address) : State :=
  {| this := self; token0 := _token0; token1 := _token1; factory := sender;
     reserve0 := 0; reserve1 := 0; blockTimestampLast := 0;
     totalSupply := 0; balanceOf := ∅; allowance := ∅ |}.

(** *** State and failure *)

Definition M (A : Type) : Type := World -> Result (A * World).

Definition ret {A} (a : A) : M A := fun w => Ok (a, w).

Definition bind {A B} (m : M A) (k : A -> M B) : M B :=
  fun w => match m w with
           | Ok (a, w') => k a w'
           | Revert e => Revert e
           end.

Definition revert {A} (e : Error) : M A := fun _ => Revert e.

Definition lift {A} (r : Result A) : M A :=
  fun w => match r with Ok a => Ok (a, w) | Revert e => Revert e end.

Definition gets {A} (f : State -> A) : M A := fun w => Ok (f (st w), w).

Definition modify (f : State -> State) : M unit :=
  fun w => Ok (tt, {| st := f (st w); tokens := tokens w; log := log w;
                      block_timestamp := block_timestamp w |}).

Definition emit (e : Event) : M unit :=
  fun w => Ok (tt, {| st := st w; tokens := tokens w; log := log w ++ [e];
                      block_timestamp := block_timestamp w |}).

Notation "'let*' x ':=' m 'in' k" := (bind m (fun x => k))
  (at level 10, x pattern, m at level 100, k at level 200).
Notation "m ';;' k" := (bind m (fun _ => k))
  (at level 100, k at level 200, right associativity).

(** Storage writes. *)
Definition set_totalSupply (v : N) (s : State) : State :=
  {| this := this s; token0 := token0 s; token1 := token1 s; factory := factory s;
     reserve0 := reserve0 s; reserve1 := reserve1 s;
     blockTimestampLast := blockTimestampLast s;
     totalSupply := v; balanceOf := balanceOf s; allowance := allowance s |}.

Definition set_balanceOf (a : address) (v : N) (s : State) : State :=
  {| this := this s; token0 := token0 s; token1 := token1 s; factory := factory s;
     reserve0 := reserve0 s; reserve1 := reserve1 s;
     blockTimestampLast := blockTimestampLast s;
     totalSupply := totalSupply s; balanceOf := <[a := v]> (balanceOf s);
     allowance := allowance s |}.

Definition set_allowance (o sp : address) (v : N) (s : State) : State :=
  {| this := this s; token0 := token0 s; token1 := token1 s; factory := factory s;
     reserve0 := reserve0 s; reserve1 := reserve1 s;
     blockTimestampLast := blockTimestampLast s;
     totalSupply := totalSupply s; balanceOf := balanceOf s;
     allowance := <[(o, sp) := v]> (allowance s) |}.

Definition set_reserves (r0 r1 t : N) (s : State) : State :=
  {| this := this s; token0 := token0 s; token1 := token1 s; factory := factory s;
     reserve0 := r0; reserve1 := r1; blockTimestampLast := t;
     totalSupply := totalSupply s; balanceOf := balanceOf s;
     allowance := allowance s |}.

(** Storage reads of the two mappings. *)
Definition balanceOf_at (s : State) (a : address) : N := default 0 (balanceOf s !! a).
Definition allowance_at (s : State) (o sp : address) : N :=
  default 0 (allowance s !! (o, sp)).

(** *** Calls into the token contracts *)

Definition ledger_of (w : World) (token : address) : gmap address N :=
  default ∅ (tokens w !! token).

(** IERC20(token).balanceOf(account) *)
Definition token_balanceOf (token account : address) : M N :=
  fun w => Ok (IERC20_balanceOf (ledger_of w token) account, w).

(** function _safeTransfer(address token, address to, uint value) *)
Definition _safeTransfer (token to : address) (value : N) : M unit :=
  fun w => match IERC20_transfer (ledger_of w token) (this (st w)) to value with
           | Some ledger' =>
               Ok (tt, {| st := st w; tokens := <[token := ledger']> (tokens w);
                          log := log w; block_timestamp := block_timestamp w |})
           | None => Revert TransferFailed   (* require(s && ..., 'TRANSFER_FAILED') *)
           end.

(** *** ERC20 (LP) *)

(** function _mint(address to, uint value) *)
Definition _mint (to : address) (value : N) : M unit :=
  let* supply := gets totalSupply in
  let* supply' := lift (add supply value) in
  modify (set_totalSupply supply') ;;
  let* bal := gets (fun s => balanceOf_at s to) in
  let* bal' := lift (add bal value) in
  modify (set_balanceOf to bal') ;;
  emit (Transfer 0 to value).

(** function _burn(address from, uint value) *)
Definition _burn (from : address) (value : N) : M unit :=
  let* bal := gets (fun s => balanceOf_at s from) in
  let* bal' := lift (sub bal value) in
  modify (set_balanceOf from bal') ;;
  let* supply := gets totalSupply in
  let* supply' := lift (sub supply value) in
  modify (set_totalSupply supply') ;;
  emit (Transfer from 0 value).

(** function approve(address spender, uint value) *)
Definition approve (sender spender : address) (value : N) : M bool :=
  modify (set_allowance sender spender value) ;;
  emit (Approval sender spender value) ;;
  ret true.

(** function transfer(address to, uint value) *)
Definition transfer (sender to : address) (value : N) : M bool :=
  let* bal := gets (fun s => balanceOf_at s sender) in
  let* bal' := lift (sub bal value) in
  modify (set_balanceOf sender bal') ;;
  let* balto := gets (fun s => balanceOf_at s to) in
  let* balto' := lift (add balto value) in
  modify (set_balanceOf to balto') ;;
  emit (Transfer sender to value) ;;
  ret true.

(** function transferFrom(address from, address to, uint value) *)
Definition transferFrom (sender from to : address) (value : N) : M bool :=
  let* allowed := gets (fun s => allowance_at s from sender) in
  (if negb (allowed =? MAX_UINT256)
   then let* rest := lift (sub allowed value) in
        modify (set_allowance from sender rest)
   else ret tt) ;;
  let* bal := gets (fun s => balanceOf_at s from) in
  let* bal' := lift (sub bal value) in
  modify (set_balanceOf from bal') ;;
  let* balto := gets (fun s => balanceOf_at s to) in
  let* balto' := lift (add balto value) in
  modify (set_balanceOf to balto') ;;
  emit (Transfer from to value) ;;
  ret true.

(** *** Reserves *)

(** function getReserves() *)
Definition getReserves : M (N * N * N) :=
  gets (fun s => (reserve0 s, reserve1 s, blockTimestampLast s)).

(** function _update(uint balance0, uint balance1) *)
Definition _update (balance0 balance1 : N) : M unit :=
  fun w =>
    (modify (set_reserves (uint112 balance0) (uint112 balance1)
                          (uint32 (block_timestamp w))) ;;
     let* r0 := gets reserve0 in
     let* r1 := gets reserve1 in
     emit (Sync r0 r1)) w.

(** *** Helpers *)

(** function min(uint a, uint b) *)
Definition min (a b : N) : N := if a <? b then a else b.

(** The loop of [sqrt] ends because [z] decreases; the accessibility proof
    is padded so that the loop also evaluates on closed 256-bit values. *)
#[local] Instance N_lt_wf : WellFounded N.lt := Acc_intro_generator 12 N.lt_wf_0.

(** The [while (x < z) { z = x; x = (y / x + x) / 2; }] of [sqrt], entered
    with the current [z] and [x]; its value is the final [z]. *)
Equations sqrt_loop (y z x : N) : Result N by wf z N.lt :=
  sqrt_loop y z x with decide (x < z) := {
    | left _ := let? q := div y x in
                let? s := add q x in
                sqrt_loop y x (s / 2)
    | right _ := Ok z }.

(** function sqrt(uint y) *)
Definition sqrt (y : N) : Result N :=
  if 3 <? y then
    let? x := add (y / 2) 1 in
    sqrt_loop y y x
  else if negb (y =? 0) then Ok 1
  else Ok 0.

(** *** Mint / burn liquidity *)

(** function mint(address to) *)
Definition mint (sender to : address) : M N :=
  let* (_reserve0, _reserve1, _) := getReserves in
  let* self := gets this in
  let* t0 := gets token0 in
  let* t1 := gets token1 in
  let* balance0 := token_balanceOf t0 self in
  let* balance1 := token_balanceOf t1 self in
  let* amount0 := lift (sub balance0 _reserve0) in
  let* amount1 := lift (sub balance1 _reserve1) in
  if (amount0 =? 0) || (amount1 =? 0) then revert InsufficientLiquidity else
  let* supply := gets totalSupply in
  let* liquidity :=
    (if supply =? 0 then
       lift (let? p := mul amount0 amount1 in sqrt p)
     else
       lift (let? n0 := mul amount0 supply in
             let? l0 := div n0 _reserve0 in
             let? n1 := mul amount1 supply in
             let? l1 := div n1 _reserve1 in
             Ok (min l0 l1))) in
  if liquidity =? 0 then revert InsufficientLiquidity else
  _mint to liquidity ;;
  _update balance0 balance1 ;;
  emit (Mint sender amount0 amount1 to) ;;
  ret liquidity.

(** function burn(address to) *)
Definition burn (sender to : address) : M (N * N) :=
  let* self := gets this in
  let* t0 := gets token0 in
  let* t1 := gets token1 in
  let* liquidity := gets (fun s => balanceOf_at s self) in
  let* r0 := gets reserve0 in
  let* r1 := gets reserve1 in
  let* supply := gets totalSupply in
  let* amount0 := lift (let? n0 := mul liquidity r0 in div n0 supply) in
  let* amount1 := lift (let? n1 := mul liquidity r1 in div n1 supply) in
  _burn self liquidity ;;
  _safeTransfer t0 to amount0 ;;
  _safeTransfer t1 to amount1 ;;
  let* balance0 := token_balanceOf t0 self in
  let* balance1 := token_balanceOf t1 self in
  _update balance0 balance1 ;;
  emit (Burn sender amount0 amount1 to) ;;
  ret (amount0, amount1).

(** *** Swap *)

(** The 0.3% fee test of [swap]: [Ok true] when the adjusted balances keep
    the product, [Ok false] when [swap] reverts with [InsufficientInput]. *)
Definition fee_check (balance0 balance1 amountIn0 amountIn1 _reserve0 _reserve1 : N)
  : Result bool :=
  let? b0 := mul balance0 1000 in
  let? f0 := mul amountIn0 3 in
  let? balance0Adjusted := sub b0 f0 in
  let? b1 := mul balance1 1000 in
  let? f1 := mul amountIn1 3 in
  let? balance1Adjusted := sub b1 f1 in
  let? lhs := mul balance0Adjusted balance1Adjusted in
  let? k := mul _reserve0 _reserve1 in
  let? rhs := mul k (1000 ^ 2) in
  Ok (negb (lhs <? rhs)).

(** function swap(uint amountOut0, uint amountOut1, address to) *)
Definition swap (sender : address) (amountOut0 amountOut1 : N) (to : address) : M unit :=
  if (amountOut0 =? 0) && (amountOut1 =? 0) then revert InsufficientOutput else
  let* (_reserve0, _reserve1, _) := getReserves in
  if (_reserve0 <=? amountOut0) || (_reserve1 <=? amountOut1)
  then revert InsufficientLiquidity else
  let* self := gets this in
  let* t0 := gets token0 in
  let* t1 := gets token1 in
  (if 0 <? amountOut0 then _safeTransfer t0 to amountOut0 else ret tt) ;;
  (if 0 <? amountOut1 then _safeTransfer t1 to amountOut1 else ret tt) ;;
  let* balance0 := token_balanceOf t0 self in
  let* balance1 := token_balanceOf t1 self in
  let* rest0 := lift (sub _reserve0 amountOut0) in
  let* amountIn0 := (if rest0 <? balance0 then lift (sub balance0 rest0) else ret 0) in
  let* rest1 := lift (sub _reserve1 amountOut1) in
  let* amountIn1 := (if rest1 <? balance1 then lift (sub balance1 rest1) else ret 0) in
  if (amountIn0 =? 0) && (amountIn1 =? 0) then revert InsufficientInput else
  let* ok := lift (fee_check balance0 balance1 amountIn0 amountIn1 _reserve0 _reserve1) in
  if negb ok then revert InsufficientInput else
  _update balance0 balance1 ;;
  emit (Swap sender amountIn0 amountIn1 amountOut0 amountOut1 to).

End Pair.

(** *** Sequences of calls *)

Module Trace.
Import Pair.

(** The external functions of the Pair, with [msg.sender] first. *)
Inductive Call : Type :=
| CallApprove (sender spender : address) (value : N)
| CallTransfer (sender to : address) (value : N)
| CallTransferFrom (sender from to : address) (value : N)
| CallMint (sender to : address)
| CallBurn (sender to : address)
| CallSwap (sender : address) (amountOut0 amountOut1 : N) (to : address).

Definition exec (c : Call) : M unit :=
  match c with
  | CallApprove sender spender value => approve sender spender value ;; ret tt
  | CallTransfer sender to value => transfer sender to value ;; ret tt
  | CallTransferFrom sender from to value => transferFrom sender from to value ;; ret tt
  | CallMint sender to => mint sender to ;; ret tt
  | CallBurn sender to => burn sender to ;; ret tt
  | CallSwap sender amountOut0 amountOut1 to => swap sender amountOut0 amountOut1 to
  end.

(** One transaction: the token ledgers and the time it finds (anything may
    have happened to the tokens since the previous call) and the call. *)
Record Tx : Type := mkTx {
  tx_tokens : gmap address (gmap address N);
  tx_time : N;
  tx_call : Call
}.

(** A reverted transaction leaves the storage as it was. *)
Definition step (s : State) (t : Tx) : State :=
  match exec (tx_call t)
          {| st := s; tokens := tx_tokens t; log := []; block_timestamp := tx_time t |} with
  | Ok (_, w') => st w'
  | Revert _ => s
  end.

Definition run (s : State) (txs : list Tx) : State := fold_left step txs s.

(** The sum of a share ledger over all owners. *)
Definition sum_shares (m : gmap address N) : N :=
  map_fold (fun _ v acc => v + acc) 0 m.

Definition sum_balanceOf (s : State) : N := sum_shares (balanceOf s).

(** Invariant I2 of the specification. *)
Definition conserved (s : State) : Prop := sum_balanceOf s = totalSupply s.

(** A computation keeps a property of the storage whenever it returns. *)
Definition preserves {A} (P : State -> Prop) (m : M A) : Prop :=
  forall w a w', P (st w) -> m w = Ok (a, w') -> P (st w').

End Trace.

(** ** Factory.sol *)

Module Factory.

Inductive Event : Type :=
| PairCreated (token0 token1 pair : address) (index : N).

Record State : Type := mkState {
  this : address;
  getPair : gmap (address * address) address;
  allPairs : list address;
  (* the Pair contracts deployed so far, by address *)
  deployed : gmap address Pair.State;
  log : list Event
}.

Definition constructor (self : address) : State :=
  {| this := self; getPair := ∅; allPairs := []; deployed := ∅; log := [] |}.

(** getPair[tokenA][tokenB] *)
Definition getPair_at (s : State) (tokenA tokenB : address) : address :=
  default 0 (getPair s !! (tokenA, tokenB)).

(** function allPairsLength() *)
Definition allPairsLength (s : State) : N := N.of_nat (length (allPairs s)).

(** function createPair(address tokenA, address tokenB); [created] is the
    address at which [new Pair(token0, token1)] deploys the contract. *)
Definition createPair (created : address) (tokenA tokenB : address) (s : State)
  : Result (address * State) :=
  let? _ := require (negb (tokenA =? tokenB)) IdenticalTokens in
  let '(token0, token1) :=
    if tokenA <? tokenB then (tokenA, tokenB) else (tokenB, tokenA) in
  let? _ := require (negb (token0 =? 0)) ZeroToken in
  let? _ := require (getPair_at s token0 token1 =? 0) PairExists in
  let pair := created in
  let getPair1 := <[(token0, token1) := pair]> (getPair s) in
  let getPair2 := <[(token1, token0) := pair]> getPair1 in
  let allPairs' := allPairs s ++ [pair] in
  Ok (pair,
      {| this := this s;
         getPair := getPair2;
         allPairs := allPairs';
         deployed := <[pair := Pair.constructor pair (this s) token0 token1]> (deployed s);
         log := log s ++ [PairCreated token0 token1 pair (N.of_nat (length allPairs'))] |}).

(** One [createPair] transaction: the address the EVM assigns to the new
    contract (never zero, never an address that already has code) and the
    two arguments. *)
Record Tx : Type := mkTx {
  tx_created : address;
  tx_tokenA : address;
  tx_tokenB : address
}.

Definition valid_tx (s : State) (t : Tx) : Prop :=
  tx_created t ≠ 0 ∧ deployed s !! tx_created t = None.

Definition step (s : State) (t : Tx) : State :=
  match createPair (tx_created t) (tx_tokenA t) (tx_tokenB t) s with
  | Ok (_, s') => s'
  | Revert _ => s
  end.

(** The states of a factory after any number of [createPair] calls. *)
Inductive reachable (self : address) : State -> Prop :=
| reach_constructor : reachable self (constructor self)
| reach_createPair s t :
    reachable self s -> valid_tx s t -> reachable self (step s t).

(** [pair] is a ledger created for the unordered pair {a, b}: it is listed
    in [allPairs] and its contract holds exactly these two tokens. *)
Definition ledger_for (s : State) (a b pair : address) : Prop :=
  pair ∈ allPairs s ∧
  ∃ p, deployed s !! pair = Some p ∧
       ((Pair.token0 p = a ∧ Pair.token1 p = b) ∨ (Pair.token0 p = b ∧ Pair.token1 p = a)).

(** What every reachable factory satisfies: a registered entry is symmetric
    and names a listed contract on its two tokens, and every contract is
    listed once and registered under its tokens in canonical order. *)
Record wf (s : State) : Prop := mkWf {
  wf_registered : forall a b,
    getPair_at s a b ≠ 0 ->
    a ≠ b ∧ getPair_at s b a = getPair_at s a b ∧
    ∃ p, deployed s !! getPair_at s a b = Some p ∧
         Pair.token0 p = N.min a b ∧ Pair.token1 p = N.max a b;
  wf_deployed : forall pair p,
    deployed s !! pair = Some p ->
    pair ≠ 0 ∧ pair ∈ allPairs s ∧ Pair.token0 p ≠ 0 ∧
    Pair.token0 p < Pair.token1 p ∧
    getPair_at s (Pair.token0 p) (Pair.token1 p) = pair;
  wf_listed : forall pair, pair ∈ allPairs s -> is_Some (deployed s !! pair);
  wf_nodup : NoDup (allPairs s)
}.

End Factory.

(** ** Router.sol *)

Module Router.

(** function getPair(address tokenA, address tokenB) *)
Definition getPair (f : Factory.State) (tokenA tokenB : address) : address :=
  Factory.getPair_at f tokenA tokenB.

(** function getAmountOut(uint amountIn, uint reserveIn, uint reserveOut) *)
Definition getAmountOut (amountIn reserveIn reserveOut : N) : Result N :=
  let? _ := require (0 <? amountIn) QuoteInsufficientInput in
  let? _ := require ((0 <? reserveIn) && (0 <? reserveOut)) QuoteInsufficientLiquidity in
  let? amountInWithFee := mul amountIn 997 in
  let? numerator := mul amountInWithFee reserveOut in
  let? scaled := mul reserveIn 1000 in
  let? denominator := add scaled amountInWithFee in
  div numerator denominator.

(** Pair(pair).getReserves(), a call into the contract deployed at [pair]. *)
Definition Pair_getReserves (f : Factory.State) (pair : address) : Result (N * N * N) :=
  match Factory.deployed f !! pair with
  | Some p => Ok (Pair.reserve0 p, Pair.reserve1 p, Pair.blockTimestampLast p)
  | None => Revert CallFailed
  end.

(** One iteration of the loop of [getAmountsOut], at index [i]. *)
Definition getAmountsOut_body (f : Factory.State) (path : list address) (i : nat)
    (amounts : list N) : Result (list N) :=
  match path !! i, path !! (i + 1)%nat, amounts !! i with
  | Some a, Some b, Some x =>
      let pair := getPair f a b in
      if pair =? 0 then Revert PairNotFound else
      let? (r0, r1, _) := Pair_getReserves f pair in
      let '(reserveIn, reserveOut) := if a <? b then (r0, r1) else (r1, r0) in
      let? out := getAmountOut x reserveIn reserveOut in
      if decide (i + 1 < length amounts)%nat then Ok (<[(i + 1)%nat := out]> amounts)
      else Revert (Panic 0x32)
  | _, _, _ => Revert (Panic 0x32)
  end.

(** [for (uint i; i < path.length - 1; i++)], with [n] iterations left. *)
Fixpoint getAmountsOut_loop (f : Factory.State) (path : list address) (n i : nat)
    (amounts : list N) : Result (list N) :=
  match n with
  | O => Ok amounts
  | S n' =>
      let? amounts' := getAmountsOut_body f path i amounts in
      getAmountsOut_loop f path n' (S i) amounts'
  end.

(** function getAmountsOut(uint amountIn, address[] memory path) *)
Definition getAmountsOut (f : Factory.State) (amountIn : N) (path : list address)
  : Result (list N) :=
  let? _ := require (2 <=? length path)%nat PathTooShort in
  let amounts := <[0%nat := amountIn]> (replicate (length path) 0) in
  getAmountsOut_loop f path (length path - 1) 0 amounts.

(** The quote of one hop from token [a] to token [b] as the specification
    words it: look the ledger up, orient its reserves by the canonical token
    order, apply the quote formula. *)
Definition quoteHop (f : Factory.State) (a b : address) (x : N) : Result N :=
  let pair := getPair f a b in
  if pair =? 0 then Revert PairNotFound else
  let? (r0, r1, _) := Pair_getReserves f pair in
  if a <? b then getAmountOut x r0 r1 else getAmountOut x r1 r0.

(** The specification's [quotePath], hop after hop, each hop's output the
    next hop's input; the first failing hop decides the failure. *)
Fixpoint quoteHops (f : Factory.State) (x : N) (a : address) (rest : list address)
  : Result (list N) :=
  match rest with
  | [] => Ok [x]
  | b :: rest' =>
      let? y := quoteHop f a b x in
      let? tail := quoteHops f y b rest' in
      Ok (x :: tail)
  end.

Definition quotePath (f : Factory.State) (amountIn : N) (path : list address)
  : Result (list N) :=
  match path with
  | a :: (_ :: _) as rest => quoteHops f amountIn a rest
  | _ => Revert PathTooShort
  end.

(** Room, in 256 bits, for every product that the quote of [amountIn] and the
    fee test of the matching swap form. *)
Definition fits (amountIn reserveIn reserveOut : N) : Prop :=
  (1000 * reserveIn + 997 * amountIn) * (1000 * reserveOut) <= MAX_UINT256.

(** Room, in 256 bits, for exactly what the quote of [amountIn] and the fee
    test of the swap of the quoted output compute. *)
Definition fits_exactly (amountIn reserveIn reserveOut : N) : Prop :=
  let q := amountIn * 997 * reserveOut / (reserveIn * 1000 + amountIn * 997) in
  amountIn * 997 * reserveOut <= MAX_UINT256 ∧
  (reserveIn + amountIn) * 1000 <= MAX_UINT256 ∧
  (reserveIn * 1000 + amountIn * 997) * ((reserveOut - q) * 1000) <= MAX_UINT256 ∧
  reserveIn * reserveOut * 1000 ^ 2 <= MAX_UINT256.

End Router.

(** ** Concrete ledgers *)

Module Examples.
Import Pair Trace.

(** A Pair at address 100 for the tokens 1 and 2, created by the factory at
    address 50. *)
Definition fresh : State := constructor 100 50 1 2.

(** Token ledgers in which the Pair holds [c0] of token 1 and [c1] of token 2. *)
Definition custody (c0 c1 : N) : gmap address (gmap address N) :=
  {[ 1 := {[ 100 := c0 ]} ; 2 := {[ 100 := c1 ]} ]}.

Definition world (s : State) (c0 c1 : N) : World :=
  {| st := s; tokens := custody c0 c1; log := []; block_timestamp := 20 |}.

(** After a first deposit of 1000 and 1000 by the provider at address 7. *)
Definition funded : State :=
  run fresh [mkTx (custody 1000 1000) 10 (CallMint 7 7)].

(** After a first deposit of 1 and 2. *)
Definition small : State :=
  run fresh [mkTx (custody 1 2) 10 (CallMint 7 7)].

(** A factory at address 50 after [createPair(2, 1)] deployed a Pair at 100. *)
Definition registry : Factory.State :=
  Factory.step (Factory.constructor 50) (Factory.mkTx 100 2 1).

(** The same factory once the Pair at 100 holds reserves 1000 and 4000. *)
Definition registry_funded : Factory.State :=
  {| Factory.this := 50;
     Factory.getPair := Factory.getPair registry;
     Factory.allPairs := Factory.allPairs registry;
     Factory.deployed :=
       {[ 100 := set_reserves 1000 4000 10 (constructor 100 50 1 2) ]};
     Factory.log := Factory.log registry |}.

End Examples.

(** ** Ranges and identity of the storage *)

Module Storage.
Import Pair.

(** Every stored number within the range of its Solidity type. *)
Definition in_range (s : State) : Prop :=
  reserve0 s < 2 ^ 112 ∧ reserve1 s < 2 ^ 112 ∧ blockTimestampLast s < 2 ^ 32 ∧
  totalSupply s <= MAX_UINT256.

(** The part of the storage fixed by the constructor. *)
Definition identity (s : State) : address * address * address * address :=
  (this s, token0 s, token1 s, factory s).

(** The liquidity shares: supply, balances and allowances. *)
Definition shares (s : State) : N * gmap address N * gmap (address * address) N :=
  (totalSupply s, balanceOf s, allowance s).

End Storage.

(** ** Router.sol, the state-changing part *)

Module Routing.

Definition SlippageExceeded : Error := RequireFailed "SLIPPAGE".

(** Modelled from the spec: the Router pulls the input of a swap from the
    caller with [transferFrom] of the interface [IMinimalERC20]; the token
    contracts behind it are outside the repository's sources.  A token is
    the ledger of [IERC20_transfer] together with the allowances of an
    ERC-20 token: the spender moves [value] from [from] to [to] out of the
    allowance [from] granted, which goes down by [value], and the call fails
    when the allowance or the balance of [from] is short. *)
Definition IERC20_transferFrom (ledger : gmap address N)
    (allowed : gmap (address * address) N) (spender from to : address) (value : N)
  : option (gmap address N * gmap (address * address) N) :=
  if value <=? default 0 (allowed !! (from, spender)) then
    match IERC20_transfer ledger from to value with
    | Some ledger' =>
        Some (ledger', <[(from, spender) := default 0 (allowed !! (from, spender)) - value]>
                         allowed)
    | None => None
    end
  else None.

(** What a call to the Router can see and change: the factory with the
    storage of the Pairs it deployed, the ledgers and the allowances of the
    tokens (by token address), the events of the Pairs, and the time. *)
Record Chain : Type := mkChain {
  registry : Factory.State;
  ledgers : gmap address (gmap address N);
  approvals : gmap address (gmap (address * address) N);
  events : list Pair.Event;
  timestamp : N
}.

Definition set_deployed (pair : address) (p : Pair.State) (f : Factory.State)
  : Factory.State :=
  {| Factory.this := Factory.this f;
     Factory.getPair := Factory.getPair f;
     Factory.allPairs := Factory.allPairs f;
     Factory.deployed := <[pair := p]> (Factory.deployed f);
     Factory.log := Factory.log f |}.

(** A call of [m] into the Pair contract deployed at [pair]: it runs on the
    Pair's storage and the token ledgers, and both are written back. *)
Definition Pair_call {A} (pair : address) (m : Pair.M A) (c : Chain) : Result (A * Chain) :=
  match Factory.deployed (registry c) !! pair with
  | None => Revert CallFailed
  | Some p =>
      match m {| Pair.st := p; Pair.tokens := ledgers c; Pair.log := events c;
                 Pair.block_timestamp := timestamp c |} with
      | Ok (a, w') =>
          Ok (a, {| registry := set_deployed pair (Pair.st w') (registry c);
                    ledgers := Pair.tokens w';
                    approvals := approvals c;
                    events := Pair.log w';
                    timestamp := timestamp c |})
      | Revert e => Revert e
      end
  end.

(** IMinimalERC20(token).transferFrom(from, to, value), called by [spender].
    The Router does not look at the flag the token returns, so the tokens
    considered here are those that revert when they refuse a transfer; the
    revert of the token is then the revert of the call. *)
Definition token_transferFrom (token spender from to : address) (value : N) (c : Chain)
  : Result Chain :=
  match IERC20_transferFrom (default ∅ (ledgers c !! token))
                            (default ∅ (approvals c !! token)) spender from to value with
  | Some (ledger', allowed') =>
      Ok {| registry := registry c;
            ledgers := <[token := ledger']> (ledgers c);
            approvals := <[token := allowed']> (approvals c);
            events := events c;
            timestamp := timestamp c |}
  | None => Revert CallFailed
  end.

(** One iteration of the loop of [_swap], at index [i]; [router] is
    [address(this)], the sender of the call to the Pair. *)
Definition _swap_body (router : address) (amounts : list N) (path : list address)
    (_to : address) (i : nat) (c : Chain) : Result Chain :=
  match path !! i, path !! (i + 1)%nat with
  | Some input, Some output =>
      let pair := Router.getPair (registry c) input output in
      if pair =? 0 then Revert PairNotFound else
      let '(token0, _) := if input <? output then (input, output) else (output, input) in
      match amounts !! (i + 1)%nat with
      | Some amountOut =>
          let '(amount0Out, amount1Out) :=
            if input =? token0 then (0, amountOut) else (amountOut, 0) in
          let? to :=
            (if (i <? length path - 2)%nat then
               match path !! (i + 2)%nat with
               | Some next => Ok (Router.getPair (registry c) output next)
               | None => Revert (Panic 0x32)
               end
             else Ok _to) in
          let? (_, c') := Pair_call pair (Pair.swap router amount0Out amount1Out to) c in
          Ok c'
      | None => Revert (Panic 0x32)
      end
  | _, _ => Revert (Panic 0x32)
  end.

(** [for (uint i; i < path.length - 1; i++)], with [n] iterations left. *)
Fixpoint _swap_loop (router : address) (amounts : list N) (path : list address)
    (_to : address) (n i : nat) (c : Chain) : Result Chain :=
  match n with
  | O => Ok c
  | S n' =>
      let? c' := _swap_body router amounts path _to i c in
      _swap_loop router amounts path _to n' (S i) c'
  end.

(** function _swap(uint[] memory amounts, address[] memory path, address _to) *)
Definition _swap (router : address) (amounts : list N) (path : list address)
    (_to : address) (c : Chain) : Result Chain :=
  if (length path =? 0)%nat then Revert ArithmeticOverflow else
  _swap_loop router amounts path _to (length path - 1) 0 c.

(** function swapExactTokensForTokens(uint amountIn, uint amountOutMin,
    address[] calldata path, address to), called by [sender]. *)
Definition swapExactTokensForTokens (router sender : address) (amountIn amountOutMin : N)
    (path : list address) (to : address) (c : Chain) : Result (list N * Chain) :=
  let? amounts := Router.getAmountsOut (registry c) amountIn path in
  let? final :=
    (if (length amounts =? 0)%nat then Revert ArithmeticOverflow else
     match amounts !! (length amounts - 1)%nat with
     | Some x => Ok x
     | None => Revert (Panic 0x32)
     end) in
  let? _ := require (amountOutMin <=? final) SlippageExceeded in
  match path !! 0%nat, path !! 1%nat with
  | Some first, Some second =>
      let? c1 := token_transferFrom first router sender
                   (Router.getPair (registry c) first second) amountIn c in
      let? c2 := _swap router amounts path to c1 in
      Ok (amounts, c2)
  | _, _ => Revert (Panic 0x32)
  end.

End Routing.

(** ** What a routed swap leaves alone *)

Module Frame.
Import Routing.

(** The same registry, the same contracts, and in every contract the same
    immutables and the same liquidity shares; only reserves and time stamps
    of the Pairs may differ. *)
Definition same_but_reserves (f f' : Factory.State) : Prop :=
  Factory.this f' = Factory.this f ∧
  Factory.getPair f' = Factory.getPair f ∧
  Factory.allPairs f' = Factory.allPairs f ∧
  forall pair,
    match Factory.deployed f !! pair, Factory.deployed f' !! pair with
    | Some p, Some p' =>
        Storage.identity p' = Storage.identity p ∧ Storage.shares p' = Storage.shares p
    | None, None => True
    | _, _ => False
    end.

(** Every deployed contract knows its own address. *)
Definition self_aware (f : Factory.State) : Prop :=
  forall pair p, Factory.deployed f !! pair = Some p -> Pair.this p = pair.

End Frame.

(** ** The factory and its Pairs over time *)

Module Market.

(** The states of a factory and of the Pairs it deployed after any number of
    [createPair] calls and of successful calls to these Pairs, made by
    anyone (the Router among them, see [Routing.Pair_call]) with whatever the
    token ledgers, the event log and the clock show at the time of the
    call. *)
Inductive reachable (self : address) : Factory.State -> Prop :=
| reach_constructor : reachable self (Factory.constructor self)
| reach_createPair s t :
    reachable self s -> Factory.valid_tx s t -> reachable self (Factory.step s t)
| reach_call s pair p c tokens log time w' :
    reachable self s -> Factory.deployed s !! pair = Some p ->
    Trace.exec c {| Pair.st := p; Pair.tokens := tokens; Pair.log := log;
                    Pair.block_timestamp := time |} = Ok (tt, w') ->
    reachable self (Routing.set_deployed pair (Pair.st w') s).

End Market.

(** ** Token holdings on a chain *)

Module Holdings.
Import Routing.

(** IMinimalERC20(token).balanceOf(holder) on a chain. *)
Definition balance (c : Chain) (token holder : address) : N :=
  IERC20_balanceOf (default ∅ (ledgers c !! token)) holder.

(** What [owner] lets [spender] move of [token]. *)
Definition allowed (c : Chain) (token owner spender : address) : N :=
  default 0 (default ∅ (approvals c !! token) !! (owner, spender)).

End Holdings.

(** ** Reserves against custody *)

Module Custody.
Import Pair Trace.

(** The stored reserves are the balances the token contracts report for
    the Pair, narrowed to 112 bits as [_update] narrows them. *)
Definition synced (w : World) : Prop :=
  reserve0 (st w) = uint112 (IERC20_balanceOf (ledger_of w (token0 (st w))) (this (st w))) ∧
  reserve1 (st w) = uint112 (IERC20_balanceOf (ledger_of w (token1 (st w))) (this (st w))).

(** The calls that end in [_update]. *)
Definition resyncs (c : Call) : bool :=
  match c with
  | CallMint _ _ | CallBurn _ _ | CallSwap _ _ _ _ => true
  | _ => false
  end.

End Custody.

(** ** A concrete market *)

Module Scenario.
Import Routing.

(** The factory of [Examples.registry_funded] with its Pair at address 100
    holding the reserves 1000 of token 1 and 4000 of token 2, a Router at
    address 60, and a trader at address 7 who holds 500 of token 1 and 50 of
    token 2 and lets the Router move all of it. *)
Definition chain : Chain :=
  {| registry := Examples.registry_funded;
     ledgers := {[ 1 := {[ 100 := 1000; 7 := 500 ]};
                   2 := {[ 100 := 4000; 7 := 50 ]} ]};
     approvals := {[ 1 := {[ (7, 60) := 500 ]}; 2 := {[ (7, 60) := 50 ]} ]};
     events := [];
     timestamp := 30 |}.

(** The factory of [Examples.registry] after a first deposit of 1000 of
    token 1 and 4000 of token 2 into its Pair at address 100. *)
Definition registry_minted : Factory.State :=
  set_deployed 100
    (Trace.step (Pair.constructor 100 50 1 2)
       (Trace.mkTx (Examples.custody 1000 4000) 10 (Trace.CallMint 7 7)))
    Examples.registry.

End Scenario.

(** * Properties *)

(** ** Checked arithmetic *)

Lemma add_ok a b : a + b <= MAX_UINT256 -> add a b = Ok (a + b).
Proof. intros H. unfold add. destruct (N.leb_spec (a + b) MAX_UINT256); [reflexivity | lia]. Qed.

Lemma sub_ok a b : b <= a -> sub a b = Ok (a - b).
Proof. intros H. unfold sub. destruct (N.leb_spec b a); [reflexivity | lia]. Qed.

Lemma mul_ok a b : a * b <= MAX_UINT256 -> mul a b = Ok (a * b).
Proof. intros H. unfold mul. destruct (N.leb_spec (a * b) MAX_UINT256); [reflexivity | lia]. Qed.

Lemma div_ok a b : b ≠ 0 -> div a b = Ok (a / b).
Proof. intros H. unfold div. destruct (N.eqb_spec b 0); [contradiction | reflexivity]. Qed.

Lemma add_overflow a b : MAX_UINT256 < a + b -> add a b = Revert ArithmeticOverflow.
Proof. intros H. unfold add. destruct (N.leb_spec (a + b) MAX_UINT256); [lia | reflexivity]. Qed.

Lemma mul_overflow a b : MAX_UINT256 < a * b -> mul a b = Revert ArithmeticOverflow.
Proof. intros H. unfold mul. destruct (N.leb_spec (a * b) MAX_UINT256); [lia | reflexivity]. Qed.

Lemma sub_underflow a b : a < b -> sub a b = Revert ArithmeticOverflow.
Proof. intros H. unfold sub. destruct (N.leb_spec b a); [lia | reflexivity]. Qed.

Lemma div_zero a : div a 0 = Revert DivisionByZero.
Proof. reflexivity. Qed.

(** ** The integer square root *)

Module SqrtFacts.
Import Pair.

Lemma sqrt_loop_unfold y z x :
  sqrt_loop y z x =
  if decide (x < z) then
    let? q := div y x in let? s := add q x in sqrt_loop y x (s / 2)
  else Ok z.
Proof. simp sqrt_loop. destruct (decide (x < z)); reflexivity. Qed.

(** A Newton step from any positive [z] stays at or above the root. *)
Lemma newton_step_lower y z s :
  0 < z -> s * s <= y -> s <= (y / z + z) / 2.
Proof.
  intros Hz Hs.
  assert (Hq : y < (y / z + 1) * z).
  { pose proof (N.div_mod y z ltac:(lia)) as E.
    pose proof (N.mod_lt y z ltac:(lia)). nia. }
  assert (2 * s <= y / z + z).
  { generalize dependent (y / z). intros q Hq.
    destruct (N.le_gt_cases (2 * s) (q + z)) as [|Hc]; [assumption | exfalso].
    assert (H1 : (q + 1 + z) * (q + 1 + z) <= 4 * (s * s)) by nia.
    assert (H2 : 4 * ((q + 1) * z) <= (q + 1 + z) * (q + 1 + z)).
    { destruct (N.le_gt_cases (q + 1) z); nia. }
    nia. }
  apply N.div_le_lower_bound; lia.
Qed.

Lemma sqrt_loop_converges y s :
  3 < y -> y <= MAX_UINT256 -> s * s <= y < (s + 1) * (s + 1) ->
  forall z, 0 < z -> s <= z -> z <= y / 2 + 1 ->
  sqrt_loop y z ((y / z + z) / 2) = Ok s.
Proof.
  intros Hy Hmax [Hlo Hhi].
  assert (Hs2 : 2 <= s) by nia.
  induction z as [z IH] using (well_founded_induction N.lt_wf_0).
  intros Hz Hsz Hzy.
  set (x := (y / z + z) / 2).
  assert (Hsx : s <= x) by (apply newton_step_lower; assumption).
  rewrite sqrt_loop_unfold. destruct (decide (x < z)) as [Hlt | Hge].
  - rewrite div_ok by lia. cbn [rbind].
    assert (Hq : y / x <= y / 2) by (apply N.div_le_compat_l; lia).
    assert (Hx : x <= y / 2) by lia.
    assert (H2 : 2 * (y / 2) <= y) by (apply N.Div0.mul_div_le).
    rewrite add_ok by lia. cbn [rbind].
    apply IH; lia.
  - f_equal. apply N.le_antisymm; [|assumption].
    assert (Hzz : z <= y / z).
    { subst x. assert (2 * z <= y / z + z); [|lia].
      destruct (N.le_gt_cases (2 * z) (y / z + z)) as [|Hc]; [assumption|].
      exfalso. apply Hge. apply N.Div0.div_lt_upper_bound. lia. }
    assert (z * z <= y).
    { pose proof (N.Div0.mul_div_le y z). nia. }
    nia.
Qed.

Lemma N_sqrt_floor y : N.sqrt y * N.sqrt y <= y < (N.sqrt y + 1) * (N.sqrt y + 1).
Proof. pose proof (N.sqrt_spec y ltac:(lia)) as Hs. cbn zeta in Hs. lia. Qed.

Lemma sqrt_value y : y <= MAX_UINT256 -> sqrt y = Ok (N.sqrt y).
Proof.
  intros Hmax. pose proof (N.sqrt_spec y ltac:(lia)) as Hs. cbn zeta in Hs.
  unfold sqrt. destruct (N.ltb_spec 3 y) as [H3 | H3].
  - assert (Hhalf : 2 * (y / 2) <= y) by (apply N.Div0.mul_div_le).
    rewrite add_ok by lia. cbn [rbind].
    set (x := y / 2 + 1).
    assert (Hlt : x < y).
    { subst x. assert (4 <= y) by lia. assert (2 <= y / 2); [|lia].
      apply N.div_le_lower_bound; lia. }
    rewrite sqrt_loop_unfold. destruct (decide (x < y)); [|lia].
    assert (Hs2 : 2 <= N.sqrt y).
    { clear -Hs H3. destruct (N.le_gt_cases 2 (N.sqrt y)); [assumption | nia]. }
    assert (Hsx : N.sqrt y <= x).
    { subst x. clear -Hs Hhalf H3.
      destruct (N.le_gt_cases (N.sqrt y) (y / 2 + 1)) as [|Hc]; [assumption | exfalso].
      pose proof (N.div_mod y 2 ltac:(lia)) as E.
      pose proof (N.mod_lt y 2 ltac:(lia)).
      generalize dependent (N.sqrt y). generalize dependent (y / 2).
      intros h Hh E s Hs Hc.
      assert (h + 2 <= s) by lia.
      assert ((h + 2) * (h + 2) <= s * s) by (apply N.mul_le_mono; lia).
      nia. }
    rewrite div_ok by lia. cbn [rbind].
    assert (Hq : y / x < 2).
    { apply N.Div0.div_lt_upper_bound. subst x.
      pose proof (N.div_mod y 2 ltac:(lia)). pose proof (N.mod_lt y 2 ltac:(lia)). lia. }
    rewrite add_ok by lia. cbn [rbind].
    apply sqrt_loop_converges; try lia.
  - destruct (N.eqb_spec y 0) as [-> | Hne]; cbn [negb].
    + reflexivity.
    + f_equal. assert (N.sqrt y = 1); [|congruence]. nia.
Qed.

End SqrtFacts.

(** ** Sums of share balances *)

Module ShareSum.
Import Trace.

Lemma sum_empty : sum_shares ∅ = 0.
Proof. apply map_fold_empty. Qed.

Lemma sum_insert_fresh (m : gmap address N) a v :
  m !! a = None -> sum_shares (<[a := v]> m) = v + sum_shares m.
Proof.
  intros Hnone.
  apply (map_fold_insert_L (fun _ v acc => v + acc) 0 a v m); [|assumption].
  intros; lia.
Qed.

Lemma sum_delete (m : gmap address N) a v :
  m !! a = Some v -> sum_shares m = v + sum_shares (delete a m).
Proof.
  intros Hsome.
  apply (map_fold_delete_L (fun _ v acc => v + acc) 0 a v m); [|assumption].
  intros; lia.
Qed.

(** Writing [v] at [a] replaces the old entry (or the default [0]) by [v]. *)
Lemma sum_insert (m : gmap address N) a v :
  sum_shares (<[a := v]> m) + default 0 (m !! a) = sum_shares m + v.
Proof.
  destruct (m !! a) as [x|] eqn:Hm; cbn [from_option id].
  - rewrite (sum_delete m a x Hm).
    rewrite <- (insert_delete_eq m a v).
    rewrite sum_insert_fresh by apply lookup_delete_eq. lia.
  - rewrite sum_insert_fresh by assumption. lia.
Qed.

Lemma lookup_le_sum (m : gmap address N) a : default 0 (m !! a) <= sum_shares m.
Proof.
  destruct (m !! a) as [x|] eqn:Hm; cbn [from_option id]; [|lia].
  rewrite (sum_delete m a x Hm). lia.
Qed.

End ShareSum.

(** ** Share conservation *)

Module Conservation.
Import Pair Trace ShareSum.

Section Preserves.
Context (P : State -> Prop).

Lemma preserves_ret {A} (a : A) : preserves P (ret a).
Proof. intros w a' w' HP [= _ <-]. exact HP. Qed.

Lemma preserves_revert {A} e : preserves P (@revert A e).
Proof. intros w a w' _ [=]. Qed.

Lemma preserves_lift {A} (r : Result A) : preserves P (lift r).
Proof. intros w a w' HP. unfold lift. destruct r; intros [=]. subst. exact HP. Qed.

Lemma preserves_gets {A} (f : State -> A) : preserves P (gets f).
Proof. intros w a w' HP [= _ <-]. exact HP. Qed.

Lemma preserves_emit e : preserves P (emit e).
Proof. intros w a w' HP [= _ <-]. exact HP. Qed.

Lemma preserves_token_balanceOf token account : preserves P (token_balanceOf token account).
Proof. intros w a w' HP [= _ <-]. exact HP. Qed.

Lemma preserves__safeTransfer token to value : preserves P (_safeTransfer token to value).
Proof.
  intros w a w' HP. unfold _safeTransfer.
  destruct (IERC20_transfer _ _ _ _); intros [=]. subst. exact HP.
Qed.

Lemma preserves_bind {A B} (m : M A) (k : A -> M B) :
  preserves P m -> (forall a, preserves P (k a)) -> preserves P (bind m k).
Proof.
  intros Hm Hk w b w' HP. unfold bind.
  destruct (m w) as [[a w1]|e] eqn:E; [|intros [=]].
  intros Hrun. exact (Hk a w1 b w' (Hm w a w1 HP E) Hrun).
Qed.

Lemma preserves_if {A} (c : bool) (m1 m2 : M A) :
  preserves P m1 -> preserves P m2 -> preserves P (if c then m1 else m2).
Proof. destruct c; auto. Qed.

Lemma preserves_modify (f : State -> State) :
  (forall s, P s -> P (f s)) -> preserves P (modify f).
Proof. intros Hf w a w' HP [= _ <-]. apply Hf, HP. Qed.
End Preserves.

Lemma conserved_set_reserves r0 r1 t s : conserved s -> conserved (set_reserves r0 r1 t s).
Proof. exact id. Qed.

Lemma conserved_set_allowance o sp v s : conserved s -> conserved (set_allowance o sp v s).
Proof. exact id. Qed.

Ltac unfold_erc20 :=
  cbv beta iota delta
    [_mint _burn transfer transferFrom approve bind ret revert lift gets modify emit
     set_totalSupply set_balanceOf set_allowance balanceOf_at allowance_at
     conserved sum_balanceOf
     st tokens log block_timestamp totalSupply balanceOf allowance] in *.

Ltac case_checked :=
  repeat match goal with
    | |- context [add ?a ?b] =>
        unfold add at 1; destruct (N.leb_spec (a + b) MAX_UINT256); [|intros [=]]
    | |- context [sub ?a ?b] =>
        unfold sub at 1; destruct (N.leb_spec b a); [|intros [=]]
    end.

Lemma conserved__mint to value : preserves conserved (_mint to value).
Proof.
  intros [[self t0 t1 fac r0 r1 tl supply bals alw] tk lg ts] a w' HP.
  unfold_erc20. case_checked. intros [= _ <-]. unfold_erc20.
  pose proof (sum_insert bals to (default 0 (bals !! to) + value)). lia.
Qed.

Lemma conserved__burn from value : preserves conserved (_burn from value).
Proof.
  intros [[self t0 t1 fac r0 r1 tl supply bals alw] tk lg ts] a w' HP.
  unfold_erc20. case_checked. intros [= _ <-]. unfold_erc20.
  pose proof (sum_insert bals from (default 0 (bals !! from) - value)). lia.
Qed.

(** The two balance updates shared by [transfer] and [transferFrom]. *)
Lemma sum_move (m : gmap address N) from to value :
  value <= default 0 (m !! from) ->
  let m1 := <[from := default 0 (m !! from) - value]> m in
  sum_shares (<[to := default 0 (m1 !! to) + value]> m1) = sum_shares m.
Proof.
  intros Hle m1.
  pose proof (sum_insert m from (default 0 (m !! from) - value)).
  pose proof (sum_insert m1 to (default 0 (m1 !! to) + value)).
  subst m1. lia.
Qed.

Lemma conserved_transfer sender to value : preserves conserved (transfer sender to value).
Proof.
  intros [[self t0 t1 fac r0 r1 tl supply bals alw] tk lg ts] a w' HP.
  unfold_erc20. case_checked. intros [= _ <-]. unfold_erc20.
  rewrite <- HP. apply sum_move. assumption.
Qed.

Lemma conserved_transferFrom sender from to value :
  preserves conserved (transferFrom sender from to value).
Proof.
  intros [[self t0 t1 fac r0 r1 tl supply bals alw] tk lg ts] a w' HP.
  unfold_erc20.
  destruct (negb (default 0 (alw !! (from, sender)) =? MAX_UINT256));
    unfold_erc20; case_checked; intros [= _ <-]; unfold_erc20;
    rewrite <- HP; apply sum_move; assumption.
Qed.

Lemma conserved_approve sender spender value :
  preserves conserved (approve sender spender value).
Proof. intros [s tk lg ts] a w' HP [= _ <-]. exact HP. Qed.

Create HintDb preserves.

#[local] Hint Resolve preserves_ret preserves_revert preserves_lift preserves_gets
  preserves_emit preserves_token_balanceOf preserves__safeTransfer preserves_if
  conserved__mint conserved__burn conserved_transfer conserved_transferFrom
  conserved_approve : preserves.

Ltac preserves_steps :=
  repeat first
    [ solve [auto with preserves]
    | apply preserves_bind; [|intros]
    | apply preserves_if
    | match goal with |- preserves _ (match ?p with _ => _ end) => destruct p end ].

Lemma conserved__update balance0 balance1 : preserves conserved (_update balance0 balance1).
Proof. intros [s tk lg ts] a w' HP [= _ <-]. exact HP. Qed.

#[local] Hint Resolve conserved__update : preserves.

Lemma conserved_mint sender to : preserves conserved (mint sender to).
Proof. unfold mint, getReserves. preserves_steps. Qed.

Lemma conserved_burn sender to : preserves conserved (burn sender to).
Proof. unfold burn. preserves_steps. Qed.

Lemma conserved_swap sender amountOut0 amountOut1 to :
  preserves conserved (swap sender amountOut0 amountOut1 to).
Proof. unfold swap, getReserves. preserves_steps. Qed.

#[local] Hint Resolve conserved_mint conserved_burn conserved_swap : preserves.

Lemma conserved_exec c : preserves conserved (exec c).
Proof. destruct c; cbn [exec]; preserves_steps. Qed.

Lemma conserved_constructor self sender t0 t1 :
  conserved (constructor self sender t0 t1).
Proof. unfold conserved, sum_balanceOf. cbn. apply sum_empty. Qed.

Lemma conserved_step s t : conserved s -> conserved (step s t).
Proof.
  intros HP. unfold step.
  destruct (exec _ _) as [[a w']|e] eqn:E; [|exact HP].
  exact (conserved_exec _ (mkWorld s _ _ _) _ _ HP E).
Qed.

Lemma conserved_run txs : forall s, conserved s -> conserved (run s txs).
Proof.
  induction txs as [|t txs IH]; intros s HP; cbn [run fold_left].
  - exact HP.
  - apply IH, conserved_step, HP.
Qed.

End Conservation.

(** ** Pair: single calls *)

Module PairFacts.
Import Pair Trace.

(** Unfolds the monadic plumbing of one call applied to a world. *)
Ltac unfold_call :=
  cbv beta iota delta
    [swap mint burn transfer transferFrom approve exec
     _mint _burn _update _safeTransfer token_balanceOf getReserves
     bind ret revert lift gets modify emit ledger_of
     set_totalSupply set_balanceOf set_allowance set_reserves balanceOf_at allowance_at
     st tokens log block_timestamp
     this token0 token1 factory reserve0 reserve1 blockTimestampLast
     totalSupply balanceOf allowance] in *.

Lemma swap_guard w sender amountOut0 amountOut1 to :
  reserve0 (st w) <= amountOut0 ∨ reserve1 (st w) <= amountOut1 ->
  swap sender amountOut0 amountOut1 to w =
  Revert (if (amountOut0 =? 0) && (amountOut1 =? 0)
          then InsufficientOutput else InsufficientLiquidity).
Proof.
  intros H. destruct w as [[self t0 t1 fac r0 r1 tl supply bals alw] tk lg ts].
  unfold_call.
  destruct ((amountOut0 =? 0) && (amountOut1 =? 0)); [reflexivity|].
  destruct (N.leb_spec r0 amountOut0), (N.leb_spec r1 amountOut1);
    cbn; try reflexivity; lia.
Qed.

(** The fee test compares the balances after the fee with the old product,
    so passing it keeps the plain product of the balances above it too. *)
Lemma fee_check_product balance0 balance1 amountIn0 amountIn1 r0 r1 :
  fee_check balance0 balance1 amountIn0 amountIn1 r0 r1 = Ok true ->
  r0 * r1 <= balance0 * balance1.
Proof.
  unfold fee_check, mul, sub.
  repeat match goal with
    | |- context [if ?a <=? ?b then _ else _] =>
        destruct (N.leb_spec a b); cbn [rbind]; [|intros [=]]
    end.
  intros [= Hlt]. apply negb_true_iff, N.ltb_ge in Hlt.
  assert (Hfee : (balance0 * 1000 - amountIn0 * 3) * (balance1 * 1000 - amountIn1 * 3)
               <= (balance0 * 1000) * (balance1 * 1000))
    by (apply N.mul_le_mono; lia).
  assert (r0 * r1 * 1000 ^ 2 <= balance0 * balance1 * 1000 ^ 2) by lia.
  apply (N.mul_le_mono_pos_r _ _ (1000 ^ 2)); lia.
Qed.

(** What a successful [swap] has checked and written. *)
Lemma swap_ok_inv w sender amountOut0 amountOut1 to w' :
  swap sender amountOut0 amountOut1 to w = Ok (tt, w') ->
  let balance0 := IERC20_balanceOf (ledger_of w' (token0 (st w))) (this (st w)) in
  let balance1 := IERC20_balanceOf (ledger_of w' (token1 (st w))) (this (st w)) in
  amountOut0 < reserve0 (st w) ∧ amountOut1 < reserve1 (st w) ∧
  (∃ amountIn0 amountIn1,
     fee_check balance0 balance1 amountIn0 amountIn1 (reserve0 (st w)) (reserve1 (st w))
     = Ok true) ∧
  reserve0 (st w') = uint112 balance0 ∧ reserve1 (st w') = uint112 balance1.
Proof.
  destruct w as [[self t0 t1 fac r0 r1 tl supply bals alw] tk lg ts].
  unfold_call.
  destruct ((amountOut0 =? 0) && (amountOut1 =? 0)); [intros [=]|].
  destruct (N.leb_spec r0 amountOut0); [intros [=]|].
  destruct (N.leb_spec r1 amountOut1); [intros [=]|].
  cbn [orb].
  destruct (0 <? amountOut0);
    [destruct (IERC20_transfer _ self to amountOut0) as [l0|]; [|intros [=]]|];
  (destruct (0 <? amountOut1);
    [destruct (IERC20_transfer _ self to amountOut1) as [l1|]; [|intros [=]]|]);
  unfold_call;
  (rewrite (sub_ok r0 amountOut0) by lia);
  (destruct (_ <? _);
    [match goal with |- context [sub ?a ?b] => destruct (sub a b); [|intros [=]] end|]);
  (rewrite (sub_ok r1 amountOut1) by lia);
  (destruct (_ <? _);
    [match goal with |- context [sub ?a ?b] => destruct (sub a b); [|intros [=]] end|]);
  (destruct (_ && _); [intros [=]|]);
  (destruct (fee_check _ _ _ _ _ _) as [[|]|] eqn:Hfee; cbn [negb]; intros [=]; subst w');
  unfold_call; repeat split; eauto.
Qed.

(** While the balances fit the 112 bits of a reserve, a successful [swap]
    does not decrease the product of the reserves. *)
Lemma swap_product_monotone w sender amountOut0 amountOut1 to w' :
  swap sender amountOut0 amountOut1 to w = Ok (tt, w') ->
  IERC20_balanceOf (ledger_of w' (token0 (st w))) (this (st w)) < 2 ^ 112 ->
  IERC20_balanceOf (ledger_of w' (token1 (st w))) (this (st w)) < 2 ^ 112 ->
  reserve0 (st w) * reserve1 (st w) <= reserve0 (st w') * reserve1 (st w').
Proof.
  intros Hswap Hb0 Hb1.
  destruct (swap_ok_inv _ _ _ _ _ _ Hswap) as (_ & _ & (in0 & in1 & Hfee) & -> & ->).
  unfold uint112. rewrite !N.mod_small by assumption.
  exact (fee_check_product _ _ _ _ _ _ Hfee).
Qed.

Lemma conserved_empty s a : conserved s -> totalSupply s = 0 -> balanceOf_at s a = 0.
Proof.
  unfold conserved, sum_balanceOf, balanceOf_at. intros Hsum Hzero.
  pose proof (ShareSum.lookup_le_sum (balanceOf s) a). lia.
Qed.

(** The first deposit mints the integer square root of the product of the
    two deposited amounts. *)
Lemma mint_first_deposit w sender to amount0 amount1 :
  conserved (st w) -> totalSupply (st w) = 0 ->
  IERC20_balanceOf (ledger_of w (token0 (st w))) (this (st w)) = reserve0 (st w) + amount0 ->
  IERC20_balanceOf (ledger_of w (token1 (st w))) (this (st w)) = reserve1 (st w) + amount1 ->
  0 < amount0 -> 0 < amount1 -> amount0 * amount1 <= MAX_UINT256 ->
  ∃ w', mint sender to w = Ok (N.sqrt (amount0 * amount1), w') ∧
        totalSupply (st w') = N.sqrt (amount0 * amount1) ∧
        balanceOf_at (st w') to = N.sqrt (amount0 * amount1).
Proof.
  intros Hcons Hsupply Hb0 Hb1 H0 H1 Hmax.
  pose proof (conserved_empty _ to Hcons Hsupply) as Hto.
  destruct w as [[self t0 t1 fac r0 r1 tl supply bals alw] tk lg ts].
  unfold_call. subst supply. rewrite Hb0, Hb1.
  rewrite !sub_ok by lia.
  replace (r0 + amount0 - r0) with amount0 by lia.
  replace (r1 + amount1 - r1) with amount1 by lia.
  destruct (N.eqb_spec amount0 0); [lia|]. destruct (N.eqb_spec amount1 0); [lia|].
  cbn [orb N.eqb]. rewrite mul_ok by assumption. cbn [rbind].
  rewrite SqrtFacts.sqrt_value by assumption.
  pose proof (N.sqrt_spec (amount0 * amount1) ltac:(lia)) as Hs. cbn zeta in Hs.
  set (l := N.sqrt (amount0 * amount1)) in *.
  assert (Hl : 0 < l) by nia.
  assert (Hlmax : l <= MAX_UINT256) by nia.
  destruct (N.eqb_spec l 0); [lia|].
  rewrite add_ok by lia. rewrite Hto. rewrite add_ok by lia.
  eexists. split; [reflexivity|]. cbn. split; [lia|].
  rewrite lookup_insert_eq. reflexivity.
Qed.





End PairFacts.

(** ** The quote of the Router against the fee test of the Pair *)

Module QuoteFacts.
Import Pair Router.

Lemma getAmountOut_value amountIn reserveIn reserveOut :
  0 < amountIn -> 0 < reserveIn -> 0 < reserveOut ->
  fits amountIn reserveIn reserveOut ->
  getAmountOut amountIn reserveIn reserveOut =
  Ok (amountIn * 997 * reserveOut / (reserveIn * 1000 + amountIn * 997)).
Proof.
  unfold fits. intros Ha Hin Hout Hfits. unfold getAmountOut, require.
  destruct (N.ltb_spec 0 amountIn); [|lia].
  destruct (N.ltb_spec 0 reserveIn); [|lia].
  destruct (N.ltb_spec 0 reserveOut); [|lia].
  cbn [andb rbind].
  rewrite (mul_ok amountIn 997) by nia. cbn [rbind].
  rewrite mul_ok by nia. cbn [rbind].
  rewrite mul_ok by nia. cbn [rbind].
  rewrite add_ok by nia. cbn [rbind].
  apply div_ok. lia.
Qed.

Lemma quote_lt_reserve amountIn reserveIn reserveOut :
  0 < reserveIn ->
  amountIn * 997 * reserveOut / (reserveIn * 1000 + amountIn * 997) < reserveOut
  ∨ reserveOut = 0.
Proof.
  intros Hin. destruct (N.eq_dec reserveOut 0) as [->|Hne]; [right; reflexivity | left].
  apply N.Div0.div_lt_upper_bound. nia.
Qed.

(** The quoted output passes the fee test of a swap that pays in exactly
    [amountIn], and one unit more does not. *)
Lemma fee_check_quote amountIn reserveIn reserveOut :
  0 < amountIn -> 0 < reserveIn -> 0 < reserveOut ->
  fits amountIn reserveIn reserveOut ->
  let q := amountIn * 997 * reserveOut / (reserveIn * 1000 + amountIn * 997) in
  fee_check (reserveIn + amountIn) (reserveOut - q) amountIn 0 reserveIn reserveOut
    = Ok true ∧
  fee_check (reserveIn + amountIn) (reserveOut - (q + 1)) amountIn 0 reserveIn reserveOut
    = Ok false.
Proof.
  intros Ha Hin Hout Hfits q. unfold fits in Hfits.
  assert (Hq : q < reserveOut).
  { destruct (quote_lt_reserve amountIn reserveIn reserveOut Hin); [assumption | lia]. }
  set (D := reserveIn * 1000 + amountIn * 997) in *.
  assert (HD : 0 < D) by lia.
  assert (Hlo : q * D <= amountIn * 997 * reserveOut).
  { subst q. rewrite N.mul_comm. apply N.Div0.mul_div_le. }
  assert (Hhi : amountIn * 997 * reserveOut < (q + 1) * D).
  { subst q. pose proof (N.div_mod (amountIn * 997 * reserveOut) D ltac:(lia)) as E.
    pose proof (N.mod_lt (amountIn * 997 * reserveOut) D ltac:(lia)). nia. }
  assert (HDeq : (reserveIn + amountIn) * 1000 - amountIn * 3 = D) by lia.
  assert (Hbound : D * (1000 * reserveOut) <= MAX_UINT256) by (subst D; lia).
  clearbody q D. unfold fee_check.
  rewrite (mul_ok (reserveIn + amountIn) 1000) by nia. cbn [rbind].
  rewrite (mul_ok amountIn 3) by nia. cbn [rbind].
  rewrite sub_ok by lia. cbn [rbind]. rewrite HDeq.
  rewrite (mul_ok 0 3) by (cbn; lia). cbn [rbind N.mul].
  rewrite (mul_ok reserveIn reserveOut) by nia. cbn [rbind].
  rewrite (mul_ok (reserveIn * reserveOut)) by nia. cbn [rbind].
  split.
  - rewrite (mul_ok (reserveOut - q) 1000) by nia. cbn [rbind].
    rewrite sub_ok by lia. cbn [rbind]. rewrite N.sub_0_r.
    rewrite mul_ok by nia. cbn [rbind]. f_equal.
    apply negb_true_iff, N.ltb_ge. nia.
  - rewrite (mul_ok (reserveOut - (q + 1)) 1000) by nia. cbn [rbind].
    rewrite sub_ok by lia. cbn [rbind]. rewrite N.sub_0_r.
    rewrite mul_ok by nia. cbn [rbind]. f_equal.
    apply negb_false_iff, N.ltb_lt. nia.
Qed.

Lemma IERC20_transfer_out ledger sender to value :
  value <= IERC20_balanceOf ledger sender -> to ≠ sender ->
  ∃ ledger', IERC20_transfer ledger sender to value = Some ledger' ∧
             IERC20_balanceOf ledger' sender = IERC20_balanceOf ledger sender - value ∧
             IERC20_balanceOf ledger' to = IERC20_balanceOf ledger to + value.
Proof.
  intros Hle Hne. unfold IERC20_transfer.
  destruct (N.leb_spec value (IERC20_balanceOf ledger sender)); [|lia].
  eexists. split; [reflexivity|]. unfold IERC20_balanceOf. split.
  - rewrite lookup_insert_ne by congruence. rewrite lookup_insert_eq. reflexivity.
  - rewrite lookup_insert_eq. cbn. rewrite lookup_insert_ne by congruence. reflexivity.
Qed.

(** A swap that pays [amountIn] of token0 in and asks [out] of token1: it
    stands or falls with the fee test. *)
Lemma swap_token1_out w sender out to amountIn :
  token0 (st w) ≠ token1 (st w) -> to ≠ this (st w) ->
  0 < reserve0 (st w) -> 0 < out -> out < reserve1 (st w) -> 0 < amountIn ->
  IERC20_balanceOf (ledger_of w (token0 (st w))) (this (st w)) = reserve0 (st w) + amountIn ->
  IERC20_balanceOf (ledger_of w (token1 (st w))) (this (st w)) = reserve1 (st w) ->
  match fee_check (reserve0 (st w) + amountIn) (reserve1 (st w) - out) amountIn 0
                  (reserve0 (st w)) (reserve1 (st w)) with
  | Ok true =>
      ∃ w', swap sender 0 out to w = Ok (tt, w') ∧
            reserve0 (st w') = uint112 (reserve0 (st w) + amountIn) ∧
            reserve1 (st w') = uint112 (reserve1 (st w) - out) ∧
            IERC20_balanceOf (ledger_of w' (token1 (st w))) to =
              IERC20_balanceOf (ledger_of w (token1 (st w))) to + out
  | Ok false => swap sender 0 out to w = Revert InsufficientInput
  | Revert e => swap sender 0 out to w = Revert e
  end.
Proof.
  destruct w as [[self t0 t1 fac r0 r1 tl supply bals alw] tk lg ts].
  cbn [st this token0 token1 reserve0 reserve1]. unfold ledger_of. cbn [tokens].
  intros Htok Hto Hr0 Hout Hlt Hin Hc0 Hc1.
  destruct (IERC20_transfer_out (default ∅ (tk !! t1)) self to out ltac:(lia) Hto)
    as (l1 & Htr & Hself & Hrecv).
  assert (E : swap sender 0 out to
                {| st := mkState self t0 t1 fac r0 r1 tl supply bals alw;
                   tokens := tk; log := lg; block_timestamp := ts |} =
              match fee_check (r0 + amountIn) (r1 - out) amountIn 0 r0 r1 with
              | Ok true =>
                  (_update (r0 + amountIn) (r1 - out) ;;
                   emit (Swap sender amountIn 0 0 out to))
                    {| st := mkState self t0 t1 fac r0 r1 tl supply bals alw;
                       tokens := <[t1 := l1]> tk; log := lg; block_timestamp := ts |}
              | Ok false => Revert InsufficientInput
              | Revert e => Revert e
              end).
  { unfold swap.
    destruct (N.eqb_spec out 0); [lia|]. cbn [N.eqb andb].
    cbv beta iota delta [bind gets getReserves st reserve0 reserve1 blockTimestampLast].
    destruct (N.leb_spec r0 0); [lia|]. destruct (N.leb_spec r1 out); [lia|].
    cbn [orb]. destruct (N.ltb_spec 0 out); [|lia]. cbn [N.ltb N.compare].
    cbv beta iota delta [bind gets ret lift _safeTransfer token_balanceOf ledger_of
                         st tokens log block_timestamp this token0 token1].
    rewrite Htr.
    rewrite lookup_insert_ne by congruence. rewrite lookup_insert_eq.
    cbn [from_option id]. rewrite Hc0, Hself, Hc1.
    rewrite (sub_ok r0 0), N.sub_0_r by lia.
    destruct (N.ltb_spec r0 (r0 + amountIn)); [|lia].
    rewrite (sub_ok (r0 + amountIn) r0) by lia.
    replace (r0 + amountIn - r0) with amountIn by lia.
    rewrite (sub_ok r1 out) by lia.
    rewrite N.ltb_irrefl.
    destruct (N.eqb_spec amountIn 0); [lia|]. cbn [andb].
    destruct (fee_check _ _ _ _ _ _) as [[|]|]; reflexivity. }
  rewrite E. destruct (fee_check _ _ _ _ _ _) as [[|]|]; try reflexivity.
  eexists. split; [reflexivity|]. cbn.
  rewrite lookup_insert_eq. cbn. repeat split. exact Hrecv.
Qed.

(** The fee test does not depend on which token is called token0. *)
Lemma fee_check_sym balance0 balance1 amountIn0 amountIn1 r0 r1 :
  fee_check balance0 balance1 amountIn0 amountIn1 r0 r1 =
  fee_check balance1 balance0 amountIn1 amountIn0 r1 r0.
Proof.
  unfold fee_check, mul, sub.
  rewrite (N.mul_comm r1 r0).
  repeat match goal with
    | |- context [if ?a * ?k <=? ?b then _ else _] =>
        is_var a; destruct (a * k <=? b); cbn [rbind]; try reflexivity
    end.
  all: rewrite (N.mul_comm (balance1 * 1000 - amountIn1 * 3)); reflexivity.
Qed.

(** The same swap in the other direction: [amountIn] of token1 in, [out] of
    token0 asked. *)
Lemma swap_token0_out w sender out to amountIn :
  token0 (st w) ≠ token1 (st w) -> to ≠ this (st w) ->
  0 < reserve1 (st w) -> 0 < out -> out < reserve0 (st w) -> 0 < amountIn ->
  IERC20_balanceOf (ledger_of w (token1 (st w))) (this (st w)) = reserve1 (st w) + amountIn ->
  IERC20_balanceOf (ledger_of w (token0 (st w))) (this (st w)) = reserve0 (st w) ->
  match fee_check (reserve0 (st w) - out) (reserve1 (st w) + amountIn) 0 amountIn
                  (reserve0 (st w)) (reserve1 (st w)) with
  | Ok true =>
      ∃ w', swap sender out 0 to w = Ok (tt, w') ∧
            reserve0 (st w') = uint112 (reserve0 (st w) - out) ∧
            reserve1 (st w') = uint112 (reserve1 (st w) + amountIn) ∧
            IERC20_balanceOf (ledger_of w' (token0 (st w))) to =
              IERC20_balanceOf (ledger_of w (token0 (st w))) to + out
  | Ok false => swap sender out 0 to w = Revert InsufficientInput
  | Revert e => swap sender out 0 to w = Revert e
  end.
Proof.
  destruct w as [[self t0 t1 fac r0 r1 tl supply bals alw] tk lg ts].
  cbn [st this token0 token1 reserve0 reserve1]. unfold ledger_of. cbn [tokens].
  intros Htok Hto Hr1 Hout Hlt Hin Hc1 Hc0.
  destruct (IERC20_transfer_out (default ∅ (tk !! t0)) self to out ltac:(lia) Hto)
    as (l0 & Htr & Hself & Hrecv).
  assert (E : swap sender out 0 to
                {| st := mkState self t0 t1 fac r0 r1 tl supply bals alw;
                   tokens := tk; log := lg; block_timestamp := ts |} =
              match fee_check (r0 - out) (r1 + amountIn) 0 amountIn r0 r1 with
              | Ok true =>
                  (_update (r0 - out) (r1 + amountIn) ;;
                   emit (Swap sender 0 amountIn out 0 to))
                    {| st := mkState self t0 t1 fac r0 r1 tl supply bals alw;
                       tokens := <[t0 := l0]> tk; log := lg; block_timestamp := ts |}
              | Ok false => Revert InsufficientInput
              | Revert e => Revert e
              end).
  { unfold swap.
    destruct (N.eqb_spec out 0); [lia|]. cbn [N.eqb andb].
    cbv beta iota delta [bind gets getReserves st reserve0 reserve1 blockTimestampLast].
    destruct (N.leb_spec r0 out); [lia|]. destruct (N.leb_spec r1 0); [lia|].
    cbn [orb]. destruct (N.ltb_spec 0 out); [|lia]. cbn [N.ltb N.compare].
    cbv beta iota delta [bind gets ret lift _safeTransfer token_balanceOf ledger_of
                         st tokens log block_timestamp this token0 token1].
    rewrite Htr.
    rewrite lookup_insert_eq. rewrite lookup_insert_ne by congruence.
    cbn [from_option id]. rewrite Hc1, Hself, Hc0.
    rewrite (sub_ok r0 out) by lia.
    rewrite N.ltb_irrefl.
    rewrite (sub_ok r1 0), N.sub_0_r by lia.
    destruct (N.ltb_spec r1 (r1 + amountIn)); [|lia].
    rewrite (sub_ok (r1 + amountIn) r1) by lia.
    replace (r1 + amountIn - r1) with amountIn by lia.
    destruct (N.eqb_spec amountIn 0); [lia|]. cbn [N.eqb andb].
    destruct (fee_check _ _ _ _ _ _) as [[|]|]; reflexivity. }
  rewrite E. destruct (fee_check _ _ _ _ _ _) as [[|]|]; try reflexivity.
  eexists. split; [reflexivity|]. cbn.
  rewrite lookup_insert_eq. cbn. repeat split. exact Hrecv.
Qed.

(** Amounts below 2^112, the range of the reserves, fit. *)
Lemma fits_uint112 amountIn reserveIn reserveOut :
  amountIn < 2 ^ 112 -> reserveIn < 2 ^ 112 -> reserveOut < 2 ^ 112 ->
  fits amountIn reserveIn reserveOut.
Proof.
  unfold fits. intros Ha Hin Hout.
  assert (H1 : 1000 * reserveIn + 997 * amountIn <= 1997 * 2 ^ 112) by lia.
  assert (H2 : 1000 * reserveOut <= 1000 * 2 ^ 112) by lia.
  pose proof (N.mul_le_mono _ _ _ _ H1 H2) as H.
  eapply N.le_trans; [exact H|]. vm_compute. discriminate.
Qed.

End QuoteFacts.

(** ** Factory *)

Module FactoryFacts.
Import Factory.

Lemma createPair_identical created tokenA tokenB s :
  createPair created tokenA tokenB s = Revert IdenticalTokens <-> tokenA = tokenB.
Proof.
  unfold createPair, require. destruct (N.eqb_spec tokenA tokenB) as [->|Hne]; cbn.
  - tauto.
  - split; [|contradiction].
    destruct (tokenA <? tokenB); cbn;
      repeat match goal with
        | |- context [if ?c then _ else _] => destruct c; cbn
        end; intros [=].
Qed.

Lemma createPair_zero created tokenA tokenB s :
  createPair created tokenA tokenB s = Revert ZeroToken
  <-> tokenA ≠ tokenB ∧ N.min tokenA tokenB = 0.
Proof.
  unfold createPair, require. destruct (N.eqb_spec tokenA tokenB) as [->|Hne]; cbn.
  - split; [intros [=] | tauto].
  - destruct (N.ltb_spec tokenA tokenB) as [Hlt|Hge]; cbn;
      [rewrite N.min_l by lia | rewrite N.min_r by lia];
      match goal with
      | |- context [negb (?t =? 0)] => destruct (N.eqb_spec t 0); cbn
      end; try tauto;
      (split; [|tauto]);
      match goal with
      | |- context [if ?c then _ else _] => destruct c; cbn
      end; intros [=].
Qed.

Lemma createPair_exists created tokenA tokenB s :
  createPair created tokenA tokenB s = Revert PairExists
  <-> tokenA ≠ tokenB ∧ N.min tokenA tokenB ≠ 0 ∧
      getPair_at s (N.min tokenA tokenB) (N.max tokenA tokenB) ≠ 0.
Proof.
  unfold createPair, require. destruct (N.eqb_spec tokenA tokenB) as [->|Hne]; cbn.
  - split; [intros [=] | tauto].
  - destruct (N.ltb_spec tokenA tokenB) as [Hlt|Hge]; cbn;
      [rewrite N.min_l, N.max_r by lia | rewrite N.min_r, N.max_l by lia];
      match goal with
      | |- context [negb (?t =? 0)] => destruct (N.eqb_spec t 0); cbn
      end; try (split; [intros [=] | tauto]);
      match goal with
      | |- context [getPair_at ?s ?a ?b =? 0] =>
          destruct (N.eqb_spec (getPair_at s a b) 0); cbn
      end; try tauto; (split; [intros [=] | tauto]).
Qed.

(** The new storage after a successful call. *)
Lemma createPair_ok created tokenA tokenB s :
  tokenA ≠ tokenB -> N.min tokenA tokenB ≠ 0 ->
  getPair_at s (N.min tokenA tokenB) (N.max tokenA tokenB) = 0 ->
  let token0 := N.min tokenA tokenB in
  let token1 := N.max tokenA tokenB in
  ∃ s', createPair created tokenA tokenB s = Ok (created, s') ∧
        this s' = this s ∧
        getPair s' = <[(token1, token0) := created]>
                       (<[(token0, token1) := created]> (getPair s)) ∧
        allPairs s' = allPairs s ++ [created] ∧
        deployed s' =
          <[created := Pair.constructor created (this s) token0 token1]> (deployed s).
Proof.
  intros Hne Hzero Hfree token0 token1. subst token0 token1.
  unfold createPair, require. destruct (N.eqb_spec tokenA tokenB); [contradiction|]. cbn.
  destruct (N.ltb_spec tokenA tokenB) as [Hlt|Hge]; cbn;
    [rewrite N.min_l, N.max_r in * by lia | rewrite N.min_r, N.max_l in * by lia];
    match goal with
    | |- context [negb (?t =? 0)] => destruct (N.eqb_spec t 0); [contradiction|]; cbn
    end;
    rewrite Hfree; cbn; eexists; repeat split.
Qed.

(** Success is the only remaining outcome. *)
Lemma createPair_ok_inv created tokenA tokenB s pair s' :
  createPair created tokenA tokenB s = Ok (pair, s') ->
  tokenA ≠ tokenB ∧ N.min tokenA tokenB ≠ 0 ∧
  getPair_at s (N.min tokenA tokenB) (N.max tokenA tokenB) = 0.
Proof.
  intros Hok.
  destruct (N.eq_dec tokenA tokenB) as [Heq|Hne].
  { apply (createPair_identical created _ _ s) in Heq. congruence. }
  destruct (N.eq_dec (N.min tokenA tokenB) 0) as [Hz|Hnz].
  { pose proof (proj2 (createPair_zero created tokenA tokenB s) (conj Hne Hz)). congruence. }
  destruct (N.eq_dec (getPair_at s (N.min tokenA tokenB) (N.max tokenA tokenB)) 0)
    as [Hf|Hnf]; [tauto|].
  pose proof (proj2 (createPair_exists created tokenA tokenB s) (conj Hne (conj Hnz Hnf))).
  congruence.
Qed.

Lemma wf_constructor self : wf (constructor self).
Proof.
  split; cbn.
  - intros a b H. unfold getPair_at in H. cbn in H. rewrite lookup_empty in H.
    contradiction.
  - intros pair p H. rewrite lookup_empty in H. discriminate.
  - intros pair H. apply elem_of_nil in H. contradiction.
  - constructor.
Qed.

Lemma wf_createPair created tokenA tokenB s pair s' :
  wf s -> created ≠ 0 -> deployed s !! created = None ->
  createPair created tokenA tokenB s = Ok (pair, s') -> wf s'.
Proof.
  intros Hwf Hc0 Hfresh Hok.
  destruct (createPair_ok_inv _ _ _ _ _ _ Hok) as (Hne & Hz & Hfree).
  destruct (createPair_ok created tokenA tokenB s Hne Hz Hfree)
    as (s1 & Hok1 & Hthis & Hgp & Hall & Hdep).
  rewrite Hok in Hok1. injection Hok1 as -> ->.
  set (t0 := N.min tokenA tokenB) in *. set (t1 := N.max tokenA tokenB) in *.
  assert (Hlt : t0 < t1) by (subst t0 t1; lia).
  assert (Hget : forall a b,
             getPair_at s1 a b =
             if decide ((a, b) = (t1, t0) ∨ (a, b) = (t0, t1)) then created
             else getPair_at s a b).
  { intros a b. unfold getPair_at. rewrite Hgp.
    destruct (decide ((a, b) = (t1, t0))) as [->|H1].
    - rewrite lookup_insert_eq. rewrite decide_True by tauto. reflexivity.
    - rewrite lookup_insert_ne by congruence.
      destruct (decide ((a, b) = (t0, t1))) as [->|H2].
      + rewrite lookup_insert_eq. rewrite decide_True by tauto. reflexivity.
      + rewrite lookup_insert_ne by congruence. rewrite decide_False by tauto.
        reflexivity. }
  destruct Hwf as [Hreg Hdpl Hlst Hnd].
  split.
  - intros a b. rewrite !Hget.
    destruct (decide ((a, b) = (t1, t0) ∨ (a, b) = (t0, t1))) as [[Hab|Hab]|Hab];
      intros Hnz.
    + injection Hab as -> ->. rewrite decide_True by tauto.
      split; [lia|]. split; [reflexivity|].
      rewrite Hdep, lookup_insert_eq. eexists. split; [reflexivity|]. cbn. lia.
    + injection Hab as -> ->. rewrite decide_True by tauto.
      split; [lia|]. split; [reflexivity|].
      rewrite Hdep, lookup_insert_eq. eexists. split; [reflexivity|]. cbn. lia.
    + destruct (Hreg a b Hnz) as (Hab' & Hsym & p & Hp & Hp0 & Hp1).
      split; [assumption|].
      rewrite decide_False by (intros [[=]|[=]]; subst; tauto).
      split; [assumption|].
      exists p. rewrite Hdep. rewrite lookup_insert_ne by congruence. tauto.
  - intros pair p. rewrite Hdep, Hall.
    destruct (decide (pair = created)) as [->|Hpc].
    + rewrite lookup_insert_eq. intros [= <-]. cbn.
      rewrite Hget, decide_True by tauto.
      repeat split; try assumption. apply elem_of_app. right. apply list_elem_of_singleton.
      reflexivity.
    + rewrite lookup_insert_ne by congruence. intros Hp.
      destruct (Hdpl pair p Hp) as (Hp0 & Hin & Ht0 & Hord & Hgpp).
      repeat split; try assumption.
      * apply elem_of_app. left. assumption.
      * rewrite Hget. rewrite decide_False; [assumption|].
        intros [[= E0 E1]|[= E0 E1]]; [lia|].
        rewrite E0, E1 in Hgpp. congruence.
  - intros pair. rewrite Hall, Hdep. intros Hin. apply elem_of_app in Hin as [Hin|Hin].
    + destruct (decide (pair = created)) as [->|Hpc].
      * rewrite lookup_insert_eq. eauto.
      * rewrite lookup_insert_ne by congruence. auto.
    + apply list_elem_of_singleton in Hin as ->. rewrite lookup_insert_eq. eauto.
  - rewrite Hall. apply NoDup_app. split; [assumption|]. split.
    + intros x Hin Hx. apply list_elem_of_singleton in Hx as ->.
      destruct (Hlst _ Hin) as [p Hp]. congruence.
    + apply NoDup_singleton.
Qed.


(** On a well-formed factory the lookup is symmetric. *)
Lemma getPair_symmetric s a b : wf s -> getPair_at s a b = getPair_at s b a.
Proof.
  intros Hwf.
  destruct (N.eq_dec (getPair_at s a b) 0) as [Hab|Hab].
  - destruct (N.eq_dec (getPair_at s b a) 0) as [Hba|Hba]; [congruence|].
    destruct (wf_registered s Hwf b a Hba) as (_ & Hsym & _). congruence.
  - destruct (wf_registered s Hwf a b Hab) as (_ & Hsym & _). congruence.
Qed.

(** A registered entry is a ledger for its pair, and conversely. *)
Lemma ledger_for_registered s a b :
  wf s -> (getPair_at s a b ≠ 0 <-> ∃ pair, ledger_for s a b pair).
Proof.
  intros Hwf. split.
  - intros Hnz. destruct (wf_registered s Hwf a b Hnz) as (Hne & _ & p & Hp & Hp0 & Hp1).
    exists (getPair_at s a b). split.
    + apply (wf_deployed s Hwf _ p Hp).
    + exists p. split; [assumption|]. lia.
  - intros (pair & Hin & p & Hp & Htok).
    destruct (wf_deployed s Hwf pair p Hp) as (Hp0 & _ & _ & _ & Hgp).
    destruct Htok as [[<- <-]|[<- <-]].
    + congruence.
    + rewrite getPair_symmetric by assumption. congruence.
Qed.

(** At most one ledger per unordered pair. *)
Lemma ledger_for_unique s a b pair1 pair2 :
  wf s -> ledger_for s a b pair1 -> ledger_for s a b pair2 -> pair1 = pair2.
Proof.
  intros Hwf (_ & p1 & Hp1 & Htok1) (_ & p2 & Hp2 & Htok2).
  destruct (wf_deployed s Hwf _ _ Hp1) as (_ & _ & _ & Hord1 & Hgp1).
  destruct (wf_deployed s Hwf _ _ Hp2) as (_ & _ & _ & Hord2 & Hgp2).
  destruct Htok1 as [[E1 F1]|[E1 F1]], Htok2 as [[E2 F2]|[E2 F2]];
    rewrite E1, F1 in *; rewrite E2, F2 in *; try lia; congruence.
Qed.

End FactoryFacts.

(** ** Router *)

Module RouterFacts.
Import Router.

(** One turn of the loop is one hop of the specification. *)
Lemma getAmountsOut_body_hop f path i amounts a b x :
  path !! i = Some a -> path !! S i = Some b -> amounts !! i = Some x ->
  (S i < length amounts)%nat ->
  getAmountsOut_body f path i amounts =
  let? y := quoteHop f a b x in Ok (<[S i := y]> amounts).
Proof.
  intros Ha Hb Hx Hlen. unfold getAmountsOut_body, quoteHop.
  replace (i + 1)%nat with (S i) by lia. rewrite Ha, Hb, Hx.
  destruct (getPair f a b =? 0); [reflexivity|].
  destruct (Pair_getReserves f (getPair f a b)) as [[[r0 r1] t]|e]; [|reflexivity].
  cbn [rbind]. destruct (a <? b);
    (destruct (getAmountOut x _ _); cbn [rbind]; [|reflexivity]);
    rewrite decide_True by assumption; reflexivity.
Qed.

(** The loop, entered at position [length pre] with the amounts up to there
    filled in, computes the remaining hops. *)
Lemma getAmountsOut_loop_hops f rest : forall pre done a x,
  length done = length pre ->
  getAmountsOut_loop f (pre ++ a :: rest) (length rest) (length pre)
    (done ++ x :: replicate (length rest) 0)
  = let? tail := quoteHops f x a rest in Ok (done ++ tail).
Proof.
  induction rest as [|b rest IH]; intros pre done a x Hlen.
  - reflexivity.
  - cbn [length getAmountsOut_loop quoteHops replicate].
    rewrite (getAmountsOut_body_hop f _ _ _ a b x).
    + destruct (quoteHop f a b x) as [y|e]; [|reflexivity]. cbn [rbind].
      replace (<[S (length pre) := y]> (done ++ x :: 0 :: replicate (length rest) 0))
        with ((done ++ [x]) ++ y :: replicate (length rest) 0).
      2:{ rewrite <- Hlen. rewrite <- app_assoc. cbn [app].
          replace (S (length done)) with (length done + 1)%nat by lia.
          rewrite insert_app_r. reflexivity. }
      replace (S (length pre)) with (length (pre ++ [a])) by (rewrite length_app; cbn; lia).
      replace (pre ++ a :: b :: rest) with ((pre ++ [a]) ++ b :: rest)
        by (rewrite <- app_assoc; reflexivity).
      rewrite IH by (rewrite !length_app; cbn; lia).
      destruct (quoteHops f y b rest) as [tail|e]; [|reflexivity]. cbn [rbind].
      rewrite <- app_assoc. reflexivity.
    + rewrite lookup_app_r by lia. rewrite Nat.sub_diag. reflexivity.
    + rewrite lookup_app_r by lia.
      replace (S (length pre) - length pre)%nat with 1%nat by lia. reflexivity.
    + rewrite lookup_app_r by lia. rewrite Hlen, Nat.sub_diag. reflexivity.
    + rewrite length_app. cbn. lia.
Qed.

Lemma getAmountsOut_quotePath f amountIn path :
  getAmountsOut f amountIn path = quotePath f amountIn path.
Proof.
  unfold getAmountsOut, quotePath, require.
  destruct path as [|a [|b rest]]; try reflexivity.
  cbn [length Nat.leb rbind Nat.sub replicate].
  change (<[0%nat := amountIn]> (0 :: 0 :: replicate (length rest) 0))
    with (amountIn :: replicate (length (b :: rest)) 0).
  pose proof (getAmountsOut_loop_hops f (b :: rest) [] [] a amountIn eq_refl) as E.
  cbn [app length] in E |- *. rewrite E.
  destruct (quoteHops f amountIn a (b :: rest)); reflexivity.
Qed.

(** A hop fails with [PairNotFound] exactly when no ledger is registered. *)
Lemma quoteHop_PairNotFound f a b x :
  quoteHop f a b x = Revert PairNotFound <-> getPair f a b = 0.
Proof.
  unfold quoteHop. destruct (N.eqb_spec (getPair f a b) 0) as [E|E]; [tauto|].
  split; [|contradiction]. unfold Pair_getReserves.
  destruct (Factory.deployed f !! getPair f a b) as [p|]; cbn [rbind]; [|intros [=]].
  assert (H : forall r s, getAmountOut x r s ≠ Revert PairNotFound).
  { intros r s. unfold getAmountOut, require, mul, add, div.
    repeat match goal with
      | |- context [if ?c then _ else _] => destruct c; cbn [rbind]
      end; intros [=]. }
  destruct (a <? b); intros Hq; exfalso; exact (H _ _ Hq).
Qed.

(** What the amounts of a sequence of successful hops look like. *)
Lemma quoteHops_ok f rest : forall x a amounts,
  quoteHops f x a rest = Ok amounts ->
  length amounts = S (length rest) ∧ amounts !! 0%nat = Some x ∧
  forall i u v xi,
    (a :: rest) !! i = Some u -> rest !! i = Some v -> amounts !! i = Some xi ->
    ∃ y, quoteHop f u v xi = Ok y ∧ amounts !! S i = Some y.
Proof.
  induction rest as [|b rest IH]; intros x a amounts; cbn [quoteHops].
  - intros [= <-]. repeat split. intros i u v xi _ Hv. rewrite lookup_nil in Hv. discriminate.
  - destruct (quoteHop f a b x) as [y|e] eqn:Hhop; cbn [rbind]; [|intros [=]].
    destruct (quoteHops f y b rest) as [tail|e] eqn:Htail; cbn [rbind]; intros [= <-].
    destruct (IH _ _ _ Htail) as (Hlen & Hhead & Hhops).
    split; [cbn; lia|]. split; [reflexivity|].
    intros [|i] u v xi; cbn.
    + intros [= <-] [= <-] [= <-]. eauto.
    + apply Hhops.
Qed.

(** Conversely, amounts that chain the hops are what is returned. *)
Lemma quoteHops_complete f rest : forall x a amounts,
  length amounts = S (length rest) -> amounts !! 0%nat = Some x ->
  (forall i u v xi,
     (a :: rest) !! i = Some u -> rest !! i = Some v -> amounts !! i = Some xi ->
     ∃ y, quoteHop f u v xi = Ok y ∧ amounts !! S i = Some y) ->
  quoteHops f x a rest = Ok amounts.
Proof.
  induction rest as [|b rest IH]; intros x a amounts Hlen Hhead Hhops; cbn [quoteHops].
  - destruct amounts as [|x' [|]]; try discriminate. cbn in Hhead. congruence.
  - destruct amounts as [|x' amounts]; [discriminate|]. cbn in Hhead. injection Hhead as ->.
    destruct (Hhops 0%nat a b x eq_refl eq_refl eq_refl) as (y & Hy & Hnext).
    rewrite Hy. cbn [rbind]. rewrite (IH y b amounts).
    + reflexivity.
    + cbn in Hlen. lia.
    + exact Hnext.
    + intros i u v xi Hu Hv Hxi. exact (Hhops (S i) u v xi Hu Hv Hxi).
Qed.

(** The first hop that fails decides the failure of the whole path. *)
Lemma quoteHops_first_failure f mid : forall x a amounts y u v post e,
  quoteHops f x a mid = Ok amounts ->
  last amounts = Some y -> last (a :: mid) = Some u ->
  quoteHop f u v y = Revert e ->
  quoteHops f x a (mid ++ v :: post) = Revert e.
Proof.
  induction mid as [|b mid IH]; intros x a amounts y u v post e; cbn [quoteHops app].
  - intros [= <-] [= <-] [= <-] Hfail. rewrite Hfail. reflexivity.
  - destruct (quoteHop f a b x) as [z|e'] eqn:Hhop; cbn [rbind]; [|intros [=]].
    destruct (quoteHops f z b mid) as [tail|e'] eqn:Htail; cbn [rbind]; intros [= <-].
    intros Hlast Hu Hfail.
    rewrite (IH z b tail y u v post e Htail); try assumption; try reflexivity.
    + destruct tail as [|t tail]; [|exact Hlast].
      apply quoteHops_ok in Htail as (Hlen & _). discriminate.
Qed.

End RouterFacts.

(** ** What no call changes, and the ranges every call keeps *)

Module StorageFacts.
Import Pair Trace Conservation.

Create HintDb storage.

#[local] Hint Resolve preserves_ret preserves_revert preserves_lift preserves_gets
  preserves_emit preserves_token_balanceOf preserves__safeTransfer preserves_if
  : storage.

Lemma preserves__update (P : State -> Prop) balance0 balance1 :
  (forall r0 r1 t s, P s -> P (set_reserves r0 r1 t s)) ->
  preserves P (_update balance0 balance1).
Proof. intros HP [s tk lg ts] a w' Hs [= _ <-]. apply HP, Hs. Qed.

(** Walks through a computation whose writes all leave the property as it
    is, up to conversion. *)
Ltac storage_steps :=
  repeat first
    [ solve [auto with storage]
    | apply preserves__update; intros ? ? ? ? HP; exact HP
    | apply preserves_bind; [|intros]
    | apply preserves_if
    | match goal with |- preserves _ (match ?p with _ => _ end) => destruct p end
    | apply preserves_modify; intros ? HP; exact HP ].

Lemma in_range__update balance0 balance1 :
  preserves Storage.in_range (_update balance0 balance1).
Proof.
  intros [s tk lg ts] a w' (_ & _ & _ & Hsupply) [= _ <-].
  unfold Storage.in_range, uint112, uint32. cbn.
  repeat split; try assumption; apply N.mod_lt; discriminate.
Qed.

Lemma in_range__mint to value : preserves Storage.in_range (_mint to value).
Proof.
  intros [[self t0 t1 fac r0 r1 tl supply bals alw] tk lg ts] a w'.
  unfold Storage.in_range. cbv beta iota delta
    [_mint bind lift gets modify emit set_totalSupply set_balanceOf balanceOf_at
     st reserve0 reserve1 blockTimestampLast totalSupply balanceOf].
  intros (H0 & H1 & Ht & Hs). unfold add.
  destruct (N.leb_spec (supply + value) MAX_UINT256); [|intros [=]].
  destruct (_ <=? _); intros [= _ <-]. cbn. tauto.
Qed.

Lemma in_range__burn from value : preserves Storage.in_range (_burn from value).
Proof.
  intros [[self t0 t1 fac r0 r1 tl supply bals alw] tk lg ts] a w'.
  unfold Storage.in_range. cbv beta iota delta
    [_burn bind lift gets modify emit set_totalSupply set_balanceOf balanceOf_at
     st reserve0 reserve1 blockTimestampLast totalSupply balanceOf].
  intros (H0 & H1 & Ht & Hs). unfold sub.
  destruct (_ <=? _); [|intros [=]].
  destruct (N.leb_spec value supply); intros [= _ <-]. cbn.
  repeat split; try assumption. lia.
Qed.

#[local] Hint Resolve in_range__update in_range__mint in_range__burn : storage.

Lemma in_range_exec c : preserves Storage.in_range (exec c).
Proof.
  destruct c; cbn [exec];
    unfold approve, transfer, transferFrom, mint, burn, swap, getReserves;
    storage_steps.
Qed.

Lemma in_range_constructor self sender t0 t1 :
  Storage.in_range (constructor self sender t0 t1).
Proof. unfold Storage.in_range. cbn. repeat split; vm_compute; discriminate. Qed.

Lemma in_range_run txs : forall s, Storage.in_range s -> Storage.in_range (run s txs).
Proof.
  induction txs as [|t txs IH]; intros s HP; cbn [run fold_left]; [exact HP|].
  apply IH. unfold step. destruct (exec _ _) as [[a w']|e] eqn:E; [|exact HP].
  exact (in_range_exec _ (mkWorld s _ _ _) _ _ HP E).
Qed.

(** The constructor's part of the storage is written by no function. *)
Lemma identity_exec c x : preserves (fun s => Storage.identity s = x) (exec c).
Proof.
  destruct c; cbn [exec];
    unfold approve, transfer, transferFrom, mint, burn, swap, getReserves,
           _mint, _burn;
    storage_steps.
Qed.

Lemma identity_run txs : forall s, Storage.identity (run s txs) = Storage.identity s.
Proof.
  unfold run. induction txs as [|t txs IH]; intros s; cbn [fold_left]; [reflexivity|].
  rewrite IH. unfold step. destruct (exec _ _) as [[a w']|e] eqn:E; [|reflexivity].
  exact (identity_exec _ _ (mkWorld s _ _ _) _ _ eq_refl E).
Qed.

Lemma identity__burn from value x :
  preserves (fun s => Storage.identity s = x) (_burn from value).
Proof. unfold _burn. storage_steps. Qed.

(** [swap] writes the reserves and the time stamp and nothing else. *)
Lemma swap_keeps_shares sender amountOut0 amountOut1 to x :
  preserves (fun s => (Storage.identity s, Storage.shares s) = x)
            (swap sender amountOut0 amountOut1 to).
Proof.
  unfold swap, getReserves.
  storage_steps.
Qed.

End StorageFacts.

(** ** The quote as a function *)

Module AmountFacts.
Import Router.

(** What a returned quote has passed. *)
Lemma getAmountOut_inv amountIn reserveIn reserveOut amountOut :
  getAmountOut amountIn reserveIn reserveOut = Ok amountOut ->
  0 < amountIn ∧ 0 < reserveIn ∧ 0 < reserveOut ∧
  amountIn * 997 * reserveOut <= MAX_UINT256 ∧
  reserveIn * 1000 + amountIn * 997 <= MAX_UINT256 ∧
  amountOut = amountIn * 997 * reserveOut / (reserveIn * 1000 + amountIn * 997).
Proof.
  unfold getAmountOut, require, mul, add, div.
  destruct (N.ltb_spec 0 amountIn); cbn [rbind]; [|intros [=]].
  destruct (N.ltb_spec 0 reserveIn); cbn [andb rbind]; [|intros [=]].
  destruct (N.ltb_spec 0 reserveOut); cbn [rbind]; [|intros [=]].
  destruct (N.leb_spec (amountIn * 997) MAX_UINT256); cbn [rbind]; [|intros [=]].
  destruct (N.leb_spec (amountIn * 997 * reserveOut) MAX_UINT256); cbn [rbind];
    [|intros [=]].
  destruct (N.leb_spec (reserveIn * 1000) MAX_UINT256); cbn [rbind]; [|intros [=]].
  destruct (N.leb_spec (reserveIn * 1000 + amountIn * 997) MAX_UINT256); cbn [rbind];
    [|intros [=]].
  destruct (N.eqb_spec (reserveIn * 1000 + amountIn * 997) 0); intros [= <-].
  repeat split; assumption.
Qed.

(** The outcome of the quote, case by case. *)
Lemma getAmountOut_cases amountIn reserveIn reserveOut :
  getAmountOut amountIn reserveIn reserveOut =
  if amountIn =? 0 then Revert QuoteInsufficientInput
  else if (reserveIn =? 0) || (reserveOut =? 0) then Revert QuoteInsufficientLiquidity
  else if (amountIn * 997 * reserveOut <=? MAX_UINT256)
          && (reserveIn * 1000 + amountIn * 997 <=? MAX_UINT256)
       then Ok (amountIn * 997 * reserveOut / (reserveIn * 1000 + amountIn * 997))
       else Revert ArithmeticOverflow.
Proof.
  unfold getAmountOut, require.
  destruct (N.eqb_spec amountIn 0) as [->|Ha]; [reflexivity|].
  destruct (N.ltb_spec 0 amountIn); [|lia]. cbn [rbind].
  destruct (N.eqb_spec reserveIn 0) as [->|Hin]; [reflexivity|].
  destruct (N.ltb_spec 0 reserveIn); [|lia].
  destruct (N.eqb_spec reserveOut 0) as [->|Hout]; [reflexivity|].
  destruct (N.ltb_spec 0 reserveOut); [|lia]. cbn [andb orb rbind].
  destruct (N.leb_spec (amountIn * 997 * reserveOut) MAX_UINT256) as [Hnum|Hnum].
  - rewrite (mul_ok amountIn 997) by nia. cbn [rbind].
    rewrite mul_ok by assumption. cbn [rbind].
    destruct (N.leb_spec (reserveIn * 1000 + amountIn * 997) MAX_UINT256) as [Hden|Hden];
      cbn [andb].
    + rewrite mul_ok by lia. cbn [rbind]. rewrite add_ok by assumption. cbn [rbind].
      apply div_ok. lia.
    + destruct (N.le_gt_cases (reserveIn * 1000) MAX_UINT256).
      * rewrite mul_ok by assumption. cbn [rbind].
        rewrite add_overflow by assumption. reflexivity.
      * rewrite (mul_overflow reserveIn) by assumption. reflexivity.
  - cbn [andb]. destruct (N.le_gt_cases (amountIn * 997) MAX_UINT256).
    + rewrite (mul_ok amountIn 997) by assumption. cbn [rbind].
      rewrite mul_overflow by assumption. reflexivity.
    + rewrite (mul_overflow amountIn) by assumption. reflexivity.
Qed.

(** Fractions compare as their cross products do. *)
Lemma div_le_cross n d n' d' :
  0 < d -> 0 < d' -> n * d' <= n' * d -> n / d <= n' / d'.
Proof.
  intros Hd Hd' Hcross. apply N.div_le_lower_bound; [lia|].
  pose proof (N.Div0.mul_div_le n d).
  assert (d * (d' * (n / d)) <= d * n'); [nia|].
  apply N.mul_le_mono_pos_l in H0; assumption.
Qed.

(** The quote never reaches the output reserve and is never better than the
    spot price [reserveOut / reserveIn]. *)
Lemma getAmountOut_bounds amountIn reserveIn reserveOut amountOut :
  getAmountOut amountIn reserveIn reserveOut = Ok amountOut ->
  amountOut < reserveOut ∧
  amountOut * reserveIn * 1000 <= amountIn * reserveOut * 997 ∧
  amountOut * reserveIn <= amountIn * reserveOut.
Proof.
  intros Hq. destruct (getAmountOut_inv _ _ _ _ Hq) as (Ha & Hin & Hout & _ & _ & ->).
  set (q := amountIn * 997 * reserveOut / (reserveIn * 1000 + amountIn * 997)).
  assert (Hlo : (reserveIn * 1000 + amountIn * 997) * q <= amountIn * 997 * reserveOut)
    by apply N.Div0.mul_div_le.
  split; [|split].
  - apply N.Div0.div_lt_upper_bound. nia.
  - nia.
  - nia.
Qed.

(** A larger input is quoted at least as much, a larger output reserve too,
    and a larger input reserve at most as much. *)
Lemma getAmountOut_mono amountIn reserveIn reserveOut amountIn' reserveIn' reserveOut' q q' :
  amountIn <= amountIn' -> reserveIn' <= reserveIn -> reserveOut <= reserveOut' ->
  getAmountOut amountIn reserveIn reserveOut = Ok q ->
  getAmountOut amountIn' reserveIn' reserveOut' = Ok q' ->
  q <= q'.
Proof.
  intros Ha Hin Hout Hq Hq'.
  destruct (getAmountOut_inv _ _ _ _ Hq) as (? & ? & ? & _ & _ & ->).
  destruct (getAmountOut_inv _ _ _ _ Hq') as (? & ? & ? & _ & _ & ->).
  apply div_le_cross; try lia.
  assert (Hx : amountIn * reserveOut <= amountIn' * reserveOut')
    by (apply N.mul_le_mono; assumption).
  assert (Hy : amountIn * reserveOut * (reserveIn' * 1000)
               <= amountIn' * reserveOut' * (reserveIn * 1000)).
  { apply N.mul_le_mono; [assumption | lia]. }
  assert (Hz : amountIn * reserveOut * amountIn' <= amountIn' * reserveOut' * amountIn).
  { assert (reserveOut * (amountIn * amountIn') <= reserveOut' * (amountIn * amountIn'))
      by (apply N.mul_le_mono_r; assumption). lia. }
  nia.
Qed.

(** In a quoted path every hop but the last was fed a positive amount. *)
Lemma quoteHops_inputs_positive f rest : forall x a amounts,
  quoteHops f x a rest = Ok amounts ->
  forall i y, (S i < length amounts)%nat -> amounts !! i = Some y -> 0 < y.
Proof.
  induction rest as [|b rest IH]; intros x a amounts; cbn [quoteHops].
  - intros [= <-] i y Hi. cbn in Hi. lia.
  - destruct (quoteHop f a b x) as [z|e] eqn:Hhop; cbn [rbind]; [|intros [=]].
    destruct (quoteHops f z b rest) as [tail|e] eqn:Htail; cbn [rbind]; intros [= <-].
    intros [|i] y Hi; cbn.
    + intros [= <-]. unfold quoteHop in Hhop.
      destruct (getPair f a b =? 0); [discriminate|].
      destruct (Pair_getReserves f (getPair f a b)) as [[[r0 r1] t]|e]; [|discriminate].
      cbn [rbind] in Hhop.
      destruct (a <? b); apply getAmountOut_inv in Hhop; tauto.
    + apply (IH _ _ _ Htail). cbn in Hi. lia.
Qed.

End AmountFacts.

(** ** The quote against the fee test, exactly *)

Module ExactFacts.
Import Pair Router.

(** The fee test of a swap with one input, by its bounds. *)
Lemma fee_check_one_input balance0 balance1 amountIn r0 r1 :
  amountIn * 3 < balance0 * 1000 ->
  fee_check balance0 balance1 amountIn 0 r0 r1 =
  if (balance0 * 1000 <=? MAX_UINT256)
     && ((balance0 * 1000 - amountIn * 3) * (balance1 * 1000) <=? MAX_UINT256)
     && (r0 * r1 * 1000 ^ 2 <=? MAX_UINT256)
  then Ok (negb ((balance0 * 1000 - amountIn * 3) * (balance1 * 1000)
                 <? r0 * r1 * 1000 ^ 2))
  else Revert ArithmeticOverflow.
Proof.
  intros Hfee. unfold fee_check.
  destruct (N.leb_spec (balance0 * 1000) MAX_UINT256) as [H0|H0]; cbn [andb];
    [|rewrite mul_overflow by assumption; reflexivity].
  rewrite (mul_ok balance0) by assumption. cbn [rbind].
  rewrite (mul_ok amountIn) by lia. cbn [rbind].
  rewrite sub_ok by lia. cbn [rbind].
  set (adjusted := balance0 * 1000 - amountIn * 3).
  assert (Hadj : 0 < adjusted) by (subst adjusted; lia).
  destruct (N.leb_spec (adjusted * (balance1 * 1000)) MAX_UINT256) as [H1|H1]; cbn [andb].
  2:{ destruct (N.le_gt_cases (balance1 * 1000) MAX_UINT256).
      - rewrite (mul_ok balance1) by assumption. cbn [rbind].
        rewrite (mul_ok 0 3) by (cbn; lia). cbn [rbind N.mul].
        rewrite sub_ok by lia. cbn [rbind]. rewrite N.sub_0_r.
        rewrite mul_overflow by assumption. reflexivity.
      - rewrite (mul_overflow balance1) by assumption. reflexivity. }
  rewrite (mul_ok balance1) by nia. cbn [rbind].
  rewrite (mul_ok 0 3) by (cbn; lia). cbn [rbind N.mul].
  rewrite sub_ok by lia. cbn [rbind]. rewrite N.sub_0_r.
  rewrite mul_ok by assumption. cbn [rbind].
  destruct (N.leb_spec (r0 * r1 * 1000 ^ 2) MAX_UINT256) as [H2|H2].
  - rewrite (mul_ok r0) by nia. cbn [rbind]. rewrite mul_ok by assumption. reflexivity.
  - destruct (N.le_gt_cases (r0 * r1) MAX_UINT256).
    + rewrite (mul_ok r0) by assumption. cbn [rbind].
      rewrite mul_overflow by assumption. reflexivity.
    + rewrite (mul_overflow r0) by assumption. reflexivity.
Qed.

Lemma fits_fits_exactly amountIn reserveIn reserveOut :
  0 < reserveOut ->
  fits amountIn reserveIn reserveOut -> fits_exactly amountIn reserveIn reserveOut.
Proof.
  unfold fits, fits_exactly. intros Hout Hfits.
  set (q := amountIn * 997 * reserveOut / (reserveIn * 1000 + amountIn * 997)).
  set (D := 1000 * reserveIn + 997 * amountIn) in *.
  replace (reserveIn * 1000 + amountIn * 997) with D by (subst D; lia).
  assert (H1 : (amountIn * 997) * reserveOut <= D * (1000 * reserveOut))
    by (apply N.mul_le_mono; subst D; lia).
  assert (H2 : (reserveIn + amountIn) * 1000 <= D * (1000 * reserveOut))
    by (subst D; nia).
  assert (H3 : D * ((reserveOut - q) * 1000) <= D * (1000 * reserveOut))
    by (apply N.mul_le_mono; lia).
  assert (H4 : (1000 * reserveIn) * (1000 * reserveOut) <= D * (1000 * reserveOut))
    by (apply N.mul_le_mono; subst D; lia).
  repeat split; lia.
Qed.

(** Within the bounds the quote exists, passes the fee test of a swap that
    pays in exactly [amountIn], and one unit more does not pass. *)
Lemma fee_check_quote_exactly amountIn reserveIn reserveOut :
  0 < amountIn -> 0 < reserveIn -> 0 < reserveOut ->
  fits_exactly amountIn reserveIn reserveOut ->
  let q := amountIn * 997 * reserveOut / (reserveIn * 1000 + amountIn * 997) in
  getAmountOut amountIn reserveIn reserveOut = Ok q ∧
  fee_check (reserveIn + amountIn) (reserveOut - q) amountIn 0 reserveIn reserveOut
    = Ok true ∧
  fee_check (reserveIn + amountIn) (reserveOut - (q + 1)) amountIn 0 reserveIn reserveOut
    = Ok false.
Proof.
  intros Ha Hin Hout Hfits q. unfold fits_exactly in Hfits. fold q in Hfits.
  destruct Hfits as (Hnum & Hb0 & Hlhs & Hrhs).
  assert (Hq : q < reserveOut).
  { destruct (QuoteFacts.quote_lt_reserve amountIn reserveIn reserveOut Hin);
      [assumption | lia]. }
  set (D := reserveIn * 1000 + amountIn * 997) in *.
  assert (HD : 0 < D) by lia.
  assert (Hlo : q * D <= amountIn * 997 * reserveOut).
  { subst q. rewrite N.mul_comm. apply N.Div0.mul_div_le. }
  assert (Hhi : amountIn * 997 * reserveOut < (q + 1) * D).
  { subst q. pose proof (N.div_mod (amountIn * 997 * reserveOut) D ltac:(lia)) as E.
    pose proof (N.mod_lt (amountIn * 997 * reserveOut) D ltac:(lia)). nia. }
  assert (HDeq : (reserveIn + amountIn) * 1000 - amountIn * 3 = D) by lia.
  split.
  { rewrite AmountFacts.getAmountOut_cases.
    destruct (N.eqb_spec amountIn 0); [lia|].
    destruct (N.eqb_spec reserveIn 0); [lia|].
    destruct (N.eqb_spec reserveOut 0); [lia|]. cbn [orb].
    destruct (N.leb_spec (amountIn * 997 * reserveOut) MAX_UINT256); [|lia].
    destruct (N.leb_spec (reserveIn * 1000 + amountIn * 997) MAX_UINT256); [|lia].
    reflexivity. }
  clearbody q D.
  rewrite !fee_check_one_input by lia. rewrite HDeq.
  destruct (N.leb_spec ((reserveIn + amountIn) * 1000) MAX_UINT256); [|lia].
  destruct (N.leb_spec (reserveIn * reserveOut * 1000 ^ 2) MAX_UINT256); [|lia].
  destruct (N.leb_spec (D * ((reserveOut - q) * 1000)) MAX_UINT256); [|lia].
  destruct (N.leb_spec (D * ((reserveOut - (q + 1)) * 1000)) MAX_UINT256); [|nia].
  cbn [andb]. split; f_equal.
  - apply negb_true_iff, N.ltb_ge. nia.
  - apply negb_false_iff, N.ltb_lt. nia.
Qed.

(** Outside the bounds the quote or the fee test of the quoted output fails
    with the arithmetic panic. *)
Lemma fits_exactly_needed amountIn reserveIn reserveOut :
  0 < amountIn -> 0 < reserveIn -> 0 < reserveOut ->
  ¬ fits_exactly amountIn reserveIn reserveOut ->
  let q := amountIn * 997 * reserveOut / (reserveIn * 1000 + amountIn * 997) in
  getAmountOut amountIn reserveIn reserveOut = Revert ArithmeticOverflow ∨
  fee_check (reserveIn + amountIn) (reserveOut - q) amountIn 0 reserveIn reserveOut
    = Revert ArithmeticOverflow.
Proof.
  intros Ha Hin Hout Hnot q. unfold fits_exactly in Hnot. fold q in Hnot.
  rewrite AmountFacts.getAmountOut_cases.
  destruct (N.eqb_spec amountIn 0); [lia|].
  destruct (N.eqb_spec reserveIn 0); [lia|].
  destruct (N.eqb_spec reserveOut 0); [lia|]. cbn [orb].
  destruct (N.leb_spec (amountIn * 997 * reserveOut) MAX_UINT256) as [Hnum|];
    [|left; reflexivity].
  destruct (N.leb_spec (reserveIn * 1000 + amountIn * 997) MAX_UINT256) as [Hden|];
    [|left; reflexivity].
  right. rewrite fee_check_one_input by lia.
  replace ((reserveIn + amountIn) * 1000 - amountIn * 3)
    with (reserveIn * 1000 + amountIn * 997) by lia.
  destruct (N.leb_spec ((reserveIn + amountIn) * 1000) MAX_UINT256); [|reflexivity].
  destruct (N.leb_spec ((reserveIn * 1000 + amountIn * 997) * ((reserveOut - q) * 1000))
              MAX_UINT256); [|reflexivity].
  destruct (N.leb_spec (reserveIn * reserveOut * 1000 ^ 2) MAX_UINT256); [|reflexivity].
  tauto.
Qed.

End ExactFacts.

(** ** The factory while its Pairs are in use *)

Module MarketFacts.
Import Factory.

Lemma reachable_incl self s : Factory.reachable self s -> Market.reachable self s.
Proof.
  induction 1 as [|s t Hreach IH Hvalid].
  - apply Market.reach_constructor.
  - apply Market.reach_createPair; assumption.
Qed.

(** Writing back the storage of a Pair that kept its immutables leaves the
    registry well formed. *)
Lemma wf_set_deployed s pair p p' :
  wf s -> deployed s !! pair = Some p -> Storage.identity p' = Storage.identity p ->
  wf (Routing.set_deployed pair p' s).
Proof.
  intros [Hreg Hdpl Hlst Hnd] Hp Hid. unfold Storage.identity in Hid.
  injection Hid as Hthis Ht0 Ht1 Hfac.
  assert (Hget : forall a b,
            getPair_at (Routing.set_deployed pair p' s) a b = getPair_at s a b)
    by reflexivity.
  split.
  - intros a b. rewrite !Hget. intros Hnz.
    destruct (Hreg a b Hnz) as (Hab & Hsym & p0 & Hp0 & Hp00 & Hp01).
    split; [assumption|]. split; [assumption|].
    cbn [Routing.set_deployed deployed].
    destruct (decide (getPair_at s a b = pair)) as [E|E].
    + rewrite E, lookup_insert_eq. eexists. split; [reflexivity|].
      rewrite E, Hp in Hp0. injection Hp0 as <-. rewrite Ht0, Ht1. tauto.
    + rewrite lookup_insert_ne by congruence. exists p0. tauto.
  - intros q p0. cbn [Routing.set_deployed deployed allPairs]. rewrite Hget.
    destruct (decide (q = pair)) as [->|Hq].
    + rewrite lookup_insert_eq. intros [= <-]. rewrite Ht0, Ht1. exact (Hdpl pair p Hp).
    + rewrite lookup_insert_ne by congruence. apply Hdpl.
  - intros q Hin. cbn [Routing.set_deployed deployed allPairs] in *.
    destruct (decide (q = pair)) as [->|Hq].
    + rewrite lookup_insert_eq. eauto.
    + rewrite lookup_insert_ne by congruence. apply Hlst, Hin.
  - exact Hnd.
Qed.

Lemma wf_market self s : Market.reachable self s -> wf s.
Proof.
  induction 1 as [|s t Hreach IH [Hc0 Hfresh]|s pair p c tk lg ts w' Hreach IH Hp Hrun].
  - apply FactoryFacts.wf_constructor.
  - unfold step. destruct (createPair _ _ _ _) as [[pair s']|e] eqn:E; [|assumption].
    exact (FactoryFacts.wf_createPair _ _ _ _ _ _ IH Hc0 Hfresh E).
  - apply (wf_set_deployed s pair p _ IH Hp).
    exact (StorageFacts.identity_exec c _ (Pair.mkWorld p tk lg ts) tt w' eq_refl Hrun).
Qed.

(** The factory keeps its address, and every contract it deployed keeps its
    own and the factory's. *)
Lemma market_identity self s :
  Market.reachable self s ->
  this s = self ∧
  forall pair p, deployed s !! pair = Some p -> Pair.this p = pair ∧ Pair.factory p = self.
Proof.
  induction 1 as [|s t Hreach [IHthis IHdep] [Hc0 Hfresh]
                  |s pair p c tk lg ts w' Hreach [IHthis IHdep] Hp Hrun].
  - split; [reflexivity|]. intros pair p H. cbn in H. rewrite lookup_empty in H.
    discriminate.
  - unfold step. destruct (createPair _ _ _ _) as [[pair s']|e] eqn:E; [|tauto].
    destruct (FactoryFacts.createPair_ok_inv _ _ _ _ _ _ E) as (Hne & Hz & Hfree).
    destruct (FactoryFacts.createPair_ok (tx_created t) (tx_tokenA t) (tx_tokenB t) s
                Hne Hz Hfree) as (s1 & Hok & Hthis & _ & _ & Hdep).
    rewrite E in Hok. injection Hok as -> ->.
    split; [congruence|]. intros q p. rewrite Hdep.
    destruct (decide (q = tx_created t)) as [->|Hq].
    + rewrite lookup_insert_eq. intros [= <-]. cbn. split; congruence.
    + rewrite lookup_insert_ne by congruence. apply IHdep.
  - split; [exact IHthis|]. intros q p0. cbn [Routing.set_deployed deployed].
    pose proof (StorageFacts.identity_exec c _ (Pair.mkWorld p tk lg ts) tt w' eq_refl Hrun)
      as Hid.
    cbn [Pair.st] in Hid. unfold Storage.identity in Hid.
    injection Hid as Hthis Ht0 Ht1 Hfac.
    destruct (decide (q = pair)) as [->|Hq].
    + rewrite lookup_insert_eq. intros [= <-]. rewrite Hthis, Hfac. exact (IHdep pair p Hp).
    + rewrite lookup_insert_ne by congruence. apply IHdep.
Qed.

(** One transaction of [Trace], reverted or not, applied to a deployed
    Pair. *)
Lemma reach_step self s pair p t :
  Market.reachable self s -> deployed s !! pair = Some p ->
  Market.reachable self (Routing.set_deployed pair (Trace.step p t) s).
Proof.
  intros Hreach Hp. unfold Trace.step.
  destruct (Trace.exec _ _) as [[[] w']|e] eqn:Hrun.
  - exact (Market.reach_call self s pair p _ _ _ _ w' Hreach Hp Hrun).
  - replace (Routing.set_deployed pair p s) with s; [exact Hreach|].
    destruct s as [self' gp ap dp lg]. unfold Routing.set_deployed. cbn in *.
    rewrite insert_id by assumption. reflexivity.
Qed.

(** A call of the Router into a Pair stays within the reachable states. *)
Lemma reach_Pair_call_swap self pair router amount0Out amount1Out to c c' :
  Market.reachable self (Routing.registry c) ->
  Routing.Pair_call pair (Pair.swap router amount0Out amount1Out to) c = Ok (tt, c') ->
  Market.reachable self (Routing.registry c').
Proof.
  intros Hreach. unfold Routing.Pair_call.
  destruct (deployed (Routing.registry c) !! pair) as [p|] eqn:Hp; [|intros [=]].
  destruct (Pair.swap _ _ _ _ _) as [[[] w']|e] eqn:Hswap; intros [= <-].
  cbn [Routing.registry].
  exact (Market.reach_call self _ pair p
           (Trace.CallSwap router amount0Out amount1Out to) _ _ _ w' Hreach Hp Hswap).
Qed.

End MarketFacts.

(** * The exchange core against its specification *)

Module Core.
Import Pair Trace Examples.

(** ** Swaps and the constant product *)

(** C1, at the input where the code departs from it: on the ledger [funded]
    (reserves 1000 and 1000), a swap that finds 2^112 units of token0 in
    custody and asks for 999 of token1 passes the fee test and succeeds, and
    [_update] stores [uint112(2^112) = 0]: the product of the reserves falls
    from 1000000 to 0. *)
Theorem swap_product_falls_when_balance_exceeds_uint112 :
  ∃ w', swap 9 0 999 8 (world funded (2 ^ 112) 1000) = Ok (tt, w') ∧
        reserve0 funded * reserve1 funded = 1000000 ∧
        reserve0 (st w') * reserve1 (st w') = 0 ∧
        IERC20_balanceOf (ledger_of w' 1) 100 * IERC20_balanceOf (ledger_of w' 2) 100
          = 2 ^ 112.
Proof.
  eexists. split; [vm_compute; reflexivity|]. vm_compute. repeat split.
Qed.

(** C2, as the code has it.  For positive [amountIn] and reserves let [q] be
    the floor of the formula; it is below the output reserve.  Exactly when
    the numbers the quote and the fee test of [q] compute fit in 256 bits
    ([Router.fits_exactly], which holds whenever [Router.fits] does), the
    Router quotes [q], the fee test of a swap that pays in exactly
    [amountIn] accepts [q] and rejects [q + 1]; otherwise the quote or the
    fee test of [q] fails with the arithmetic panic.  Within these bounds
    and in either direction (token0 in or token1 in), on a Pair of two
    distinct tokens with these reserves whose custody is the reserves plus
    [amountIn] of the input token, and for a recipient other than the Pair,
    the swap of the quoted output succeeds when the quote is positive, is
    refused with [InsufficientOutput] when the quote is zero, and the swap
    of one unit more is refused. *)
Theorem quote_is_largest_accepted_output amountIn reserveIn reserveOut :
  0 < amountIn -> 0 < reserveIn -> 0 < reserveOut ->
  let q := amountIn * 997 * reserveOut / (reserveIn * 1000 + amountIn * 997) in
  q < reserveOut ∧
  (Router.fits amountIn reserveIn reserveOut ->
   Router.fits_exactly amountIn reserveIn reserveOut) ∧
  (¬ Router.fits_exactly amountIn reserveIn reserveOut ->
   Router.getAmountOut amountIn reserveIn reserveOut = Revert ArithmeticOverflow ∨
   fee_check (reserveIn + amountIn) (reserveOut - q) amountIn 0 reserveIn reserveOut
     = Revert ArithmeticOverflow) ∧
  (Router.fits_exactly amountIn reserveIn reserveOut ->
   Router.getAmountOut amountIn reserveIn reserveOut = Ok q ∧
   fee_check (reserveIn + amountIn) (reserveOut - q) amountIn 0 reserveIn reserveOut
     = Ok true ∧
   fee_check (reserveIn + amountIn) (reserveOut - (q + 1)) amountIn 0
             reserveIn reserveOut = Ok false ∧
   (forall w sender to,
     reserve0 (st w) = reserveIn -> reserve1 (st w) = reserveOut ->
     token0 (st w) ≠ token1 (st w) -> to ≠ this (st w) ->
     IERC20_balanceOf (ledger_of w (token0 (st w))) (this (st w))
       = reserveIn + amountIn ->
     IERC20_balanceOf (ledger_of w (token1 (st w))) (this (st w)) = reserveOut ->
     (0 < q ->
      ∃ w', swap sender 0 q to w = Ok (tt, w') ∧
            reserve0 (st w') = uint112 (reserveIn + amountIn) ∧
            reserve1 (st w') = uint112 (reserveOut - q) ∧
            IERC20_balanceOf (ledger_of w' (token1 (st w))) to =
              IERC20_balanceOf (ledger_of w (token1 (st w))) to + q) ∧
     (q = 0 -> swap sender 0 q to w = Revert InsufficientOutput) ∧
     swap sender 0 (q + 1) to w =
       Revert (if q + 1 =? reserveOut then InsufficientLiquidity
               else InsufficientInput)) ∧
   (forall w sender to,
     reserve1 (st w) = reserveIn -> reserve0 (st w) = reserveOut ->
     token0 (st w) ≠ token1 (st w) -> to ≠ this (st w) ->
     IERC20_balanceOf (ledger_of w (token1 (st w))) (this (st w))
       = reserveIn + amountIn ->
     IERC20_balanceOf (ledger_of w (token0 (st w))) (this (st w)) = reserveOut ->
     (0 < q ->
      ∃ w', swap sender q 0 to w = Ok (tt, w') ∧
            reserve1 (st w') = uint112 (reserveIn + amountIn) ∧
            reserve0 (st w') = uint112 (reserveOut - q) ∧
            IERC20_balanceOf (ledger_of w' (token0 (st w))) to =
              IERC20_balanceOf (ledger_of w (token0 (st w))) to + q) ∧
     (q = 0 -> swap sender q 0 to w = Revert InsufficientOutput) ∧
     swap sender (q + 1) 0 to w =
       Revert (if q + 1 =? reserveOut then InsufficientLiquidity
               else InsufficientInput))).
Proof.
  intros Ha Hin Hout q.
  assert (Hq : q < reserveOut).
  { destruct (QuoteFacts.quote_lt_reserve amountIn reserveIn reserveOut Hin);
      [assumption | lia]. }
  split; [exact Hq|].
  split; [exact (ExactFacts.fits_fits_exactly amountIn reserveIn reserveOut Hout)|].
  split; [exact (ExactFacts.fits_exactly_needed amountIn reserveIn reserveOut Ha Hin Hout)|].
  intros Hfits.
  destruct (ExactFacts.fee_check_quote_exactly amountIn reserveIn reserveOut
              Ha Hin Hout Hfits) as (Hquote & Hpass & Hfail).
  fold q in Hquote, Hpass, Hfail.
  split; [exact Hquote|]. split; [exact Hpass|]. split; [exact Hfail|].
  split; intros w sender to Hr0 Hr1 Htok Hto Hc0 Hc1; (split; [|split]).
  - intros Hpos.
    pose proof (QuoteFacts.swap_token1_out w sender q to amountIn Htok Hto) as Hswap.
    rewrite Hr0, Hr1, Hpass in Hswap. apply Hswap; assumption.
  - intros ->. destruct w as [s tk lg ts]. reflexivity.
  - destruct (N.eqb_spec (q + 1) reserveOut) as [Heq|Hne].
    + rewrite (PairFacts.swap_guard w sender 0 (q + 1) to) by (right; lia).
      destruct (N.eqb_spec (q + 1) 0); [lia|]. reflexivity.
    + pose proof (QuoteFacts.swap_token1_out w sender (q + 1) to amountIn Htok Hto)
        as Hswap.
      rewrite Hr0, Hr1, Hfail in Hswap. apply Hswap; lia.
  - intros Hpos.
    pose proof (QuoteFacts.swap_token0_out w sender q to amountIn Htok Hto) as Hswap.
    rewrite Hr0, Hr1, QuoteFacts.fee_check_sym, Hpass in Hswap.
    destruct Hswap as (w' & Hw' & Hres0 & Hres1 & Hrecv); try assumption.
    exists w'. tauto.
  - intros ->. destruct w as [s tk lg ts]. reflexivity.
  - destruct (N.eqb_spec (q + 1) reserveOut) as [Heq|Hne].
    + rewrite (PairFacts.swap_guard w sender (q + 1) 0 to) by (left; lia).
      destruct (N.eqb_spec (q + 1) 0); [lia|]. reflexivity.
    + pose proof (QuoteFacts.swap_token0_out w sender (q + 1) to amountIn Htok Hto)
        as Hswap.
      rewrite Hr0, Hr1, QuoteFacts.fee_check_sym, Hfail in Hswap. apply Hswap; lia.
Qed.

(** For an input of 100 against the reserves 1000 and 1000 of [funded] the
    quote is 90: the swap of 90 succeeds and the swap of 91 is refused.  An
    input of 2^140 against reserves 2^100 and 2^100 is within the bounds
    too: the quote passes the fee test and one unit more does not. *)
Lemma quote_is_largest_accepted_output_witness :
  (Router.getAmountOut 100 1000 1000 = Ok 90 ∧
   fee_check 1100 (1000 - 90) 100 0 1000 1000 = Ok true ∧
   fee_check 1100 (1000 - 91) 100 0 1000 1000 = Ok false ∧
   (∃ w', swap 9 0 90 8 (world funded 1100 1000) = Ok (tt, w')) ∧
   swap 9 0 91 8 (world funded 1100 1000) = Revert InsufficientInput) ∧
  (∃ q, Router.getAmountOut (2 ^ 140) (2 ^ 100) (2 ^ 100) = Ok q ∧
        fee_check (2 ^ 100 + 2 ^ 140) (2 ^ 100 - q) (2 ^ 140) 0 (2 ^ 100) (2 ^ 100)
          = Ok true ∧
        fee_check (2 ^ 100 + 2 ^ 140) (2 ^ 100 - (q + 1)) (2 ^ 140) 0 (2 ^ 100) (2 ^ 100)
          = Ok false).
Proof.
  split.
  - destruct (quote_is_largest_accepted_output 100 1000 1000)
      as (_ & _ & _ & Hin).
    + reflexivity.
    + reflexivity.
    + reflexivity.
    + destruct Hin as (Hq & Hpass & Hfail & Hswap & _).
      { vm_compute. repeat split; discriminate. }
      assert (Hval : 100 * 997 * 1000 / (1000 * 1000 + 100 * 997) = 90) by reflexivity.
      rewrite Hval in *.
      split; [exact Hq|]. split; [exact Hpass|]. split; [exact Hfail|].
      destruct (Hswap (world funded 1100 1000) 9 8) as (Hok & _ & Hmore).
      * reflexivity.
      * reflexivity.
      * vm_compute. discriminate.
      * vm_compute. discriminate.
      * reflexivity.
      * reflexivity.
      * split.
        -- destruct Hok as (w' & Hw' & _); [reflexivity | exists w'; exact Hw'].
        -- exact Hmore.
  - destruct (quote_is_largest_accepted_output (2 ^ 140) (2 ^ 100) (2 ^ 100))
      as (_ & _ & _ & Hin).
    + reflexivity.
    + reflexivity.
    + reflexivity.
    + destruct Hin as (Hq & Hpass & Hfail & _).
      { vm_compute. repeat split; discriminate. }
      eexists. split; [exact Hq|]. split; [exact Hpass | exact Hfail].
Defined.

(** C2 as stated fails three times.  An input of 1 against reserves 1000
    and 1000 is quoted 0, and the swap of that output is refused before any
    fee test; an input of 2^245 against reserves 1 and 2 is quoted 1, and
    the fee test of that swap overflows; and when the recipient is the Pair
    itself nothing leaves its custody, so that for an input of 100 against
    1000 and 1000 the swap of 91, one more than the quote of 90, passes. *)
Lemma quote_is_not_always_the_largest_accepted_output :
  (Router.getAmountOut 1 1000 1000 = Ok 0 ∧
   swap 9 0 0 8 (world funded 1001 1000) = Revert InsufficientOutput) ∧
  (Router.getAmountOut (2 ^ 245) 1 2 = Ok 1 ∧
   swap 9 0 1 8 (world small (1 + 2 ^ 245) 2) = Revert ArithmeticOverflow ∧
   fee_check (1 + 2 ^ 245) (2 - 1) (2 ^ 245) 0 1 2 = Revert ArithmeticOverflow) ∧
  (Router.getAmountOut 100 1000 1000 = Ok 90 ∧
   this funded = 100 ∧
   ∃ w', swap 9 0 91 100 (world funded 1100 1000) = Ok (tt, w')).
Proof.
  split; [vm_compute; repeat split|]. split; [vm_compute; repeat split|].
  split; [reflexivity|]. split; [reflexivity|].
  eexists. vm_compute. reflexivity.
Qed.

(** ** Liquidity *)

(** C3, as the code has it: on a ledger without shares a deposit of
    [amount0] and [amount1] mints the floor of the square root of their
    product, all of it to the recipient; for the deposit of 4 and 9 that is
    6 shares. *)
Theorem first_deposit_mints_sqrt w sender to amount0 amount1 :
  conserved (st w) -> totalSupply (st w) = 0 ->
  IERC20_balanceOf (ledger_of w (token0 (st w))) (this (st w)) = reserve0 (st w) + amount0 ->
  IERC20_balanceOf (ledger_of w (token1 (st w))) (this (st w)) = reserve1 (st w) + amount1 ->
  0 < amount0 -> 0 < amount1 -> amount0 * amount1 <= MAX_UINT256 ->
  ∃ w' sharesIssued,
    mint sender to w = Ok (sharesIssued, w') ∧
    sharesIssued * sharesIssued <= amount0 * amount1
      < (sharesIssued + 1) * (sharesIssued + 1) ∧
    (amount0 = 4 -> amount1 = 9 -> sharesIssued = 6) ∧
    totalSupply (st w') = sharesIssued ∧
    balanceOf_at (st w') to = sharesIssued.
Proof.
  intros Hcons Hsupply Hb0 Hb1 H0 H1 Hmax.
  destruct (PairFacts.mint_first_deposit w sender to amount0 amount1
              Hcons Hsupply Hb0 Hb1 H0 H1 Hmax) as (w' & Hmint & Hts & Hbal).
  exists w', (N.sqrt (amount0 * amount1)).
  split; [assumption|]. split; [apply SqrtFacts.N_sqrt_floor|].
  split; [intros -> ->; reflexivity|]. split; assumption.
Qed.

(** The hypotheses of [first_deposit_mints_sqrt] hold on the fresh ledger
    with 4 and 9 in custody. *)
Lemma first_deposit_mints_sqrt_witness :
  ∃ w', mint 7 7 (world fresh 4 9) = Ok (6, w') ∧ balanceOf_at (st w') 7 = 6.
Proof.
  destruct (first_deposit_mints_sqrt (world fresh 4 9) 7 7 4 9)
    as (w' & l & Hmint & _ & Hl & _ & Hbal).
  - reflexivity.
  - reflexivity.
  - reflexivity.
  - reflexivity.
  - reflexivity.
  - reflexivity.
  - vm_compute. discriminate.
  - rewrite (Hl eq_refl eq_refl) in *. exists w'. split; [exact Hmint | exact Hbal].
Defined.

(** C3 as stated fails: the deposit of 4 and 9 into the fresh ledger mints
    6 shares, not 2. *)
Lemma first_deposit_4_9_is_not_2 :
  (∃ w', mint 7 7 (world fresh 4 9) = Ok (6, w')) ∧
  (forall w', mint 7 7 (world fresh 4 9) ≠ Ok (2, w')).
Proof.
  split.
  - eexists. vm_compute. reflexivity.
  - intros w'. vm_compute. discriminate.
Qed.

(** C4, as the code has it: a swap that asks for the whole of reserve0 and
    nothing of token1 always fails, with [InsufficientLiquidity] when
    reserve0 is positive and with [InsufficientOutput] when it is zero (the
    zero-output guard comes first); and every request that reaches or
    exceeds a reserve is refused in the same way. *)
Theorem swap_drain_rejected w sender to :
  swap sender (reserve0 (st w)) 0 to w =
    Revert (if reserve0 (st w) =? 0 then InsufficientOutput else InsufficientLiquidity) ∧
  forall amountOut0 amountOut1,
    reserve0 (st w) <= amountOut0 ∨ reserve1 (st w) <= amountOut1 ->
    swap sender amountOut0 amountOut1 to w =
      Revert (if (amountOut0 =? 0) && (amountOut1 =? 0)
              then InsufficientOutput else InsufficientLiquidity).
Proof.
  split.
  - rewrite PairFacts.swap_guard by (left; lia).
    rewrite N.eqb_refl, andb_true_r. reflexivity.
  - intros amountOut0 amountOut1. apply PairFacts.swap_guard.
Qed.

(** On [funded] the request of the whole reserve of token1 is refused. *)
Lemma swap_drain_rejected_witness :
  swap 9 1000 0 8 (world funded 1000 1000) = Revert InsufficientLiquidity ∧
  swap 9 0 1000 8 (world funded 1000 1000) = Revert InsufficientLiquidity.
Proof.
  destruct (swap_drain_rejected (world funded 1000 1000) 9 8) as [Hdrain Hany].
  split.
  - exact Hdrain.
  - apply (Hany 0 1000). right. vm_compute. discriminate.
Defined.

(** C4 as stated fails on the fresh ledger: reserve0 is 0, the call is
    [swap(0, 0, to)] and the failure is [InsufficientOutput]. *)
Lemma swap_drain_fresh_is_InsufficientOutput :
  swap 9 (reserve0 fresh) 0 8 (world fresh 0 0) = Revert InsufficientOutput ∧
  swap 9 (reserve0 fresh) 0 8 (world fresh 0 0) ≠ Revert InsufficientLiquidity.
Proof. split; [reflexivity | discriminate]. Qed.

(** C5, at the input where the code departs from it: the first deposit of
    2^112 units of token0 and 1 of token1 succeeds and mints 2^56 shares,
    and the resync stores [uint112(2^112) = 0] as reserve0 while the ledger
    holds 2^112 units; no failure is reported. *)
Theorem resync_truncates_balance_to_112_bits :
  ∃ w', mint 7 7 (world fresh (2 ^ 112) 1) = Ok (2 ^ 56, w') ∧
        reserve0 (st w') = 0 ∧
        IERC20_balanceOf (ledger_of w' (token0 (st w'))) (this (st w')) = 2 ^ 112 ∧
        reserve1 (st w') = 1.
Proof.
  eexists. split; [vm_compute; reflexivity|]. vm_compute. repeat split.
Qed.

(** C6: from the fresh ledger of any Pair, after every sequence of calls
    (approve, transfer, transferFrom, mint, burn, swap, whatever the tokens
    did in between), the share balances add up to [totalSupply]. *)
Theorem share_conservation self sender _token0 _token1 txs :
  sum_balanceOf (run (constructor self sender _token0 _token1) txs)
  = totalSupply (run (constructor self sender _token0 _token1) txs).
Proof.
  apply Conservation.conserved_run, Conservation.conserved_constructor.
Qed.

(** C7: for every 256-bit [y] the square root returns, without overflow; the
    result is the floor of the square root of [y], it is 0 for 0 and 1 for
    1, 2 and 3, and above 3 it is what the loop [x <- (y / x + x) / 2]
    started at [z = y], [x = y / 2 + 1] ends with. *)
Theorem sqrt_is_floor_sqrt y :
  y <= MAX_UINT256 ->
  ∃ z, sqrt y = Ok z ∧
       z * z <= y < (z + 1) * (z + 1) ∧
       (y = 0 -> z = 0) ∧
       (0 < y <= 3 -> z = 1) ∧
       (3 < y -> sqrt_loop y y (y / 2 + 1) = Ok z) ∧
       (forall z' x, sqrt_loop y z' x =
                     if decide (x < z') then
                       let? q := div y x in
                       let? s := add q x in
                       sqrt_loop y x (s / 2)
                     else Ok z').
Proof.
  intros Hmax. pose proof (SqrtFacts.sqrt_value y Hmax) as Hsqrt.
  pose proof (SqrtFacts.N_sqrt_floor y) as Hspec.
  exists (N.sqrt y). split; [assumption|]. split; [assumption|].
  split; [intros ->; reflexivity|]. split; [nia|]. split.
  - intros H3. unfold sqrt in Hsqrt. destruct (N.ltb_spec 3 y); [|lia].
    rewrite add_ok in Hsqrt; [exact Hsqrt|].
    pose proof (N.Div0.mul_div_le y 2). lia.
  - intros z' x. apply SqrtFacts.sqrt_loop_unfold.
Qed.

(** The largest 256-bit value has the root 2^128 - 1. *)
Lemma sqrt_is_floor_sqrt_witness :
  ∃ z, sqrt MAX_UINT256 = Ok z ∧ z * z <= MAX_UINT256 < (z + 1) * (z + 1).
Proof.
  destruct (sqrt_is_floor_sqrt MAX_UINT256) as (z & Hz & Hfloor & _).
  - vm_compute. discriminate.
  - exists z. split; [exact Hz | exact Hfloor].
Defined.




(** ** The registry *)

(** C8, as the code has it: on every state a factory and its Pairs reach by
    [createPair] calls and calls to the Pairs, and for every new contract
    address, [createPair] fails with [IdenticalTokens] exactly when the
    tokens are equal, with [ZeroToken] exactly when they differ and the
    smaller is zero, with [PairExists] exactly when a ledger for the
    unordered pair exists; otherwise it succeeds, returns the new ledger,
    appends it to [allPairs] and registers it under both orders.  The lookup
    is symmetric, and no unordered pair has two ledgers. *)
Theorem createPair_spec self s created tokenA tokenB :
  Market.reachable self s ->
  created ≠ 0 -> Factory.deployed s !! created = None ->
  (Factory.createPair created tokenA tokenB s = Revert IdenticalTokens
   <-> tokenA = tokenB) ∧
  (Factory.createPair created tokenA tokenB s = Revert ZeroToken
   <-> tokenA ≠ tokenB ∧ N.min tokenA tokenB = 0) ∧
  (Factory.createPair created tokenA tokenB s = Revert PairExists
   <-> ∃ pair, Factory.ledger_for s tokenA tokenB pair) ∧
  (tokenA ≠ tokenB -> N.min tokenA tokenB ≠ 0 ->
   (forall pair, ¬ Factory.ledger_for s tokenA tokenB pair) ->
   ∃ s', Factory.createPair created tokenA tokenB s = Ok (created, s') ∧
         Factory.getPair_at s' tokenA tokenB = created ∧
         Factory.getPair_at s' tokenB tokenA = created ∧
         Factory.allPairs s' = Factory.allPairs s ++ [created] ∧
         Factory.ledger_for s' tokenA tokenB created ∧
         Market.reachable self s') ∧
  (forall a b, Factory.getPair_at s a b = Factory.getPair_at s b a) ∧
  (forall a b pair1 pair2,
     Factory.ledger_for s a b pair1 -> Factory.ledger_for s a b pair2 -> pair1 = pair2).
Proof.
  intros Hreach Hc0 Hfresh.
  pose proof (MarketFacts.wf_market self s Hreach) as Hwf.
  assert (Hled : (∃ pair, Factory.ledger_for s tokenA tokenB pair) <->
                 tokenA ≠ tokenB ∧ N.min tokenA tokenB ≠ 0 ∧
                 Factory.getPair_at s (N.min tokenA tokenB) (N.max tokenA tokenB) ≠ 0).
  { rewrite <- (FactoryFacts.ledger_for_registered s tokenA tokenB Hwf). split.
    - intros Hnz.
      destruct (Factory.wf_registered s Hwf _ _ Hnz) as (Hne & Hsym & p & Hp & Hp0 & Hp1).
      destruct (Factory.wf_deployed s Hwf _ _ Hp) as (_ & _ & Ht0 & _ & Hgp).
      split; [assumption|]. split; [congruence|]. rewrite <- Hp0, <- Hp1. congruence.
    - intros (Hne & _ & Hnz).
      destruct (N.le_gt_cases tokenA tokenB).
      + rewrite N.min_l, N.max_r in Hnz by lia. assumption.
      + rewrite N.min_r, N.max_l in Hnz by lia.
        rewrite FactoryFacts.getPair_symmetric by assumption. assumption. }
  split; [apply FactoryFacts.createPair_identical|].
  split; [apply FactoryFacts.createPair_zero|].
  split; [rewrite Hled; apply FactoryFacts.createPair_exists|].
  split; [|split].
  - intros Hne Hz Hnone.
    assert (Hfree : Factory.getPair_at s (N.min tokenA tokenB) (N.max tokenA tokenB) = 0).
    { destruct (N.eq_dec (Factory.getPair_at s (N.min tokenA tokenB)
                                             (N.max tokenA tokenB)) 0) as [E|E];
        [assumption|].
      destruct (proj2 Hled (conj Hne (conj Hz E))) as [pair Hpair].
      destruct (Hnone pair Hpair). }
    destruct (FactoryFacts.createPair_ok created tokenA tokenB s Hne Hz Hfree)
      as (s' & Hok & Hthis & Hgp & Hall & Hdep).
    exists s'. split; [assumption|].
    assert (Hreach' : Market.reachable self s').
    { replace s' with (Factory.step s (Factory.mkTx created tokenA tokenB)).
      - apply Market.reach_createPair; [assumption | split; assumption].
      - unfold Factory.step. cbn. rewrite Hok. reflexivity. }
    pose proof (MarketFacts.wf_market self s' Hreach') as Hwf'.
    assert (Hmin : Factory.getPair_at s' (N.min tokenA tokenB) (N.max tokenA tokenB)
                   = created).
    { unfold Factory.getPair_at. rewrite Hgp.
      rewrite lookup_insert_ne by (intros [=]; lia).
      rewrite lookup_insert_eq. reflexivity. }
    assert (HAB : Factory.getPair_at s' tokenA tokenB = created).
    { destruct (N.le_gt_cases tokenA tokenB).
      - rewrite N.min_l, N.max_r in Hmin by lia. assumption.
      - rewrite N.min_r, N.max_l in Hmin by lia.
        rewrite FactoryFacts.getPair_symmetric by assumption. assumption. }
    split; [assumption|].
    split; [rewrite FactoryFacts.getPair_symmetric by assumption; assumption|].
    split; [assumption|]. split; [|assumption].
    split.
    + rewrite Hall. apply elem_of_app. right. apply list_elem_of_singleton. reflexivity.
    + rewrite Hdep, lookup_insert_eq. eexists. split; [reflexivity|]. cbn. lia.
  - intros a b. apply FactoryFacts.getPair_symmetric. assumption.
  - intros a b pair1 pair2. apply FactoryFacts.ledger_for_unique. assumption.
Qed.

(** On [Scenario.registry_minted], where the Pair at 100 serves the tokens 1 and 2
    and has issued 2000 shares for a first deposit: a second ledger for the
    two tokens is refused in either order, and a ledger for the tokens 2 and
    3 is created at the address 101. *)
Lemma createPair_spec_witness :
  (∃ p, Factory.deployed Scenario.registry_minted !! 100 = Some p ∧
        totalSupply p = 2000 ∧ reserve0 p = 1000 ∧ reserve1 p = 4000) ∧
  Factory.createPair 101 1 2 Scenario.registry_minted = Revert PairExists ∧
  Factory.createPair 101 2 1 Scenario.registry_minted = Revert PairExists ∧
  ∃ s', Factory.createPair 101 3 2 Scenario.registry_minted = Ok (101, s') ∧
        Factory.getPair_at s' 2 3 = 101 ∧ Factory.getPair_at s' 3 2 = 101.
Proof.
  assert (Hreach : Market.reachable 50 Scenario.registry_minted).
  { unfold Scenario.registry_minted. apply MarketFacts.reach_step; [|reflexivity].
    apply Market.reach_createPair; [apply Market.reach_constructor|].
    split; [discriminate | reflexivity]. }
  assert (Hled : Factory.ledger_for Scenario.registry_minted 1 2 100).
  { split; [vm_compute; apply list_elem_of_here|].
    eexists. split; [vm_compute; reflexivity|]. left. split; reflexivity. }
  split; [|split; [|split]].
  - eexists. split; [vm_compute; reflexivity|]. repeat split.
  - apply (createPair_spec 50 Scenario.registry_minted 101 1 2 Hreach);
      [discriminate | reflexivity|].
    exists 100. exact Hled.
  - apply (createPair_spec 50 Scenario.registry_minted 101 2 1 Hreach);
      [discriminate | reflexivity|].
    exists 100. destruct Hled as [Hin (p & Hp & Htok)].
    split; [exact Hin|]. exists p. split; [exact Hp|]. tauto.
  - destruct (createPair_spec 50 Scenario.registry_minted 101 3 2 Hreach) as (_ & _ & _ & Hok & _).
    + discriminate.
    + reflexivity.
    + destruct Hok as (s' & Hs' & H32 & H23 & _).
      * discriminate.
      * discriminate.
      * intros pair (Hin & p & Hp & Htok).
        assert (Hall : Factory.allPairs Scenario.registry_minted = [100]) by reflexivity.
        rewrite Hall in Hin. apply list_elem_of_singleton in Hin. subst pair.
        vm_compute in Hp. injection Hp as <-. cbn in Htok.
        destruct Htok as [[E _]|[_ E]]; discriminate E.
      * exists s'. split; [exact Hs'|]. split; [exact H23 | exact H32].
Defined.

(** C8 as stated fails for [createPair(0, 0)]: the smaller of the two tokens
    is the zero identifier, and the failure is [IdenticalTokens]. *)
Lemma createPair_zero_zero_is_IdenticalTokens :
  N.min 0 0 = 0 ∧
  Factory.createPair 100 0 0 (Factory.constructor 50) = Revert IdenticalTokens ∧
  Factory.createPair 100 0 0 (Factory.constructor 50) ≠ Revert ZeroToken.
Proof. split; [reflexivity|]. split; [reflexivity | discriminate]. Qed.

(** ** Quoting a path *)

(** C9, as the code has it: [getAmountsOut] is the specification's
    [quotePath].  It fails with [PathTooShort] on fewer than two tokens.  It
    returns exactly the arrays as long as the path that start with
    [amountIn] and whose every next entry is the quote of the hop, the
    reserves oriented by [path[i] < path[i+1]].  Otherwise the first hop
    that fails decides the failure: [PairNotFound] when that hop has no
    registered ledger, the failure of [getAmountOut] when its quote fails. *)
Theorem getAmountsOut_spec f amountIn path :
  Router.getAmountsOut f amountIn path = Router.quotePath f amountIn path ∧
  ((length path < 2)%nat -> Router.getAmountsOut f amountIn path = Revert PathTooShort) ∧
  (forall amounts,
     Router.getAmountsOut f amountIn path = Ok amounts <->
     (2 <= length path)%nat ∧ length amounts = length path ∧
     amounts !! 0%nat = Some amountIn ∧
     forall i a b x,
       path !! i = Some a -> path !! S i = Some b -> amounts !! i = Some x ->
       ∃ y, Router.quoteHop f a b x = Ok y ∧ amounts !! S i = Some y) ∧
  (forall a mid b post amounts y u e,
     path = a :: mid ++ b :: post ->
     Router.quoteHops f amountIn a mid = Ok amounts ->
     last amounts = Some y -> last (a :: mid) = Some u ->
     Router.quoteHop f u b y = Revert e ->
     Router.getAmountsOut f amountIn path = Revert e) ∧
  (forall a b x,
     Router.quoteHop f a b x =
     if Router.getPair f a b =? 0 then Revert PairNotFound else
     let? (r0, r1, _) := Router.Pair_getReserves f (Router.getPair f a b) in
     if a <? b then Router.getAmountOut x r0 r1 else Router.getAmountOut x r1 r0) ∧
  (forall a b x,
     Router.quoteHop f a b x = Revert PairNotFound <-> Router.getPair f a b = 0).
Proof.
  split; [apply RouterFacts.getAmountsOut_quotePath|].
  rewrite RouterFacts.getAmountsOut_quotePath.
  split; [|split; [|split; [|split]]].
  - destruct path as [|a [|b rest]]; cbn; try reflexivity. lia.
  - intros amounts. destruct path as [|a [|b rest]].
    + cbn. split; [intros [=] | intros [H _]; lia].
    + cbn. split; [intros [=] | intros [H _]; lia].
    + cbn [Router.quotePath]. split.
      * intros Hok.
        destruct (RouterFacts.quoteHops_ok f (b :: rest) amountIn a amounts Hok)
          as (Hlen & Hhead & Hhops).
        split; [cbn; lia|]. split; [assumption|]. split; [assumption|].
        intros i u v x Hu Hv. apply Hhops; assumption.
      * intros (_ & Hlen & Hhead & Hhops).
        apply RouterFacts.quoteHops_complete; assumption.
  - intros a mid b post amounts y u e -> Hmid Hlast Hu Hfail.
    assert (Hhops : Router.quoteHops f amountIn a (mid ++ b :: post) = Revert e)
      by exact (RouterFacts.quoteHops_first_failure f mid amountIn a amounts y u b post e
                  Hmid Hlast Hu Hfail).
    destruct mid; exact Hhops.
  - intros a b x. unfold Router.quoteHop.
    destruct (Router.getPair f a b =? 0); [reflexivity|].
    destruct (Router.Pair_getReserves f (Router.getPair f a b)) as [[[r0 r1] t]|e];
      reflexivity.
  - apply RouterFacts.quoteHop_PairNotFound.
Qed.

(** On [registry_funded] (reserves 1000 of token 1 and 4000 of token 2) the
    path from 1 to 2 quotes 362 for 100, and the path from 2 over 1 to 3
    fails at its second hop, which has no ledger. *)
Lemma getAmountsOut_spec_witness :
  Router.getAmountsOut registry_funded 100 [1; 2] = Ok [100; 362] ∧
  Router.getAmountsOut registry_funded 100 [2; 1; 3] = Revert PairNotFound ∧
  Router.getAmountsOut registry_funded 100 [1] = Revert PathTooShort.
Proof.
  split; [|split].
  - apply (getAmountsOut_spec registry_funded 100 [1; 2]).
    split; [cbn; lia|]. split; [reflexivity|]. split; [reflexivity|].
    intros [|[|i]] a b x; cbn; try discriminate.
    intros [= <-] [= <-] [= <-]. exists 362. split; reflexivity.
  - apply (getAmountsOut_spec registry_funded 100 [2; 1; 3])
      with (a := 2) (mid := [1]) (b := 3) (post := []) (amounts := [100; 24])
           (y := 24) (u := 1); reflexivity.
  - apply (getAmountsOut_spec registry_funded 100 [1]). cbn. lia.
Defined.

(** C9 as stated fails twice.  On [registry] the ledger of the tokens 1 and
    2 is registered and still empty: the quote of the two-token path fails
    with the quote's [InsufficientLiquidity] instead of returning amounts. On
    [registry_funded] the second hop of the path 2, 1, 3 has no ledger, and
    an input of 0 fails at the first hop with the quote's
    [InsufficientInput], not with [PairNotFound]. *)
Lemma quotePath_fails_on_registered_pairs :
  (Router.getPair registry 1 2 = 100 ∧
   Router.getAmountsOut registry 100 [1; 2] = Revert QuoteInsufficientLiquidity) ∧
  (Router.getPair registry_funded 1 3 = 0 ∧
   Router.getAmountsOut registry_funded 0 [2; 1; 3] = Revert QuoteInsufficientInput).
Proof. vm_compute. repeat split. Qed.

End Core.

(** * The rest of the contracts: lemmas *)

(** ** Liquidity shares as a token *)

Module ShareFacts.
Import Pair Trace ShareSum.

Ltac unfold_shares :=
  cbv beta iota delta
    [transfer transferFrom approve bind ret revert lift gets modify emit
     set_totalSupply set_balanceOf set_allowance balanceOf_at allowance_at
     conserved sum_balanceOf
     st tokens log block_timestamp
     this token0 token1 factory reserve0 reserve1 blockTimestampLast
     totalSupply balanceOf allowance] in *.

(** Crediting [value] back after debiting it cannot overflow a supply that
    fits in 256 bits. *)
Lemma credit_fits (m : gmap address N) from to value supply :
  sum_shares m = supply -> supply <= MAX_UINT256 -> value <= default 0 (m !! from) ->
  default 0 (<[from := default 0 (m !! from) - value]> m !! to) + value <= MAX_UINT256.
Proof.
  intros Hsum Hmax Hle.
  pose proof (sum_insert m from (default 0 (m !! from) - value)) as H1.
  pose proof (lookup_le_sum (<[from := default 0 (m !! from) - value]> m) to) as H2.
  lia.
Qed.

(** The balances after moving [value] from [from] to [to]. *)
Lemma moved_balance (m : gmap address N) from to value a :
  value <= default 0 (m !! from) ->
  let m1 := <[from := default 0 (m !! from) - value]> m in
  default 0 (<[to := default 0 (m1 !! to) + value]> m1 !! a) =
  if decide (from = to) then default 0 (m !! a)
  else if decide (a = from) then default 0 (m !! a) - value
  else if decide (a = to) then default 0 (m !! a) + value
  else default 0 (m !! a).
Proof.
  intros Hle m1. subst m1.
  destruct (decide (from = to)) as [->|Hft].
  - rewrite lookup_insert_eq. cbn [from_option id].
    destruct (decide (a = to)) as [->|Hat].
    + rewrite lookup_insert_eq. cbn [from_option id]. lia.
    + rewrite !lookup_insert_ne by congruence. reflexivity.
  - rewrite (lookup_insert_ne _ from to) by congruence.
    destruct (decide (a = from)) as [->|Haf].
    + rewrite lookup_insert_ne by congruence. rewrite lookup_insert_eq. reflexivity.
    + destruct (decide (a = to)) as [->|Hat].
      * rewrite lookup_insert_eq. reflexivity.
      * rewrite !lookup_insert_ne by congruence. reflexivity.
Qed.

Lemma transfer_ok w sender to value :
  conserved (st w) -> totalSupply (st w) <= MAX_UINT256 ->
  value <= balanceOf_at (st w) sender ->
  ∃ w', transfer sender to value w = Ok (true, w') ∧
        Storage.identity (st w') = Storage.identity (st w) ∧
        (reserve0 (st w'), reserve1 (st w')) = (reserve0 (st w), reserve1 (st w)) ∧
        totalSupply (st w') = totalSupply (st w) ∧
        allowance (st w') = allowance (st w) ∧
        tokens w' = tokens w ∧
        forall a, balanceOf_at (st w') a =
                  if decide (sender = to) then balanceOf_at (st w) a
                  else if decide (a = sender) then balanceOf_at (st w) a - value
                  else if decide (a = to) then balanceOf_at (st w) a + value
                  else balanceOf_at (st w) a.
Proof.
  destruct w as [[self t0 t1 fac r0 r1 tl supply bals alw] tk lg ts].
  unfold Storage.identity. unfold_shares. intros Hcons Hmax Hle.
  rewrite sub_ok by assumption.
  rewrite add_ok by (eapply credit_fits; eassumption).
  eexists. split; [reflexivity|]. repeat split.
  intros a. apply moved_balance. assumption.
Qed.

Lemma transfer_short w sender to value :
  balanceOf_at (st w) sender < value ->
  transfer sender to value w = Revert ArithmeticOverflow.
Proof.
  destruct w as [[self t0 t1 fac r0 r1 tl supply bals alw] tk lg ts].
  unfold_shares. intros Hlt. rewrite sub_underflow by assumption. reflexivity.
Qed.

Lemma transferFrom_ok w sender from to value :
  conserved (st w) -> totalSupply (st w) <= MAX_UINT256 ->
  value <= allowance_at (st w) from sender ->
  value <= balanceOf_at (st w) from ->
  ∃ w', transferFrom sender from to value w = Ok (true, w') ∧
        Storage.identity (st w') = Storage.identity (st w) ∧
        (reserve0 (st w'), reserve1 (st w')) = (reserve0 (st w), reserve1 (st w)) ∧
        totalSupply (st w') = totalSupply (st w) ∧
        tokens w' = tokens w ∧
        (forall o sp,
           allowance_at (st w') o sp =
           if decide ((o, sp) = (from, sender)) then
             if allowance_at (st w) from sender =? MAX_UINT256 then MAX_UINT256
             else allowance_at (st w) from sender - value
           else allowance_at (st w) o sp) ∧
        forall a, balanceOf_at (st w') a =
                  if decide (from = to) then balanceOf_at (st w) a
                  else if decide (a = from) then balanceOf_at (st w) a - value
                  else if decide (a = to) then balanceOf_at (st w) a + value
                  else balanceOf_at (st w) a.
Proof.
  destruct w as [[self t0 t1 fac r0 r1 tl supply bals alw] tk lg ts].
  unfold Storage.identity. unfold_shares. intros Hcons Hmax Hal Hle.
  destruct (N.eqb_spec (default 0 (alw !! (from, sender))) MAX_UINT256) as [Heq|Hne];
    cbn [negb]; unfold_shares.
  - rewrite sub_ok by assumption.
    rewrite add_ok by (eapply credit_fits; eassumption).
    eexists. split; [reflexivity|]. repeat split.
    + intros o sp. destruct (decide ((o, sp) = (from, sender))) as [[= -> ->]|_];
        [assumption | reflexivity].
    + intros a. apply moved_balance. assumption.
  - rewrite (sub_ok _ value) by assumption. unfold_shares.
    rewrite sub_ok by assumption.
    rewrite add_ok by (eapply credit_fits; eassumption).
    eexists. split; [reflexivity|]. repeat split.
    + intros o sp. destruct (decide ((o, sp) = (from, sender))) as [[= -> ->]|Hosp].
      * rewrite lookup_insert_eq. reflexivity.
      * rewrite lookup_insert_ne by congruence. reflexivity.
    + intros a. apply moved_balance. assumption.
Qed.

Lemma transferFrom_short w sender from to value :
  conserved (st w) -> totalSupply (st w) <= MAX_UINT256 ->
  allowance_at (st w) from sender < value ∨ balanceOf_at (st w) from < value ->
  transferFrom sender from to value w = Revert ArithmeticOverflow.
Proof.
  destruct w as [[self t0 t1 fac r0 r1 tl supply bals alw] tk lg ts].
  unfold_shares. intros Hcons Hmax Hshort.
  pose proof (lookup_le_sum bals from) as Hbal.
  destruct (N.eqb_spec (default 0 (alw !! (from, sender))) MAX_UINT256) as [Heq|Hne];
    cbn [negb]; unfold_shares.
  - rewrite sub_underflow by lia. reflexivity.
  - destruct (N.lt_ge_cases (default 0 (alw !! (from, sender))) value) as [Hlt|Hge].
    + rewrite sub_underflow by assumption. reflexivity.
    + rewrite (sub_ok _ value) by assumption. unfold_shares.
      rewrite sub_underflow by lia. reflexivity.
Qed.

(** [approve] writes the allowance and nothing else. *)
Lemma approve_ok w sender spender value :
  ∃ w', approve sender spender value w = Ok (true, w') ∧
        Storage.identity (st w') = Storage.identity (st w) ∧
        (reserve0 (st w'), reserve1 (st w')) = (reserve0 (st w), reserve1 (st w)) ∧
        totalSupply (st w') = totalSupply (st w) ∧
        balanceOf (st w') = balanceOf (st w) ∧
        tokens w' = tokens w ∧
        forall o sp, allowance_at (st w') o sp =
                     if decide ((o, sp) = (sender, spender)) then value
                     else allowance_at (st w) o sp.
Proof.
  destruct w as [[self t0 t1 fac r0 r1 tl supply bals alw] tk lg ts].
  unfold Storage.identity. unfold_shares.
  eexists. split; [reflexivity|]. repeat split.
  intros o sp. destruct (decide ((o, sp) = (sender, spender))) as [[= -> ->]|Hosp].
  - rewrite lookup_insert_eq. reflexivity.
  - rewrite lookup_insert_ne by congruence. reflexivity.
Qed.

End ShareFacts.

(** ** Adding and removing liquidity *)

Module LiquidityFacts.
Import Pair Trace.

Ltac unfold_all :=
  cbv beta iota delta
    [mint burn _mint _burn _update _safeTransfer token_balanceOf getReserves
     bind ret revert lift gets modify emit ledger_of
     set_totalSupply set_balanceOf set_allowance set_reserves balanceOf_at allowance_at
     st tokens log block_timestamp
     this token0 token1 factory reserve0 reserve1 blockTimestampLast
     totalSupply balanceOf allowance] in *.

(** What a successful [mint] has checked and written. *)
Lemma mint_effect w sender to liquidity w' :
  mint sender to w = Ok (liquidity, w') ->
  let balance0 := IERC20_balanceOf (ledger_of w (token0 (st w))) (this (st w)) in
  let balance1 := IERC20_balanceOf (ledger_of w (token1 (st w))) (this (st w)) in
  reserve0 (st w) < balance0 ∧ reserve1 (st w) < balance1 ∧ 0 < liquidity ∧
  (if totalSupply (st w) =? 0
   then sqrt ((balance0 - reserve0 (st w)) * (balance1 - reserve1 (st w))) = Ok liquidity
   else liquidity =
        min ((balance0 - reserve0 (st w)) * totalSupply (st w) / reserve0 (st w))
            ((balance1 - reserve1 (st w)) * totalSupply (st w) / reserve1 (st w))) ∧
  totalSupply (st w') = totalSupply (st w) + liquidity ∧
  (forall a, balanceOf_at (st w') a =
             if decide (a = to) then balanceOf_at (st w) a + liquidity
             else balanceOf_at (st w) a) ∧
  reserve0 (st w') = uint112 balance0 ∧ reserve1 (st w') = uint112 balance1 ∧
  Storage.identity (st w') = Storage.identity (st w) ∧
  allowance (st w') = allowance (st w) ∧
  tokens w' = tokens w.
Proof.
  destruct w as [[self t0 t1 fac r0 r1 tl supply bals alw] tk lg ts].
  unfold Storage.identity. unfold_all.
  set (balance0 := IERC20_balanceOf (default ∅ (tk !! t0)) self).
  set (balance1 := IERC20_balanceOf (default ∅ (tk !! t1)) self).
  unfold sub at 1. destruct (N.leb_spec r0 balance0) as [H0|H0]; [|intros [=]].
  unfold sub at 1. destruct (N.leb_spec r1 balance1) as [H1|H1]; [|intros [=]].
  destruct (N.eqb_spec (balance0 - r0) 0) as [|Ha0]; [intros [=]|].
  destruct (N.eqb_spec (balance1 - r1) 0) as [|Ha1]; [intros [=]|].
  cbn [orb].
  assert (Hfin : forall l s' b',
    l ≠ 0 -> s' = supply + l -> b' = default 0 (bals !! to) + l ->
    l = liquidity ->
    w' = {| st := mkState self t0 t1 fac (uint112 balance0) (uint112 balance1)
                    (uint32 ts) s' (<[to := b']> bals) alw;
            tokens := tk;
            log := ((lg ++ [Transfer 0 to l])
                      ++ [Sync (uint112 balance0) (uint112 balance1)])
                     ++ [Mint sender (balance0 - r0) (balance1 - r1) to];
            block_timestamp := ts |} ->
    0 < liquidity ∧
    totalSupply (st w') = supply + liquidity ∧
    (forall a, default 0 (balanceOf (st w') !! a) =
               if decide (a = to) then default 0 (bals !! a) + liquidity
               else default 0 (bals !! a)) ∧
    reserve0 (st w') = uint112 balance0 ∧ reserve1 (st w') = uint112 balance1 ∧
    (this (st w'), token0 (st w'), token1 (st w'), factory (st w')) = (self, t0, t1, fac) ∧
    allowance (st w') = alw ∧ tokens w' = tk).
  { intros l s' b' Hl -> -> <- ->. cbn. repeat split; try lia.
    intros a. destruct (decide (a = to)) as [->|Hne].
    - rewrite lookup_insert_eq. reflexivity.
    - rewrite lookup_insert_ne by congruence. reflexivity. }
  destruct (N.eqb_spec supply 0) as [Hs|Hs].
  - unfold mul at 1. destruct (_ <=? _); cbn [rbind]; [|intros [=]].
    destruct (sqrt _) as [l|e] eqn:Hsqrt; [|intros [=]].
    destruct (N.eqb_spec l 0) as [|Hl]; [intros [=]|].
    unfold_all. unfold add.
    destruct (_ <=? _); [|intros [=]]. destruct (_ <=? _); intros [= Hliq Hw'].
    split; [lia|]. split; [lia|].
    split; [eapply proj1, (Hfin l); eauto|]. split; [congruence|].
    eapply proj2, (Hfin l); eauto.
  - unfold mul at 1. destruct (_ <=? _); cbn [rbind]; [|intros [=]].
    unfold div at 1. destruct (r0 =? 0); cbn [rbind]; [intros [=]|].
    unfold mul at 1. destruct (_ <=? _); cbn [rbind]; [|intros [=]].
    unfold div at 1. destruct (r1 =? 0); cbn [rbind]; [intros [=]|].
    match goal with
    | |- context [min ?x ?y =? 0] =>
        set (l := min x y); destruct (N.eqb_spec l 0) as [|Hl]; [intros [=]|]
    end.
    unfold_all. unfold add.
    destruct (_ <=? _); [|intros [=]]. destruct (_ <=? _); intros [= Hliq Hw'].
    split; [lia|]. split; [lia|].
    split; [eapply proj1, (Hfin l); eauto|]. split; [congruence|].
    eapply proj2, (Hfin l); eauto.
Qed.

(** A later deposit is valued at the worse of its two ratios. *)
Lemma mint_proportional w sender to amount0 amount1 :
  conserved (st w) ->
  0 < totalSupply (st w) -> 0 < reserve0 (st w) -> 0 < reserve1 (st w) ->
  IERC20_balanceOf (ledger_of w (token0 (st w))) (this (st w)) = reserve0 (st w) + amount0 ->
  IERC20_balanceOf (ledger_of w (token1 (st w))) (this (st w)) = reserve1 (st w) + amount1 ->
  0 < amount0 -> 0 < amount1 ->
  amount0 * totalSupply (st w) <= MAX_UINT256 ->
  amount1 * totalSupply (st w) <= MAX_UINT256 ->
  let liquidity := min (amount0 * totalSupply (st w) / reserve0 (st w))
                       (amount1 * totalSupply (st w) / reserve1 (st w)) in
  0 < liquidity -> totalSupply (st w) + liquidity <= MAX_UINT256 ->
  ∃ w', mint sender to w = Ok (liquidity, w').
Proof.
  intros Hcons Hsupply Hr0 Hr1 Hb0 Hb1 H0 H1 Hm0 Hm1 liquidity Hl Hmax.
  assert (Hto : balanceOf_at (st w) to <= totalSupply (st w)).
  { unfold conserved, sum_balanceOf in Hcons. rewrite <- Hcons.
    apply ShareSum.lookup_le_sum. }
  destruct w as [[self t0 t1 fac r0 r1 tl supply bals alw] tk lg ts].
  unfold_all. subst liquidity. rewrite Hb0, Hb1.
  rewrite !sub_ok by lia.
  replace (r0 + amount0 - r0) with amount0 in * by lia.
  replace (r1 + amount1 - r1) with amount1 in * by lia.
  destruct (N.eqb_spec amount0 0); [lia|]. destruct (N.eqb_spec amount1 0); [lia|].
  cbn [orb]. destruct (N.eqb_spec supply 0); [lia|].
  rewrite !mul_ok by assumption. cbn [rbind].
  rewrite !div_ok by lia. cbn [rbind].
  set (l := min _ _) in *.
  destruct (N.eqb_spec l 0); [lia|].
  rewrite add_ok by lia. rewrite add_ok by lia.
  eexists. reflexivity.
Qed.

(** The shares of [min] never exceed either proportion. *)
Lemma min_proportion amount0 amount1 supply r0 r1 :
  min (amount0 * supply / r0) (amount1 * supply / r1) * r0 <= amount0 * supply ∧
  min (amount0 * supply / r0) (amount1 * supply / r1) * r1 <= amount1 * supply.
Proof.
  unfold min.
  pose proof (N.Div0.mul_div_le (amount0 * supply) r0).
  pose proof (N.Div0.mul_div_le (amount1 * supply) r1).
  destruct (N.ltb_spec (amount0 * supply / r0) (amount1 * supply / r1)); nia.
Qed.

(** Without a deposit in both tokens [mint] issues nothing. *)
Lemma mint_one_sided w sender to :
  reserve0 (st w) <= IERC20_balanceOf (ledger_of w (token0 (st w))) (this (st w)) ->
  reserve1 (st w) <= IERC20_balanceOf (ledger_of w (token1 (st w))) (this (st w)) ->
  IERC20_balanceOf (ledger_of w (token0 (st w))) (this (st w)) = reserve0 (st w) ∨
  IERC20_balanceOf (ledger_of w (token1 (st w))) (this (st w)) = reserve1 (st w) ->
  mint sender to w = Revert InsufficientLiquidity.
Proof.
  destruct w as [[self t0 t1 fac r0 r1 tl supply bals alw] tk lg ts].
  unfold_all. intros H0 H1 Hone.
  rewrite !sub_ok by assumption.
  destruct (N.eqb_spec (IERC20_balanceOf (default ∅ (tk !! t0)) self - r0) 0);
    [reflexivity|].
  destruct (N.eqb_spec (IERC20_balanceOf (default ∅ (tk !! t1)) self - r1) 0);
    [reflexivity|].
  lia.
Qed.

(** [burn] redeems the shares the Pair holds for their proportion of both
    reserves. *)
Lemma burn_proportional w sender to :
  conserved (st w) -> 0 < totalSupply (st w) ->
  token0 (st w) ≠ token1 (st w) -> to ≠ this (st w) ->
  let liquidity := balanceOf_at (st w) (this (st w)) in
  let amount0 := liquidity * reserve0 (st w) / totalSupply (st w) in
  let amount1 := liquidity * reserve1 (st w) / totalSupply (st w) in
  let balance0 := IERC20_balanceOf (ledger_of w (token0 (st w))) (this (st w)) in
  let balance1 := IERC20_balanceOf (ledger_of w (token1 (st w))) (this (st w)) in
  liquidity * reserve0 (st w) <= MAX_UINT256 ->
  liquidity * reserve1 (st w) <= MAX_UINT256 ->
  amount0 <= balance0 -> amount1 <= balance1 ->
  ∃ w', burn sender to w = Ok ((amount0, amount1), w') ∧
        amount0 <= reserve0 (st w) ∧ amount1 <= reserve1 (st w) ∧
        totalSupply (st w') = totalSupply (st w) - liquidity ∧
        (forall a, balanceOf_at (st w') a =
                   if decide (a = this (st w)) then 0 else balanceOf_at (st w) a) ∧
        IERC20_balanceOf (ledger_of w' (token0 (st w))) (this (st w)) = balance0 - amount0 ∧
        IERC20_balanceOf (ledger_of w' (token1 (st w))) (this (st w)) = balance1 - amount1 ∧
        IERC20_balanceOf (ledger_of w' (token0 (st w))) to =
          IERC20_balanceOf (ledger_of w (token0 (st w))) to + amount0 ∧
        IERC20_balanceOf (ledger_of w' (token1 (st w))) to =
          IERC20_balanceOf (ledger_of w (token1 (st w))) to + amount1 ∧
        reserve0 (st w') = uint112 (balance0 - amount0) ∧
        reserve1 (st w') = uint112 (balance1 - amount1) ∧
        Storage.identity (st w') = Storage.identity (st w) ∧
        allowance (st w') = allowance (st w).
Proof.
  intros Hcons Hsupply Htok Hto liquidity amount0 amount1 balance0 balance1
         Hm0 Hm1 Hc0 Hc1.
  assert (Hle : liquidity <= totalSupply (st w)).
  { unfold conserved, sum_balanceOf in Hcons. rewrite <- Hcons.
    apply ShareSum.lookup_le_sum. }
  assert (Ha0 : amount0 <= reserve0 (st w)).
  { subst amount0. apply N.Div0.div_le_upper_bound. nia. }
  assert (Ha1 : amount1 <= reserve1 (st w)).
  { subst amount1. apply N.Div0.div_le_upper_bound. nia. }
  destruct w as [[self t0 t1 fac r0 r1 tl supply bals alw] tk lg ts].
  unfold Storage.identity. unfold ledger_of in *. unfold balanceOf_at in *.
  cbn [st tokens this token0 token1 reserve0 reserve1 totalSupply balanceOf] in *.
  subst liquidity amount0 amount1 balance0 balance1.
  destruct (QuoteFacts.IERC20_transfer_out (default ∅ (tk !! t0)) self to _ Hc0 Hto)
    as (l0 & Htr0 & Hself0 & Hrecv0).
  destruct (QuoteFacts.IERC20_transfer_out (default ∅ (tk !! t1)) self to _ Hc1 Hto)
    as (l1 & Htr1 & Hself1 & Hrecv1).
  unfold burn.
  repeat (cbv beta iota delta
            [bind gets lift ret modify emit _burn _update _safeTransfer token_balanceOf
             rbind ledger_of
             set_totalSupply set_balanceOf set_reserves balanceOf_at
             st tokens log block_timestamp
             this token0 token1 factory reserve0 reserve1 blockTimestampLast
             totalSupply balanceOf allowance];
          first [ rewrite mul_ok by assumption | rewrite div_ok by lia
                | rewrite sub_ok by lia | rewrite Htr0
                | rewrite (lookup_insert_ne _ t0 t1) by congruence
                | rewrite (lookup_insert_ne _ t1 t0) by congruence
                | rewrite lookup_insert_eq | rewrite Htr1 ]).
  eexists. split; [reflexivity|].
  cbn [st tokens this token0 token1 factory reserve0 reserve1 totalSupply balanceOf
       allowance from_option id].
  rewrite ?(lookup_insert_ne _ t1 t0) by congruence. rewrite ?lookup_insert_eq.
  cbn [from_option id].
  repeat split; try assumption.
  intros a. destruct (decide (a = self)) as [->|Hne].
  - rewrite lookup_insert_eq. cbn. lia.
  - rewrite lookup_insert_ne by congruence. reflexivity.
  - rewrite Hself0. reflexivity.
  - rewrite Hself1. reflexivity.
Qed.

(** A first deposit, handed back to the Pair and burned, returns both
    amounts in full and leaves the ledger empty. *)
Lemma first_deposit_round_trip self fac t0 t1 tk lg ts provider sender amount0 amount1 :
  t0 ≠ t1 -> provider ≠ self ->
  IERC20_balanceOf (default ∅ (tk !! t0)) self = amount0 ->
  IERC20_balanceOf (default ∅ (tk !! t1)) self = amount1 ->
  0 < amount0 < 2 ^ 112 -> 0 < amount1 < 2 ^ 112 ->
  let w0 := {| st := constructor self fac t0 t1; tokens := tk; log := lg;
               block_timestamp := ts |} in
  ∃ liquidity w1 w2 w3,
    mint sender provider w0 = Ok (liquidity, w1) ∧
    liquidity * liquidity <= amount0 * amount1 < (liquidity + 1) * (liquidity + 1) ∧
    transfer provider self liquidity w1 = Ok (true, w2) ∧
    burn sender provider w2 = Ok ((amount0, amount1), w3) ∧
    totalSupply (st w3) = 0 ∧ reserve0 (st w3) = 0 ∧ reserve1 (st w3) = 0 ∧
    (forall a, balanceOf_at (st w3) a = 0) ∧
    IERC20_balanceOf (ledger_of w3 t0) self = 0 ∧
    IERC20_balanceOf (ledger_of w3 t1) self = 0 ∧
    IERC20_balanceOf (ledger_of w3 t0) provider =
      IERC20_balanceOf (default ∅ (tk !! t0)) provider + amount0 ∧
    IERC20_balanceOf (ledger_of w3 t1) provider =
      IERC20_balanceOf (default ∅ (tk !! t1)) provider + amount1.
Proof.
  intros Htok Hprov Hc0 Hc1 [Hp0 Hlt0] [Hp1 Hlt1] w0. subst w0.
  assert (Hfit : forall x y, x < 2 ^ 112 -> y < 2 ^ 112 -> x * y <= MAX_UINT256).
  { intros x y Hx Hy. pose proof (N.mul_lt_mono _ _ _ _ Hx Hy) as Hxy.
    apply N.lt_le_incl. eapply N.lt_le_trans; [exact Hxy|]. vm_compute. discriminate. }
  pose proof (Hfit _ _ Hlt0 Hlt1) as Hmax.
  pose proof (Conservation.conserved_constructor self fac t0 t1) as Hcons0.
  (* the deposit *)
  destruct (PairFacts.mint_first_deposit (mkWorld (constructor self fac t0 t1) tk lg ts)
              sender provider amount0 amount1)
    as (w1 & Hmint & _ & _); try assumption; try reflexivity.
  pose proof (SqrtFacts.N_sqrt_floor (amount0 * amount1)) as Hfloor.
  set (l := N.sqrt (amount0 * amount1)) in *.
  assert (Hl : 0 < l) by nia.
  assert (Hl112 : l < 2 ^ 112).
  { destruct (N.lt_ge_cases l (2 ^ 112)) as [|Hge]; [assumption|].
    pose proof (N.mul_le_mono _ _ _ _ Hge Hge).
    pose proof (N.mul_lt_mono _ _ _ _ Hlt0 Hlt1). lia. }
  pose proof (Conservation.conserved_mint sender provider (mkWorld _ _ _ _) l w1 Hcons0 Hmint)
    as Hcons1.
  destruct (mint_effect _ _ _ _ _ Hmint)
    as (_ & _ & _ & _ & Hts1 & Hbal1 & Hr01 & Hr11 & Hid1 & _ & Htk1).
  cbn [st tokens constructor totalSupply reserve0 reserve1 this token0 token1] in *.
  unfold ledger_of in Hr01, Hr11. cbn [tokens] in Hr01, Hr11.
  rewrite Hc0 in Hr01. rewrite Hc1 in Hr11.
  unfold uint112 in Hr01, Hr11. rewrite N.mod_small in Hr01, Hr11 by assumption.
  unfold Storage.identity in Hid1. cbn in Hid1. injection Hid1 as Hthis1 Htok01 Htok11 _.
  assert (Hmaxl : 0 + l <= MAX_UINT256).
  { eapply N.le_trans; [|exact Hmax]. nia. }
  (* the shares go to the Pair *)
  destruct (ShareFacts.transfer_ok w1 provider self l)
    as (w2 & Htransfer & Hid2 & Hres2 & Hts2 & _ & Htk2 & Hbal2);
    [assumption | rewrite Hts1; exact Hmaxl | |].
  { rewrite Hbal1. rewrite decide_True by reflexivity. unfold balanceOf_at. cbn.
    rewrite lookup_empty. cbn. lia. }
  pose proof (Conservation.conserved_transfer provider self l w1 true w2 Hcons1 Htransfer)
    as Hcons2.
  unfold Storage.identity in Hid2. rewrite Hthis1, Htok01, Htok11 in Hid2.
  injection Hid2 as Hthis2 Htok02 Htok12 _.
  injection Hres2 as Hr02 Hr12. rewrite Hr01 in Hr02. rewrite Hr11 in Hr12.
  assert (Hself2 : balanceOf_at (st w2) self = l).
  { rewrite Hbal2. rewrite decide_False by assumption.
    rewrite decide_False by congruence. rewrite decide_True by reflexivity.
    rewrite Hbal1. rewrite decide_False by congruence.
    unfold balanceOf_at. cbn. rewrite lookup_empty. reflexivity. }
  (* and are burned *)
  pose proof (burn_proportional w2 sender provider) as Hburn.
  cbn zeta in Hburn. unfold ledger_of in Hburn.
  rewrite Hthis2, Htok02, Htok12, Hself2, Hr02, Hr12, Hts2, Hts1, Htk2, Htk1 in Hburn.
  cbn [N.add] in Hburn. rewrite Hc0, Hc1 in Hburn.
  rewrite !(N.mul_comm l), !N.div_mul in Hburn by lia.
  destruct Hburn
    as (w3 & Hb & _ & _ & Hts3 & Hbal3 & Hs0 & Hs1 & Hp0' & Hp1' & Hr03 & Hr13 & _);
    try assumption; try lia; try (apply Hfit; assumption).
  exists l, w1, w2, w3.
  split; [exact Hmint|]. split; [exact Hfloor|]. split; [exact Htransfer|].
  split; [exact Hb|].
  rewrite N.sub_diag in *.
  split; [assumption|]. split; [exact Hr03|]. split; [exact Hr13|].
  split.
  { intros a. rewrite Hbal3. destruct (decide (a = self)) as [->|Hne]; [reflexivity|].
    rewrite Hbal2. rewrite decide_False by assumption.
    destruct (decide (a = provider)) as [->|Hnp].
    - rewrite Hbal1. rewrite decide_True by reflexivity.
      unfold balanceOf_at. cbn. rewrite lookup_empty. cbn. lia.
    - rewrite decide_False by assumption. rewrite Hbal1.
      rewrite decide_False by assumption. unfold balanceOf_at. cbn.
      rewrite lookup_empty. reflexivity. }
  unfold ledger_of. tauto.
Qed.

End LiquidityFacts.

(** ** Swaps *)

Module SwapFacts.
Import Pair Trace.

(** The optional payout of [swap]: what it leaves of the world. *)
Lemma payout_effect w token to value w' :
  to ≠ this (st w) ->
  (if 0 <? value then _safeTransfer token to value else ret tt) w = Ok (tt, w') ->
  st w' = st w ∧
  IERC20_balanceOf (ledger_of w' token) (this (st w)) =
    IERC20_balanceOf (ledger_of w token) (this (st w)) - value ∧
  forall t, t ≠ token -> ledger_of w' t = ledger_of w t.
Proof.
  intros Hto. destruct (N.ltb_spec 0 value) as [Hpos|Hzero].
  - unfold _safeTransfer, IERC20_transfer.
    destruct (_ <=? _); [|intros [=]]. intros [= <-]. unfold ledger_of. cbn.
    split; [reflexivity|]. split.
    + rewrite lookup_insert_eq. cbn. unfold IERC20_balanceOf.
      rewrite lookup_insert_ne by congruence. rewrite lookup_insert_eq. reflexivity.
    + intros t Hne. rewrite lookup_insert_ne by congruence. reflexivity.
  - intros [= <-]. replace value with 0 by lia. rewrite N.sub_0_r. tauto.
Qed.

(** A swap nobody paid for does not succeed. *)
Lemma swap_unpaid w sender amountOut0 amountOut1 to :
  token0 (st w) ≠ token1 (st w) -> to ≠ this (st w) ->
  IERC20_balanceOf (ledger_of w (token0 (st w))) (this (st w)) <= reserve0 (st w) ->
  IERC20_balanceOf (ledger_of w (token1 (st w))) (this (st w)) <= reserve1 (st w) ->
  ∃ e, swap sender amountOut0 amountOut1 to w = Revert e ∧
       e ∈ [InsufficientOutput; InsufficientLiquidity; TransferFailed; InsufficientInput].
Proof.
  intros Htok Hto Hc0 Hc1. unfold swap.
  destruct ((amountOut0 =? 0) && (amountOut1 =? 0));
    [eexists; split; [reflexivity|]; repeat constructor|].
  unfold bind at 1, getReserves, gets at 1.
  destruct (N.leb_spec (reserve0 (st w)) amountOut0);
    [eexists; split; [reflexivity|]; repeat constructor|].
  destruct (N.leb_spec (reserve1 (st w)) amountOut1);
    [eexists; split; [reflexivity|]; repeat constructor|].
  cbn [orb]. unfold bind at 1, gets at 1. unfold bind at 1, gets at 1.
  unfold bind at 1, gets at 1. unfold bind at 1.
  destruct ((if 0 <? amountOut0 then _safeTransfer (token0 (st w)) to amountOut0 else ret tt) w)
    as [[[] w1]|e] eqn:E0.
  2:{ exists e. split; [reflexivity|]. destruct (0 <? amountOut0); [|discriminate].
      unfold _safeTransfer in E0. destruct (IERC20_transfer _ _ _ _); [discriminate|].
      injection E0 as <-. repeat constructor. }
  destruct (payout_effect _ _ _ _ _ Hto E0) as (Hst1 & Hb0 & Hl0).
  unfold bind at 1.
  destruct ((if 0 <? amountOut1 then _safeTransfer (token1 (st w)) to amountOut1 else ret tt) w1)
    as [[[] w2]|e] eqn:E1.
  2:{ exists e. split; [reflexivity|]. destruct (0 <? amountOut1); [|discriminate].
      unfold _safeTransfer in E1. destruct (IERC20_transfer _ _ _ _); [discriminate|].
      injection E1 as <-. repeat constructor. }
  rewrite <- Hst1 in Hto.
  destruct (payout_effect _ _ _ _ _ Hto E1) as (Hst2 & Hb1 & Hl1).
  rewrite Hst1 in *.
  unfold bind at 1, token_balanceOf at 1. unfold bind at 1, token_balanceOf at 1.
  rewrite (Hl1 (token0 (st w))) by assumption. rewrite Hb1, Hb0.
  rewrite (Hl0 (token1 (st w))) by congruence.
  unfold bind at 1, lift at 1. rewrite sub_ok by lia.
  unfold bind at 1.
  destruct (N.ltb_spec (reserve0 (st w) - amountOut0)
              (IERC20_balanceOf (ledger_of w (token0 (st w))) (this (st w)) - amountOut0));
    [lia|].
  unfold ret at 1. unfold bind at 1, lift at 1. rewrite sub_ok by lia.
  unfold bind at 1.
  destruct (N.ltb_spec (reserve1 (st w) - amountOut1)
              (IERC20_balanceOf (ledger_of w (token1 (st w))) (this (st w)) - amountOut1));
    [lia|].
  unfold ret at 1. cbn [N.eqb andb].
  eexists; split; [reflexivity|]. repeat constructor.
Qed.

End SwapFacts.

(** ** The registry, call by call *)

Module RegistryFacts.
Import Factory.

(** The order of the two arguments does not matter. *)
Lemma createPair_comm created tokenA tokenB s :
  createPair created tokenA tokenB s = createPair created tokenB tokenA s.
Proof.
  unfold createPair, require. rewrite (N.eqb_sym tokenB tokenA).
  destruct (N.eqb_spec tokenA tokenB) as [->|Hne]; [reflexivity|]. cbn [negb rbind].
  destruct (N.ltb_spec tokenA tokenB), (N.ltb_spec tokenB tokenA);
    try lia; reflexivity.
Qed.


(** A successful [createPair] only adds: what was registered, listed and
    deployed stays, the new ledger is listed last and starts empty. *)
Lemma createPair_extends created tokenA tokenB s pair s' :
  wf s -> created ≠ 0 -> deployed s !! created = None ->
  createPair created tokenA tokenB s = Ok (pair, s') ->
  pair = created ∧ (pair ∉ allPairs s) ∧
  allPairs s' = allPairs s ++ [pair] ∧
  allPairsLength s' = allPairsLength s + 1 ∧
  (forall a b, getPair_at s a b ≠ 0 -> getPair_at s' a b = getPair_at s a b) ∧
  (forall a b, getPair_at s' a b ≠ getPair_at s a b ->
               getPair_at s' a b = pair ∧
               ((a, b) = (tokenA, tokenB) ∨ (a, b) = (tokenB, tokenA))) ∧
  (forall q p, deployed s !! q = Some p -> deployed s' !! q = Some p) ∧
  deployed s' !! pair =
    Some (Pair.constructor pair (this s) (N.min tokenA tokenB) (N.max tokenA tokenB)).
Proof.
  intros Hwf Hc0 Hfresh Hok.
  destruct (FactoryFacts.createPair_ok_inv _ _ _ _ _ _ Hok) as (Hne & Hz & Hfree).
  destruct (FactoryFacts.createPair_ok created tokenA tokenB s Hne Hz Hfree)
    as (s1 & Hok1 & Hthis & Hgp & Hall & Hdep).
  rewrite Hok in Hok1. injection Hok1 as -> ->.
  set (t0 := N.min tokenA tokenB) in *. set (t1 := N.max tokenA tokenB) in *.
  assert (Hget : forall a b,
             getPair_at s1 a b =
             if decide ((a, b) = (t1, t0) ∨ (a, b) = (t0, t1)) then created
             else getPair_at s a b).
  { intros a b. unfold getPair_at. rewrite Hgp.
    destruct (decide ((a, b) = (t1, t0))) as [->|H1].
    - rewrite lookup_insert_eq. rewrite decide_True by tauto. reflexivity.
    - rewrite lookup_insert_ne by congruence.
      destruct (decide ((a, b) = (t0, t1))) as [->|H2].
      + rewrite lookup_insert_eq. rewrite decide_True by tauto. reflexivity.
      + rewrite lookup_insert_ne by congruence. rewrite decide_False by tauto.
        reflexivity. }
  assert (Hsym : getPair_at s t1 t0 = 0).
  { rewrite FactoryFacts.getPair_symmetric by assumption. assumption. }
  split; [reflexivity|]. split.
  { intros Hin. destruct (wf_listed s Hwf _ Hin) as [p Hp]. congruence. }
  split; [assumption|]. split.
  { unfold allPairsLength. rewrite Hall, length_app. cbn. lia. }
  split.
  { intros a b Hnz. rewrite Hget. rewrite decide_False; [reflexivity|].
    intros [[= -> ->]|[= -> ->]]; contradiction. }
  split.
  { intros a b. rewrite Hget.
    destruct (decide ((a, b) = (t1, t0) ∨ (a, b) = (t0, t1))) as [Hab|Hab];
      [|contradiction].
    intros _. split; [reflexivity|]. subst t0 t1.
    destruct (N.le_gt_cases tokenA tokenB).
    - rewrite N.min_l, N.max_r in Hab by lia. tauto.
    - rewrite N.min_r, N.max_l in Hab by lia. tauto. }
  split.
  { intros q p Hq. rewrite Hdep. rewrite lookup_insert_ne by congruence. assumption. }
  rewrite Hdep. apply lookup_insert_eq.
Qed.


End RegistryFacts.

(** ** Routed swaps *)

Module RoutingFacts.
Import Routing Frame.



(** A call of [swap] into a Pair changes that Pair's reserves at most. *)
Lemma Pair_call_swap_frame pair router amount0Out amount1Out to c c' :
  Pair_call pair (Pair.swap router amount0Out amount1Out to) c = Ok (tt, c') ->
  same_but_reserves (registry c) (registry c') ∧ approvals c' = approvals c.
Proof.
  unfold Pair_call.
  destruct (Factory.deployed (registry c) !! pair) as [p|] eqn:Hp; [|intros [=]].
  destruct (Pair.swap _ _ _ _ _) as [[[] w']|e] eqn:Hswap; intros [= <-].
  pose proof (StorageFacts.swap_keeps_shares router amount0Out amount1Out to _
                (Pair.mkWorld p _ _ _) tt w' eq_refl Hswap) as Hkeep.
  cbn [Pair.st] in Hkeep. apply pair_equal_spec in Hkeep as [Hid Hsh].
  split; [|reflexivity]. cbn [registry]. unfold set_deployed.
  cbn [Factory.deployed Factory.this Factory.getPair Factory.allPairs].
  repeat split. intros q. destruct (decide (q = pair)) as [->|Hq].
  - cbn [Factory.deployed]. rewrite lookup_insert_eq, Hp. split; assumption.
  - cbn [Factory.deployed]. rewrite lookup_insert_ne by congruence.
    destruct (Factory.deployed (registry c) !! q); tauto.
Qed.

Lemma _swap_body_frame router amounts path _to i c c' :
  _swap_body router amounts path _to i c = Ok c' ->
  same_but_reserves (registry c) (registry c') ∧ approvals c' = approvals c.
Proof.
  unfold _swap_body.
  destruct (path !! i) as [input|]; [|intros [=]].
  destruct (path !! (i + 1)%nat) as [output|]; [|intros [=]].
  destruct (_ =? 0); [intros [=]|].
  destruct (input <? output);
    (destruct (amounts !! (i + 1)%nat) as [amountOut|]; [|intros [=]]);
    (destruct (input =? _));
    (destruct (if (i <? length path - 2)%nat then _ else _) as [to|e]; cbn [rbind];
       [|intros [=]]);
    (destruct (Pair_call _ _ c) as [[[] c1]|e] eqn:Hcall; cbn [rbind]; intros [= <-]);
    exact (Pair_call_swap_frame _ _ _ _ _ _ _ Hcall).
Qed.


(** What a successful [swapExactTokensForTokens] went through. *)
Lemma swapExact_inv router sender amountIn amountOutMin path to c amounts c' :
  swapExactTokensForTokens router sender amountIn amountOutMin path to c = Ok (amounts, c') ->
  Router.getAmountsOut (registry c) amountIn path = Ok amounts ∧
  (∃ final, last amounts = Some final ∧ amountOutMin <= final) ∧
  ∃ first second c1,
    path !! 0%nat = Some first ∧ path !! 1%nat = Some second ∧
    token_transferFrom first router sender
      (Router.getPair (registry c) first second) amountIn c = Ok c1 ∧
    _swap router amounts path to c1 = Ok c'.
Proof.
  unfold swapExactTokensForTokens.
  destruct (Router.getAmountsOut (registry c) amountIn path) as [amts|e]; cbn [rbind];
    [|intros [=]].
  destruct (length amts =? 0)%nat; cbn [rbind]; [intros [=]|].
  destruct (amts !! (length amts - 1)%nat) as [final|] eqn:Hlast;
    cbn [rbind]; [|intros [=]].
  unfold require. destruct (N.leb_spec amountOutMin final); cbn [rbind]; [|intros [=]].
  destruct (path !! 0%nat) as [first|]; [|intros [=]].
  destruct (path !! 1%nat) as [second|]; [|intros [=]].
  destruct (token_transferFrom _ _ _ _ _ _) as [c1|e] eqn:Hpull; cbn [rbind]; [|intros [=]].
  destruct (_swap _ _ _ _ _) as [c2|e] eqn:Hswap; cbn [rbind]; intros [= <- <-].
  split; [reflexivity|]. split.
  - exists final. split; [|assumption]. rewrite last_lookup.
    rewrite <- Hlast. f_equal. lia.
  - exists first, second, c1. tauto.
Qed.

(** Below the minimum nothing is executed. *)
Lemma swapExact_slippage router sender amountIn amountOutMin path to c amounts final :
  Router.getAmountsOut (registry c) amountIn path = Ok amounts ->
  last amounts = Some final -> final < amountOutMin ->
  swapExactTokensForTokens router sender amountIn amountOutMin path to c
  = Revert SlippageExceeded.
Proof.
  intros Hq Hlast Hlt. unfold swapExactTokensForTokens. rewrite Hq. cbn [rbind].
  rewrite last_lookup in Hlast.
  replace (length amounts - 1)%nat with (pred (length amounts)) by lia.
  rewrite Hlast.
  destruct amounts as [|x amounts]; [discriminate|].
  cbn [length Nat.eqb rbind]. unfold require.
  destruct (N.leb_spec amountOutMin final); [lia|]. reflexivity.
Qed.


End RoutingFacts.

(** ** Routed swaps stay within the reachable states *)

Module MarketRouting.
Import Routing.

Lemma _swap_body_reachable self router amounts path _to i c c' :
  Market.reachable self (registry c) ->
  _swap_body router amounts path _to i c = Ok c' ->
  Market.reachable self (registry c').
Proof.
  intros Hreach. unfold _swap_body.
  destruct (path !! i) as [input|]; [|intros [=]].
  destruct (path !! (i + 1)%nat) as [output|]; [|intros [=]].
  destruct (_ =? 0); [intros [=]|].
  destruct (input <? output);
    (destruct (amounts !! (i + 1)%nat) as [amountOut|]; [|intros [=]]);
    (destruct (input =? _));
    (destruct (if (i <? length path - 2)%nat then _ else _) as [to|e]; cbn [rbind];
       [|intros [=]]);
    (destruct (Pair_call _ _ c) as [[[] c1]|e] eqn:Hcall; cbn [rbind]; intros [= <-]);
    exact (MarketFacts.reach_Pair_call_swap _ _ _ _ _ _ _ _ Hreach Hcall).
Qed.

Lemma _swap_loop_reachable self router amounts path _to n : forall i c c',
  Market.reachable self (registry c) ->
  _swap_loop router amounts path _to n i c = Ok c' ->
  Market.reachable self (registry c').
Proof.
  induction n as [|n IH]; intros i c c' Hreach; cbn [_swap_loop].
  - intros [= <-]. exact Hreach.
  - destruct (_swap_body router amounts path _to i c) as [c1|e] eqn:Hbody; cbn [rbind];
      [|intros [=]].
    apply IH. exact (_swap_body_reachable _ _ _ _ _ _ _ _ Hreach Hbody).
Qed.

(** Whatever a swap through the Router leaves of the factory and its Pairs
    is a reachable state again. *)
Lemma swapExact_reachable self router sender amountIn amountOutMin path to c amounts c' :
  Market.reachable self (registry c) ->
  swapExactTokensForTokens router sender amountIn amountOutMin path to c = Ok (amounts, c') ->
  Market.reachable self (registry c').
Proof.
  intros Hreach Hrun.
  destruct (RoutingFacts.swapExact_inv _ _ _ _ _ _ _ _ _ Hrun)
    as (_ & _ & first & second & c1 & _ & _ & Hpull & Hswap).
  assert (Hreg : registry c1 = registry c).
  { unfold token_transferFrom in Hpull.
    destruct (IERC20_transferFrom _ _ _ _ _ _) as [[l a]|]; [|discriminate].
    injection Hpull as <-. reflexivity. }
  unfold _swap in Hswap. destruct (length path =? 0)%nat; [discriminate|].
  apply (_swap_loop_reachable self _ _ _ _ _ _ _ _) in Hswap; [exact Hswap|].
  rewrite Hreg. exact Hreach.
Qed.

End MarketRouting.

(** ** What a swap writes to the token ledgers *)

Module LedgerFrame.
Import Pair Trace.

(** [swap] writes to the ledger of a token only when it pays that token out. *)
Lemma swap_ledger_frame w sender amountOut0 amountOut1 to w' t :
  swap sender amountOut0 amountOut1 to w = Ok (tt, w') ->
  (t = token0 (st w) -> amountOut0 = 0) -> (t = token1 (st w) -> amountOut1 = 0) ->
  ledger_of w' t = ledger_of w t.
Proof.
  destruct w as [[self t0 t1 fac r0 r1 tl supply bals alw] tk lg ts].
  PairFacts.unfold_call.
  destruct ((amountOut0 =? 0) && (amountOut1 =? 0)); [intros [=]|].
  destruct (N.leb_spec r0 amountOut0); [intros [=]|].
  destruct (N.leb_spec r1 amountOut1); [intros [=]|].
  cbn [orb].
  destruct (N.ltb_spec 0 amountOut0);
    [destruct (IERC20_transfer _ self to amountOut0) as [l0|]; [|intros [=]]|];
  (destruct (N.ltb_spec 0 amountOut1);
    [destruct (IERC20_transfer _ self to amountOut1) as [l1|]; [|intros [=]]|]);
  PairFacts.unfold_call;
  (rewrite (sub_ok r0 amountOut0) by lia);
  (destruct (_ <? _);
    [match goal with |- context [sub ?a ?b] => destruct (sub a b); [|intros [=]] end|]);
  (rewrite (sub_ok r1 amountOut1) by lia);
  (destruct (_ <? _);
    [match goal with |- context [sub ?a ?b] => destruct (sub a b); [|intros [=]] end|]);
  (destruct (_ && _); [intros [=]|]);
  (destruct (fee_check _ _ _ _ _ _) as [[|]|] eqn:Hfee; cbn [negb]; intros [=]; subst w');
  PairFacts.unfold_call; intros Hz0 Hz1;
  repeat (rewrite lookup_insert_ne by (intros ->; first [specialize (Hz0 eq_refl)|specialize (Hz1 eq_refl)]; lia));
  reflexivity.
Qed.

End LedgerFrame.

Module BalanceFrame.
Import Pair Trace.

Lemma IERC20_transfer_frame ledger sender to value ledger' h :
  IERC20_transfer ledger sender to value = Some ledger' ->
  h ≠ sender -> h ≠ to ->
  IERC20_balanceOf ledger' h = IERC20_balanceOf ledger h.
Proof.
  unfold IERC20_transfer. destruct (_ <=? _); [|intros [=]]. intros [= <-] Hs Ht.
  unfold IERC20_balanceOf. rewrite !lookup_insert_ne by congruence. reflexivity.
Qed.

(** The optional payout of [swap] touches the Pair and the recipient only. *)
Lemma payout_frame w token to value w' :
  (if 0 <? value then _safeTransfer token to value else ret tt) w = Ok (tt, w') ->
  st w' = st w ∧
  forall t h, h ≠ this (st w) -> h ≠ to ->
    IERC20_balanceOf (ledger_of w' t) h = IERC20_balanceOf (ledger_of w t) h.
Proof.
  destruct (0 <? value).
  - unfold _safeTransfer.
    destruct (IERC20_transfer _ _ _ _) as [l|] eqn:Hmove; [|intros [=]].
    intros [= <-]. split; [reflexivity|]. intros t h Hs Ht.
    unfold ledger_of. cbn [tokens st]. destruct (decide (t = token)) as [->|Hne].
    + rewrite lookup_insert_eq. cbn [default from_option id].
      exact (IERC20_transfer_frame _ _ _ _ _ _ Hmove Hs Ht).
    + rewrite lookup_insert_ne by congruence. reflexivity.
  - intros [= <-]. tauto.
Qed.

(** The token ledgers a successful [swap] leaves are those its two payouts
    leave. *)
Lemma swap_payouts w sender amountOut0 amountOut1 to w' :
  swap sender amountOut0 amountOut1 to w = Ok (tt, w') ->
  ∃ w1 w2,
    (if 0 <? amountOut0 then _safeTransfer (token0 (st w)) to amountOut0 else ret tt) w
      = Ok (tt, w1) ∧
    (if 0 <? amountOut1 then _safeTransfer (token1 (st w)) to amountOut1 else ret tt) w1
      = Ok (tt, w2) ∧
    tokens w' = tokens w2.
Proof.
  unfold swap.
  destruct ((amountOut0 =? 0) && (amountOut1 =? 0)); [intros [=]|].
  unfold bind at 1, getReserves, gets at 1.
  destruct ((reserve0 (st w) <=? amountOut0) || (reserve1 (st w) <=? amountOut1));
    [intros [=]|].
  unfold bind at 1, gets at 1. unfold bind at 1, gets at 1.
  unfold bind at 1, gets at 1. unfold bind at 1.
  destruct ((if 0 <? amountOut0 then _safeTransfer (token0 (st w)) to amountOut0 else ret tt) w)
    as [[[] w1]|e] eqn:E0; [|intros [=]].
  unfold bind at 1.
  destruct ((if 0 <? amountOut1 then _safeTransfer (token1 (st w)) to amountOut1 else ret tt) w1)
    as [[[] w2]|e] eqn:E1; [|intros [=]].
  intros Hrest. exists w1, w2. split; [reflexivity|]. split; [exact E1|].
  revert Hrest. generalize (this (st w)) (token0 (st w)) (token1 (st w))
    (reserve0 (st w)) (reserve1 (st w)). intros self t0 t1 r0 r1. clear E0 E1.
  destruct w2 as [[self2 t02 t12 fac2 r02 r12 tl2 supply2 bals2 alw2] tk2 lg2 ts2].
  PairFacts.unfold_call.
  destruct (sub r0 amountOut0); [|intros [=]].
  (destruct (_ <? _);
    [match goal with |- context [sub ?a ?b] => destruct (sub a b); [|intros [=]] end|]);
  (destruct (sub r1 amountOut1); [|intros [=]]);
  (destruct (_ <? _);
    [match goal with |- context [sub ?a ?b] => destruct (sub a b); [|intros [=]] end|]);
  (destruct (_ && _); [intros [=]|]);
  (destruct (fee_check _ _ _ _ _ _) as [[|]|]; cbn [negb]; intros [=]; subst w');
  reflexivity.
Qed.

(** [swap] moves tokens between the Pair and the recipient only. *)
Lemma swap_balance_frame w sender amountOut0 amountOut1 to w' t h :
  swap sender amountOut0 amountOut1 to w = Ok (tt, w') ->
  h ≠ this (st w) -> h ≠ to ->
  IERC20_balanceOf (ledger_of w' t) h = IERC20_balanceOf (ledger_of w t) h.
Proof.
  intros Hswap Hs Ht.
  destruct (swap_payouts _ _ _ _ _ _ Hswap) as (w1 & w2 & E0 & E1 & Htk).
  destruct (payout_frame _ _ _ _ _ E0) as [Hst1 H1].
  destruct (payout_frame _ _ _ _ _ E1) as [Hst2 H2].
  unfold ledger_of at 1. rewrite Htk. fold (ledger_of w2 t).
  rewrite H2 by congruence. apply H1; assumption.
Qed.

End BalanceFrame.

(** ** Reserves against custody *)

Module CustodyFacts.
Import Pair Trace.

(** The reserves a successful [burn] stores are the custody it leaves,
    narrowed to 112 bits. *)
Lemma burn_sync w sender to r w' :
  burn sender to w = Ok (r, w') -> Custody.synced w'.
Proof.
  unfold burn.
  do 7 (unfold bind at 1, gets at 1).
  unfold bind at 1, lift at 1. destruct (rbind _ _) as [amount0|e]; [|intros [=]].
  unfold bind at 1, lift at 1. destruct (rbind _ _) as [amount1|e]; [|intros [=]].
  unfold bind at 1.
  destruct (_burn _ _ w) as [[[] w1]|e] eqn:E1; [|intros [=]].
  unfold bind at 1.
  destruct (_safeTransfer _ _ _ w1) as [[[] w2]|e] eqn:E2; [|intros [=]].
  unfold bind at 1.
  destruct (_safeTransfer _ _ _ w2) as [[[] w3]|e] eqn:E3; [|intros [=]].
  pose proof (Conservation.preserves__safeTransfer
                (fun s => Storage.identity s = Storage.identity (st w1))
                _ _ _ w1 tt w2 eq_refl E2) as H2.
  pose proof (Conservation.preserves__safeTransfer
                (fun s => Storage.identity s = Storage.identity (st w1))
                _ _ _ w2 tt w3 H2 E3) as H3.
  assert (H1 : Storage.identity (st w1) = Storage.identity (st w)).
  { exact (StorageFacts.identity__burn _ _ _ w tt w1 eq_refl E1). }
  rewrite H1 in H3. unfold Storage.identity in H3. injection H3 as Hthis Ht0 Ht1 _.
  rewrite <- Hthis, <- Ht0, <- Ht1.
  destruct w3 as [[self3 t03 t13 fac3 r03 r13 tl3 supply3 bals3 alw3] tk3 lg3 ts3].
  intros [= _ <-]. split; reflexivity.
Qed.

End CustodyFacts.

(** ** A routed swap over one Pair *)

Module SingleHop.
Import Pair Routing Holdings.

Lemma single_hop_up router sender amountIn amountOutMin A B to c p :
  let pair := Router.getPair (registry c) A B in
  let q := amountIn * 997 * reserve1 p / (reserve0 p * 1000 + amountIn * 997) in
  A < B ->
  pair ≠ 0 -> Factory.deployed (registry c) !! pair = Some p ->
  this p = pair -> token0 p = A -> token1 p = B ->
  balance c A pair = reserve0 p -> balance c B pair = reserve1 p ->
  sender ≠ pair -> to ≠ pair ->
  amountIn <= balance c A sender -> amountIn <= allowed c A sender router ->
  0 < amountIn -> 0 < reserve0 p -> 0 < reserve1 p ->
  Router.fits amountIn (reserve0 p) (reserve1 p) ->
  0 < q -> amountOutMin <= q ->
  ∃ c' p', swapExactTokensForTokens router sender amountIn amountOutMin [A; B] to c
          = Ok ([amountIn; q], c') ∧
        balance c' A sender = balance c A sender - amountIn ∧
        balance c' B to = balance c B to + q ∧
        Factory.deployed (registry c') !! pair = Some p' ∧
        reserve0 p' = uint112 (reserve0 p + amountIn) ∧
        reserve1 p' = uint112 (reserve1 p - q).
Proof.
  intros pair q HAB Hpair Hp Hthis Ht0 Ht1 Hc0 Hc1 Hsender Hto Hbal Hallow
    Hin Hr0 Hr1 Hfits Hq Hmin.
  unfold swapExactTokensForTokens.
  rewrite RouterFacts.getAmountsOut_quotePath.
  cbn [Router.quotePath Router.quoteHops]. unfold Router.quoteHop.
  fold pair. destruct (N.eqb_spec pair 0) as [|_]; [contradiction|].
  unfold Router.Pair_getReserves. rewrite Hp. cbn [rbind].
  destruct (N.ltb_spec A B) as [_|]; [|lia].
  rewrite QuoteFacts.getAmountOut_value by assumption. fold q. cbn [rbind length Nat.eqb].
  cbn [Nat.sub lookup list_lookup]. cbn. 
  unfold require. destruct (N.leb_spec amountOutMin q) as [_|]; [|lia]. cbn [rbind].
  fold pair.
  (* the pull of the input token *)
  destruct (QuoteFacts.IERC20_transfer_out (default ∅ (ledgers c !! A)) sender pair amountIn
              Hbal (not_eq_sym Hsender)) as (ledger' & Hmove & Hfrom & Hinto).
  unfold token_transferFrom, IERC20_transferFrom.
  destruct (N.leb_spec amountIn (default 0 (default ∅ (approvals c !! A) !! (sender, router))))
    as [_|]; [|unfold allowed in Hallow; lia].
  rewrite Hmove. cbn [rbind registry]. fold pair.
  destruct (N.eqb_spec pair 0) as [|_]; [contradiction|].
  destruct (N.ltb_spec A B) as [_|]; [|lia]. rewrite N.eqb_refl.
  (* the call into the Pair *)
  unfold Pair_call. cbn [registry ledgers events timestamp approvals]. rewrite Hp.
  set (w := {| st := p; tokens := <[A := ledger']> (ledgers c); log := events c;
               block_timestamp := timestamp c |}).
  assert (HwA : ledger_of w A = ledger')
    by (unfold ledger_of, w; cbn [tokens]; rewrite lookup_insert_eq; reflexivity).
  assert (HwB : ledger_of w B = default ∅ (ledgers c !! B))
    by (unfold ledger_of, w; cbn [tokens]; rewrite lookup_insert_ne by lia; reflexivity).
  pose proof (QuoteFacts.swap_token1_out w router q to amountIn) as Hswap.
  assert (Hst : st w = p) by reflexivity.
  rewrite !Hst, Ht0, Ht1, Hthis, HwA, HwB in Hswap.
  destruct (QuoteFacts.fee_check_quote amountIn (reserve0 p) (reserve1 p) Hin Hr0 Hr1 Hfits)
    as [Hfee _].
  fold q in Hfee. rewrite Hfee in Hswap.
  destruct Hswap as (w' & Hrun & Hres0 & Hres1 & Hout).
  { lia. } { assumption. } { assumption. } { assumption. }
  { pose proof (QuoteFacts.quote_lt_reserve amountIn (reserve0 p) (reserve1 p) Hr0).
    fold q in H. lia. }
  { assumption. }
  { rewrite Hinto. unfold balance in Hc0. rewrite Hc0. reflexivity. }
  { exact Hc1. }
  rewrite Hrun. cbn [rbind].
  eexists _, (st w'). split; [reflexivity|].
  unfold balance. cbn [ledgers registry]. unfold set_deployed. cbn [Factory.deployed].
  pose proof (LedgerFrame.swap_ledger_frame w router 0 q to w' A Hrun) as HA.
  rewrite !Hst, Ht0, Ht1 in HA.
  fold (ledger_of w' A). fold (ledger_of w' B). rewrite HA by (intros; lia).
  rewrite HwA, Hfrom, Hout, lookup_insert_eq. tauto.
Qed.

Lemma single_hop_down router sender amountIn amountOutMin A B to c p :
  let pair := Router.getPair (registry c) A B in
  let q := amountIn * 997 * reserve0 p / (reserve1 p * 1000 + amountIn * 997) in
  B < A ->
  pair ≠ 0 -> Factory.deployed (registry c) !! pair = Some p ->
  this p = pair -> token0 p = B -> token1 p = A ->
  balance c A pair = reserve1 p -> balance c B pair = reserve0 p ->
  sender ≠ pair -> to ≠ pair ->
  amountIn <= balance c A sender -> amountIn <= allowed c A sender router ->
  0 < amountIn -> 0 < reserve0 p -> 0 < reserve1 p ->
  Router.fits amountIn (reserve1 p) (reserve0 p) ->
  0 < q -> amountOutMin <= q ->
  ∃ c' p', swapExactTokensForTokens router sender amountIn amountOutMin [A; B] to c
          = Ok ([amountIn; q], c') ∧
        balance c' A sender = balance c A sender - amountIn ∧
        balance c' B to = balance c B to + q ∧
        Factory.deployed (registry c') !! pair = Some p' ∧
        reserve0 p' = uint112 (reserve0 p - q) ∧
        reserve1 p' = uint112 (reserve1 p + amountIn).
Proof.
  intros pair q HAB Hpair Hp Hthis Ht0 Ht1 Hc0 Hc1 Hsender Hto Hbal Hallow
    Hin Hr0 Hr1 Hfits Hq Hmin.
  unfold swapExactTokensForTokens.
  rewrite RouterFacts.getAmountsOut_quotePath.
  cbn [Router.quotePath Router.quoteHops]. unfold Router.quoteHop.
  fold pair. destruct (N.eqb_spec pair 0) as [|_]; [contradiction|].
  unfold Router.Pair_getReserves. rewrite Hp. cbn [rbind].
  destruct (N.ltb_spec A B) as [|_]; [lia|].
  rewrite QuoteFacts.getAmountOut_value by assumption. fold q. cbn [rbind length Nat.eqb].
  cbn [Nat.sub lookup list_lookup]. cbn. 
  unfold require. destruct (N.leb_spec amountOutMin q) as [_|]; [|lia]. cbn [rbind].
  fold pair.
  (* the pull of the input token *)
  destruct (QuoteFacts.IERC20_transfer_out (default ∅ (ledgers c !! A)) sender pair amountIn
              Hbal (not_eq_sym Hsender)) as (ledger' & Hmove & Hfrom & Hinto).
  unfold token_transferFrom, IERC20_transferFrom.
  destruct (N.leb_spec amountIn (default 0 (default ∅ (approvals c !! A) !! (sender, router))))
    as [_|]; [|unfold allowed in Hallow; lia].
  rewrite Hmove. cbn [rbind registry]. fold pair.
  destruct (N.eqb_spec pair 0) as [|_]; [contradiction|].
  destruct (N.ltb_spec A B) as [|_]; [lia|].
  destruct (N.eqb_spec A B) as [|_]; [lia|].
  (* the call into the Pair *)
  unfold Pair_call. cbn [registry ledgers events timestamp approvals]. rewrite Hp.
  set (w := {| st := p; tokens := <[A := ledger']> (ledgers c); log := events c;
               block_timestamp := timestamp c |}).
  assert (HwA : ledger_of w A = ledger')
    by (unfold ledger_of, w; cbn [tokens]; rewrite lookup_insert_eq; reflexivity).
  assert (HwB : ledger_of w B = default ∅ (ledgers c !! B))
    by (unfold ledger_of, w; cbn [tokens]; rewrite lookup_insert_ne by lia; reflexivity).
  pose proof (QuoteFacts.swap_token0_out w router q to amountIn) as Hswap.
  assert (Hst : st w = p) by reflexivity.
  rewrite !Hst, Ht0, Ht1, Hthis, HwA, HwB in Hswap.
  destruct (QuoteFacts.fee_check_quote amountIn (reserve1 p) (reserve0 p) Hin Hr1 Hr0 Hfits)
    as [Hfee _].
  fold q in Hfee. rewrite QuoteFacts.fee_check_sym in Hfee. rewrite Hfee in Hswap.
  destruct Hswap as (w' & Hrun & Hres0 & Hres1 & Hout).
  { lia. } { assumption. } { assumption. } { assumption. }
  { pose proof (QuoteFacts.quote_lt_reserve amountIn (reserve1 p) (reserve0 p) Hr1).
    fold q in H. lia. }
  { assumption. }
  { rewrite Hinto. unfold balance in Hc0. rewrite Hc0. reflexivity. }
  { exact Hc1. }
  rewrite Hrun. cbn [rbind].
  eexists _, (st w'). split; [reflexivity|].
  unfold balance. cbn [ledgers registry]. unfold set_deployed. cbn [Factory.deployed].
  pose proof (LedgerFrame.swap_ledger_frame w router q 0 to w' A Hrun) as HA.
  rewrite !Hst, Ht0, Ht1 in HA.
  fold (ledger_of w' A). fold (ledger_of w' B). rewrite HA by (intros; lia).
  rewrite HwA, Hfrom, Hout, lookup_insert_eq. tauto.
Qed.


End SingleHop.

(** ** Bystanders of a routed swap *)

Module BystanderFacts.
Import Routing Frame Holdings.

Lemma self_aware_frame f f' :
  same_but_reserves f f' -> self_aware f -> self_aware f'.
Proof.
  intros (_ & _ & _ & Hd) Hself pair p' Hp'. specialize (Hd pair).
  rewrite Hp' in Hd. destruct (Factory.deployed f !! pair) as [p|] eqn:Hp; [|contradiction].
  destruct Hd as [Hid _]. unfold Storage.identity in Hid.
  injection Hid as Hthis _ _ _. rewrite Hthis. exact (Hself _ _ Hp).
Qed.

Lemma getPair_frame f f' a b :
  same_but_reserves f f' -> Router.getPair f' a b = Router.getPair f a b.
Proof.
  intros (_ & Hg & _ & _). unfold Router.getPair, Factory.getPair_at. rewrite Hg. reflexivity.
Qed.

Lemma Pair_call_swap_balance pair router amount0Out amount1Out to c c' t h :
  Pair_call pair (Pair.swap router amount0Out amount1Out to) c = Ok (tt, c') ->
  self_aware (registry c) -> h ≠ pair -> h ≠ to ->
  balance c' t h = balance c t h.
Proof.
  unfold Pair_call.
  destruct (Factory.deployed (registry c) !! pair) as [p|] eqn:Hp; [|intros [=]].
  destruct (Pair.swap _ _ _ _ _) as [[[] w']|e] eqn:Hswap; intros [= <-].
  intros Hself Hpair Hto. unfold balance. cbn [ledgers].
  apply (BalanceFrame.swap_balance_frame _ _ _ _ _ _ t h Hswap); [|assumption].
  cbn [Pair.st]. rewrite (Hself _ _ Hp). assumption.
Qed.

Lemma _swap_body_balance router amounts path _to i c c' t h :
  _swap_body router amounts path _to i c = Ok c' ->
  self_aware (registry c) -> (forall a b, Router.getPair (registry c) a b ≠ h) -> h ≠ _to ->
  balance c' t h = balance c t h.
Proof.
  unfold _swap_body. intros Hrun Hself Hreg Hto. revert Hrun.
  destruct (path !! i) as [input|]; [|intros [=]].
  destruct (path !! (i + 1)%nat) as [output|]; [|intros [=]].
  destruct (_ =? 0); [intros [=]|].
  destruct (input <? output);
    (destruct (amounts !! (i + 1)%nat) as [amountOut|]; [|intros [=]]);
    (destruct (input =? _));
    (destruct (i <? length path - 2)%nat;
       [destruct (path !! (i + 2)%nat) as [next|]; cbn [rbind]; [|intros [=]]
       |cbn [rbind]]);
    (destruct (Pair_call _ _ c) as [[[] c1]|e] eqn:Hcall; cbn [rbind]; intros [= <-]);
    apply (Pair_call_swap_balance _ _ _ _ _ _ _ t h Hcall Hself);
    solve [apply not_eq_sym, Hreg | assumption].
Qed.

Lemma _swap_loop_balance router amounts path _to t h n : forall i c c',
  _swap_loop router amounts path _to n i c = Ok c' ->
  self_aware (registry c) -> (forall a b, Router.getPair (registry c) a b ≠ h) -> h ≠ _to ->
  balance c' t h = balance c t h.
Proof.
  induction n as [|n IH]; intros i c c'; cbn [_swap_loop].
  - intros [= <-]. reflexivity.
  - destruct (_swap_body router amounts path _to i c) as [c1|e] eqn:Hbody; cbn [rbind];
      [|intros [=]].
    intros Hrest Hself Hreg Hto.
    destruct (RoutingFacts._swap_body_frame _ _ _ _ _ _ _ Hbody) as [Hsame _].
    rewrite (IH _ _ _ Hrest).
    + exact (_swap_body_balance _ _ _ _ _ _ _ t h Hbody Hself Hreg Hto).
    + exact (self_aware_frame _ _ Hsame Hself).
    + intros a b. rewrite (getPair_frame _ _ a b Hsame). apply Hreg.
    + assumption.
Qed.

Lemma token_transferFrom_balance token spender from to value c c' t h :
  token_transferFrom token spender from to value c = Ok c' ->
  h ≠ from -> h ≠ to ->
  registry c' = registry c ∧ balance c' t h = balance c t h.
Proof.
  unfold token_transferFrom, IERC20_transferFrom.
  destruct (_ <=? _); [|intros [=]].
  destruct (IERC20_transfer _ _ _ _) as [l|] eqn:Hmove; [|intros [=]].
  intros [= <-] Hf Ht. split; [reflexivity|]. unfold balance. cbn [ledgers].
  destruct (decide (t = token)) as [->|Hne].
  - rewrite lookup_insert_eq. cbn [default from_option id].
    exact (BalanceFrame.IERC20_transfer_frame _ _ _ _ _ _ Hmove Hf Ht).
  - rewrite lookup_insert_ne by congruence. reflexivity.
Qed.

(** A routed swap moves tokens between the sender, the Pairs and the
    recipient; whoever else holds tokens holds the same afterwards. *)
Lemma swapExact_balance router sender amountIn amountOutMin path to c amounts c' t h :
  swapExactTokensForTokens router sender amountIn amountOutMin path to c = Ok (amounts, c') ->
  self_aware (registry c) -> (forall a b, Router.getPair (registry c) a b ≠ h) ->
  h ≠ sender -> h ≠ to ->
  balance c' t h = balance c t h.
Proof.
  intros Hrun Hself Hreg Hsender Hto.
  destruct (RoutingFacts.swapExact_inv _ _ _ _ _ _ _ _ _ Hrun)
    as (_ & _ & first & second & c1 & _ & _ & Hpull & Hswap).
  destruct (token_transferFrom_balance _ _ _ _ _ _ _ t h Hpull Hsender
              (not_eq_sym (Hreg first second))) as [Hr1 Hb1].
  unfold _swap in Hswap. destruct (length path =? 0)%nat; [discriminate|].
  rewrite <- Hb1. apply (_swap_loop_balance _ _ _ _ t h _ _ _ _ Hswap).
  - rewrite Hr1. assumption.
  - rewrite Hr1. assumption.
  - assumption.
Qed.

End BystanderFacts.

(** ** The event log and the clock *)

Module EventFacts.
Import Pair Trace.

Lemma lift_inv {A} (r : Result A) w a w' : lift r w = Ok (a, w') -> r = Ok a ∧ w' = w.
Proof. unfold lift. destruct r; intros [=]. subst. tauto. Qed.

Lemma _mint_log to value w w' :
  _mint to value w = Ok (tt, w') ->
  log w' = log w ++ [Transfer 0 to value] ∧ block_timestamp w' = block_timestamp w.
Proof.
  destruct w as [s tk lg ts]. unfold _mint.
  unfold bind at 1, gets at 1. unfold bind at 1, lift at 1.
  destruct (add _ _); [|intros [=]].
  unfold bind at 1, modify at 1. unfold bind at 1, gets at 1. unfold bind at 1, lift at 1.
  destruct (add _ _); intros [= <-]. split; reflexivity.
Qed.

Lemma _burn_log from value w w' :
  _burn from value w = Ok (tt, w') ->
  log w' = log w ++ [Transfer from 0 value] ∧ block_timestamp w' = block_timestamp w.
Proof.
  destruct w as [s tk lg ts]. unfold _burn.
  unfold bind at 1, gets at 1. unfold bind at 1, lift at 1.
  destruct (sub _ _); [|intros [=]].
  unfold bind at 1, modify at 1. unfold bind at 1, gets at 1. unfold bind at 1, lift at 1.
  destruct (sub _ _); intros [= <-]. split; reflexivity.
Qed.

Lemma _safeTransfer_log token to value w w' :
  _safeTransfer token to value w = Ok (tt, w') ->
  log w' = log w ∧ block_timestamp w' = block_timestamp w.
Proof.
  unfold _safeTransfer. destruct (IERC20_transfer _ _ _ _); intros [= <-].
  split; reflexivity.
Qed.

(** [_update] reports in [Sync] the reserves it has stored, and stamps them
    with the time of the block, narrowed to 32 bits. *)
Lemma _update_log balance0 balance1 w w' :
  _update balance0 balance1 w = Ok (tt, w') ->
  log w' = log w ++ [Sync (reserve0 (st w')) (reserve1 (st w'))] ∧
  blockTimestampLast (st w') = uint32 (block_timestamp w) ∧
  block_timestamp w' = block_timestamp w.
Proof. destruct w as [s tk lg ts]. intros [= <-]. repeat split. Qed.

Lemma approve_log sender spender value w r w' :
  approve sender spender value w = Ok (r, w') ->
  log w' = log w ++ [Approval sender spender value].
Proof. destruct w as [s tk lg ts]. intros [= _ <-]. reflexivity. Qed.

Lemma transfer_log sender to value w r w' :
  transfer sender to value w = Ok (r, w') ->
  log w' = log w ++ [Transfer sender to value].
Proof.
  destruct w as [s tk lg ts]. unfold transfer.
  unfold bind at 1, gets at 1. unfold bind at 1, lift at 1.
  destruct (sub _ _); [|intros [=]].
  unfold bind at 1, modify at 1. unfold bind at 1, gets at 1. unfold bind at 1, lift at 1.
  destruct (add _ _); intros [= _ <-]. reflexivity.
Qed.

Lemma transferFrom_log sender from to value w r w' :
  transferFrom sender from to value w = Ok (r, w') ->
  log w' = log w ++ [Transfer from to value].
Proof.
  destruct w as [s tk lg ts]. unfold transferFrom.
  unfold bind at 1, gets at 1. unfold bind at 1.
  destruct (negb _).
  - unfold bind at 1, lift at 1. destruct (sub _ _); [|intros [=]].
    unfold modify at 1.
    unfold bind at 1, gets at 1. unfold bind at 1, lift at 1.
    destruct (sub _ _); [|intros [=]].
    unfold bind at 1, modify at 1. unfold bind at 1, gets at 1. unfold bind at 1, lift at 1.
    destruct (add _ _); intros [= _ <-]. reflexivity.
  - unfold ret at 1.
    unfold bind at 1, gets at 1. unfold bind at 1, lift at 1.
    destruct (sub _ _); [|intros [=]].
    unfold bind at 1, modify at 1. unfold bind at 1, gets at 1. unfold bind at 1, lift at 1.
    destruct (add _ _); intros [= _ <-]. reflexivity.
Qed.

Lemma mint_log sender to w liquidity w' :
  mint sender to w = Ok (liquidity, w') ->
  log w' = log w ++
    [Transfer 0 to liquidity;
     Sync (reserve0 (st w')) (reserve1 (st w'));
     Mint sender
       (IERC20_balanceOf (ledger_of w (token0 (st w))) (this (st w)) - reserve0 (st w))
       (IERC20_balanceOf (ledger_of w (token1 (st w))) (this (st w)) - reserve1 (st w))
       to] ∧
  blockTimestampLast (st w') = uint32 (block_timestamp w).
Proof.
  unfold mint.
  unfold bind at 1, getReserves, gets at 1.
  unfold bind at 1, gets at 1. unfold bind at 1, gets at 1. unfold bind at 1, gets at 1.
  unfold bind at 1, token_balanceOf at 1. unfold bind at 1, token_balanceOf at 1.
  unfold bind at 1, lift at 1. unfold sub at 1.
  destruct (_ <=? _); [|intros [=]].
  unfold bind at 1, lift at 1. unfold sub at 1.
  destruct (_ <=? _); [|intros [=]].
  destruct (_ || _); [intros [=]|].
  unfold bind at 1, gets at 1. unfold bind at 1.
  match goal with
  | |- match ?m w with _ => _ end = _ -> _ =>
      destruct (m w) as [[l w0]|e] eqn:El; [|intros [=]]
  end.
  assert (w0 = w) as ->.
  { destruct (totalSupply (st w) =? 0); apply lift_inv in El; tauto. }
  clear El. destruct (l =? 0); [intros [=]|].
  unfold bind at 1. destruct (_mint to l w) as [[[] w1]|e] eqn:E1; [|intros [=]].
  unfold bind at 1. destruct (_update _ _ w1) as [[[] w2]|e] eqn:E2; [|intros [=]].
  intros [= <- <-]. cbn [log st].
  destruct (_update_log _ _ _ _ E2) as (-> & -> & _).
  destruct (_mint_log _ _ _ _ E1) as [-> ->].
  rewrite <- !app_assoc. split; reflexivity.
Qed.

Lemma burn_log sender to w amount0 amount1 w' :
  burn sender to w = Ok ((amount0, amount1), w') ->
  log w' = log w ++
    [Transfer (this (st w)) 0 (balanceOf_at (st w) (this (st w)));
     Sync (reserve0 (st w')) (reserve1 (st w'));
     Burn sender amount0 amount1 to] ∧
  blockTimestampLast (st w') = uint32 (block_timestamp w).
Proof.
  unfold burn.
  do 7 (unfold bind at 1, gets at 1).
  unfold bind at 1, lift at 1. destruct (rbind _ _) as [a0|e]; [|intros [=]].
  unfold bind at 1, lift at 1. destruct (rbind _ _) as [a1|e]; [|intros [=]].
  unfold bind at 1.
  destruct (_burn _ _ w) as [[[] w1]|e] eqn:E1; [|intros [=]].
  unfold bind at 1.
  destruct (_safeTransfer _ _ _ w1) as [[[] w2]|e] eqn:E2; [|intros [=]].
  unfold bind at 1.
  destruct (_safeTransfer _ _ _ w2) as [[[] w3]|e] eqn:E3; [|intros [=]].
  unfold bind at 1, token_balanceOf at 1. unfold bind at 1, token_balanceOf at 1.
  unfold bind at 1. destruct (_update _ _ w3) as [[[] w4]|e] eqn:E4; [|intros [=]].
  intros [= <- <- <-]. cbn [log st].
  destruct (_update_log _ _ _ _ E4) as (-> & -> & _).
  destruct (_safeTransfer_log _ _ _ _ _ E3) as [-> ->].
  destruct (_safeTransfer_log _ _ _ _ _ E2) as [-> ->].
  destruct (_burn_log _ _ _ _ E1) as [-> ->].
  rewrite <- !app_assoc. split; reflexivity.
Qed.

Lemma swap_log sender amountOut0 amountOut1 to w w' :
  swap sender amountOut0 amountOut1 to w = Ok (tt, w') ->
  log w' = log w ++
    [Sync (reserve0 (st w')) (reserve1 (st w'));
     Swap sender
       (IERC20_balanceOf (ledger_of w' (token0 (st w))) (this (st w))
          - (reserve0 (st w) - amountOut0))
       (IERC20_balanceOf (ledger_of w' (token1 (st w))) (this (st w))
          - (reserve1 (st w) - amountOut1))
       amountOut0 amountOut1 to] ∧
  blockTimestampLast (st w') = uint32 (block_timestamp w).
Proof.
  destruct w as [[self t0 t1 fac r0 r1 tl supply bals alw] tk lg ts].
  PairFacts.unfold_call.
  destruct ((amountOut0 =? 0) && (amountOut1 =? 0)); [intros [=]|].
  destruct (N.leb_spec r0 amountOut0); [intros [=]|].
  destruct (N.leb_spec r1 amountOut1); [intros [=]|].
  cbn [orb].
  destruct (0 <? amountOut0);
    [destruct (IERC20_transfer _ self to amountOut0) as [l0|]; [|intros [=]]|];
  (destruct (0 <? amountOut1);
    [destruct (IERC20_transfer _ self to amountOut1) as [l1|]; [|intros [=]]|]);
  PairFacts.unfold_call;
  (rewrite (sub_ok r0 amountOut0) by lia);
  (match goal with
   | |- context [if ?a <? ?b then _ else _] =>
       destruct (N.ltb_spec a b);
         [rewrite (sub_ok b a) by lia|]
   end);
  (rewrite (sub_ok r1 amountOut1) by lia);
  (match goal with
   | |- context [if ?a <? ?b then _ else _] =>
       destruct (N.ltb_spec a b);
         [rewrite (sub_ok b a) by lia|]
   end);
  (destruct (_ && _); [intros [=]|]);
  (destruct (fee_check _ _ _ _ _ _) as [[|]|] eqn:Hfee; cbn [negb]; intros [=]; subst w');
  PairFacts.unfold_call; rewrite <- !app_assoc;
  repeat match goal with
  | Hle : ?a <= ?b |- context [?a - ?b] => replace (a - b) with 0 by lia
  end;
  split; reflexivity.
Qed.

End EventFacts.

(** ** The event of the Factory *)

Module RegistryLog.
Import Factory.

(** The event of a successful [createPair] names the tokens in ascending
    order, the new contract, and the length the list has reached. *)
Lemma createPair_log created tokenA tokenB s pair s' :
  createPair created tokenA tokenB s = Ok (pair, s') ->
  log s' = log s ++ [PairCreated (N.min tokenA tokenB) (N.max tokenA tokenB) pair
                       (allPairsLength s')].
Proof.
  unfold createPair, require.
  destruct (N.eqb_spec tokenA tokenB); [intros [=]|]. cbn [negb rbind].
  destruct (N.ltb_spec tokenA tokenB) as [Hlt|Hge];
    [rewrite N.min_l, N.max_r by lia | rewrite N.min_r, N.max_l by lia];
    (destruct (negb _); cbn [rbind]; [|intros [=]]);
    (destruct (_ =? 0); cbn [rbind]; intros [= <- <-]); reflexivity.
Qed.

End RegistryLog.

(** * The rest of the contracts: properties *)

Module Further.
Import Pair Trace Examples.

(** ** Liquidity shares as a token *)

(** X1 (Pair.transfer).  On a Pair whose shares add up to a [totalSupply]
    within 256 bits, [transfer] of at most the sender's balance returns
    [true], takes [value] from the sender and gives it to [to] (nothing
    moves when the two are the same), and leaves every other balance, the
    total supply, the allowances, the reserves, the immutables and the token
    ledgers as they were; a [transfer] of more than the sender's balance
    fails with the arithmetic panic of the checked subtraction. *)
Theorem transfer_moves_shares w sender to value :
  conserved (st w) -> totalSupply (st w) <= MAX_UINT256 ->
  (value <= balanceOf_at (st w) sender ->
   ∃ w', transfer sender to value w = Ok (true, w') ∧
         Storage.identity (st w') = Storage.identity (st w) ∧
         (reserve0 (st w'), reserve1 (st w')) = (reserve0 (st w), reserve1 (st w)) ∧
         totalSupply (st w') = totalSupply (st w) ∧
         allowance (st w') = allowance (st w) ∧
         tokens w' = tokens w ∧
         forall a, balanceOf_at (st w') a =
                   if decide (sender = to) then balanceOf_at (st w) a
                   else if decide (a = sender) then balanceOf_at (st w) a - value
                   else if decide (a = to) then balanceOf_at (st w) a + value
                   else balanceOf_at (st w) a) ∧
  (balanceOf_at (st w) sender < value ->
   transfer sender to value w = Revert ArithmeticOverflow).
Proof.
  intros Hcons Hsupply. split.
  - intros Hle. exact (ShareFacts.transfer_ok w sender to value Hcons Hsupply Hle).
  - apply ShareFacts.transfer_short.
Qed.

(** The provider of [funded] holds 1000 shares and sends 400 of them to the
    holder at address 8. *)
Lemma transfer_moves_shares_witness :
  ∃ w', transfer 7 8 400 (world funded 1000 1000) = Ok (true, w') ∧
        balanceOf_at (st w') 7 = 600 ∧ balanceOf_at (st w') 8 = 400.
Proof.
  destruct (transfer_moves_shares (world funded 1000 1000) 7 8 400) as [Hok _].
  - vm_compute. reflexivity.
  - vm_compute. discriminate.
  - destruct Hok as (w' & Hrun & _ & _ & _ & _ & _ & Hbal).
    + vm_compute. discriminate.
    + exists w'. split; [exact Hrun|]. rewrite !Hbal. split; vm_compute; reflexivity.
Defined.

(** X2 (Pair.transferFrom).  With shares that add up to a [totalSupply]
    within 256 bits, [transferFrom] by a spender whose allowance and whose
    owner's balance both cover [value] returns [true], moves [value] shares
    from [from] to [to], and charges the allowance: an allowance of
    [2^256 - 1] stays as it is, any other goes down by [value]; no other
    allowance, no other balance, and nothing else of the storage or the
    token ledgers changes.  If the allowance or the balance is short, the
    call fails with the arithmetic panic. *)
Theorem transferFrom_spends_allowance w sender from to value :
  conserved (st w) -> totalSupply (st w) <= MAX_UINT256 ->
  (value <= allowance_at (st w) from sender -> value <= balanceOf_at (st w) from ->
   ∃ w', transferFrom sender from to value w = Ok (true, w') ∧
         Storage.identity (st w') = Storage.identity (st w) ∧
         (reserve0 (st w'), reserve1 (st w')) = (reserve0 (st w), reserve1 (st w)) ∧
         totalSupply (st w') = totalSupply (st w) ∧
         tokens w' = tokens w ∧
         (forall o sp,
            allowance_at (st w') o sp =
            if decide ((o, sp) = (from, sender)) then
              if allowance_at (st w) from sender =? MAX_UINT256 then MAX_UINT256
              else allowance_at (st w) from sender - value
            else allowance_at (st w) o sp) ∧
         forall a, balanceOf_at (st w') a =
                   if decide (from = to) then balanceOf_at (st w) a
                   else if decide (a = from) then balanceOf_at (st w) a - value
                   else if decide (a = to) then balanceOf_at (st w) a + value
                   else balanceOf_at (st w) a) ∧
  (allowance_at (st w) from sender < value ∨ balanceOf_at (st w) from < value ->
   transferFrom sender from to value w = Revert ArithmeticOverflow).
Proof.
  intros Hcons Hsupply. split.
  - intros Hallow Hbal.
    exact (ShareFacts.transferFrom_ok w sender from to value Hcons Hsupply Hallow Hbal).
  - exact (ShareFacts.transferFrom_short w sender from to value Hcons Hsupply).
Qed.

(** The provider of [funded] has approved 300 shares to the spender at
    address 9: the spender moves 100 of the provider's 1000 shares to
    address 8 and is left with an allowance of 200, and cannot move 301.
    Had the provider approved [2^256 - 1], the allowance would be what it
    was. *)
Lemma transferFrom_spends_allowance_witness :
  let s := run funded [mkTx (custody 1000 1000) 11 (CallApprove 7 9 300)] in
  let s' := run funded [mkTx (custody 1000 1000) 11 (CallApprove 7 9 MAX_UINT256)] in
  (∃ w', transferFrom 9 7 8 100 (world s 1000 1000) = Ok (true, w') ∧
         allowance_at (st w') 7 9 = 200 ∧
         balanceOf_at (st w') 7 = 900 ∧ balanceOf_at (st w') 8 = 100) ∧
  transferFrom 9 7 8 301 (world s 1000 1000) = Revert ArithmeticOverflow ∧
  (∃ w', transferFrom 9 7 8 100 (world s' 1000 1000) = Ok (true, w') ∧
         allowance_at (st w') 7 9 = MAX_UINT256).
Proof.
  intros s s'.
  destruct (transferFrom_spends_allowance (world s 1000 1000) 9 7 8 100) as [Hok _];
    [vm_compute; reflexivity | vm_compute; discriminate|].
  destruct (transferFrom_spends_allowance (world s 1000 1000) 9 7 8 301) as [_ Hshort];
    [vm_compute; reflexivity | vm_compute; discriminate|].
  destruct (transferFrom_spends_allowance (world s' 1000 1000) 9 7 8 100) as [Hmax _];
    [vm_compute; reflexivity | vm_compute; discriminate|].
  split; [|split].
  - destruct Hok as (w' & Hrun & _ & _ & _ & _ & Hallow & Hbal).
    + vm_compute. discriminate.
    + vm_compute. discriminate.
    + exists w'. split; [exact Hrun|]. rewrite Hallow, !Hbal.
      repeat split; vm_compute; reflexivity.
  - apply Hshort. left. vm_compute. reflexivity.
  - destruct Hmax as (w' & Hrun & _ & _ & _ & _ & Hallow & _).
    + vm_compute. discriminate.
    + vm_compute. discriminate.
    + exists w'. split; [exact Hrun|]. rewrite Hallow. vm_compute. reflexivity.
Defined.

(** X3 (Pair.approve, Pair.transferFrom).  [approve] always succeeds and
    sets the allowance to [value]; the spender can then move any [amount] up
    to [value] that the owner holds, after which the allowance is
    [value - amount] (or still [2^256 - 1] when that was approved), and,
    unless the allowance was [2^256 - 1], moving more than what is left
    fails: a finite allowance bounds what the spender moves in total. *)
Theorem approve_then_transferFrom w owner spender to value amount :
  conserved (st w) -> totalSupply (st w) <= MAX_UINT256 ->
  amount <= value -> amount <= balanceOf_at (st w) owner ->
  ∃ w1 w2,
    approve owner spender value w = Ok (true, w1) ∧
    transferFrom spender owner to amount w1 = Ok (true, w2) ∧
    allowance_at (st w2) owner spender =
      (if value =? MAX_UINT256 then MAX_UINT256 else value - amount) ∧
    (forall a, balanceOf_at (st w2) a =
               if decide (owner = to) then balanceOf_at (st w) a
               else if decide (a = owner) then balanceOf_at (st w) a - amount
               else if decide (a = to) then balanceOf_at (st w) a + amount
               else balanceOf_at (st w) a) ∧
    (value ≠ MAX_UINT256 ->
     forall to' more, value - amount < more ->
       transferFrom spender owner to' more w2 = Revert ArithmeticOverflow).
Proof.
  intros Hcons Hsupply Hamount Hbal.
  destruct (ShareFacts.approve_ok w owner spender value)
    as (w1 & Happrove & _ & _ & Hs1 & Hb1 & _ & Ha1).
  assert (Hcons1 : conserved (st w1)).
  { unfold conserved, sum_balanceOf in *. rewrite Hb1, Hs1. exact Hcons. }
  assert (Hat : forall a, balanceOf_at (st w1) a = balanceOf_at (st w) a).
  { intros a. unfold balanceOf_at. rewrite Hb1. reflexivity. }
  assert (Hallow1 : allowance_at (st w1) owner spender = value).
  { rewrite Ha1. rewrite decide_True by reflexivity. reflexivity. }
  destruct (ShareFacts.transferFrom_ok w1 spender owner to amount)
    as (w2 & Hmove & _ & _ & Hs2 & _ & Ha2 & Hb2).
  { exact Hcons1. } { rewrite Hs1. exact Hsupply. }
  { rewrite Hallow1. exact Hamount. } { rewrite Hat. exact Hbal. }
  assert (Hallow2 : allowance_at (st w2) owner spender =
                    if value =? MAX_UINT256 then MAX_UINT256 else value - amount).
  { rewrite Ha2. rewrite decide_True by reflexivity. rewrite Hallow1. reflexivity. }
  exists w1, w2. split; [exact Happrove|]. split; [exact Hmove|].
  split; [exact Hallow2|]. split.
  - intros a. rewrite Hb2, !Hat. reflexivity.
  - intros Hfinite to' more Hmore. apply ShareFacts.transferFrom_short.
    + exact (Conservation.conserved_transferFrom _ _ _ _ _ _ _ Hcons1 Hmove).
    + rewrite Hs2, Hs1. exact Hsupply.
    + left. rewrite Hallow2. destruct (N.eqb_spec value MAX_UINT256); [contradiction|].
      exact Hmore.
Qed.

(** The provider of [funded] approves 300 shares to the spender at address
    9, who moves 100 of them to address 8 and keeps an allowance of 200. *)
Lemma approve_then_transferFrom_witness :
  ∃ w1 w2,
    approve 7 9 300 (world funded 1000 1000) = Ok (true, w1) ∧
    transferFrom 9 7 8 100 w1 = Ok (true, w2) ∧
    allowance_at (st w2) 7 9 = 200 ∧
    transferFrom 9 7 8 201 w2 = Revert ArithmeticOverflow.
Proof.
  destruct (approve_then_transferFrom (world funded 1000 1000) 7 9 8 300 100)
    as (w1 & w2 & Happrove & Hmove & Hallow & _ & Hcap).
  - vm_compute. reflexivity.
  - vm_compute. discriminate.
  - vm_compute. discriminate.
  - vm_compute. discriminate.
  - exists w1, w2. split; [exact Happrove|]. split; [exact Hmove|].
    split; [exact Hallow|]. apply Hcap.
    + vm_compute. discriminate.
    + vm_compute. reflexivity.
Defined.

(** ** Adding and removing liquidity *)

(** X4 (Pair.mint, Pair.min).  On a Pair that already has shares and
    reserves, a deposit of [amount0] and [amount1] on top of the reserves
    mints [min (amount0 * totalSupply / reserve0) (amount1 * totalSupply /
    reserve1)] shares to [to], provided that number is positive and the
    products and the new supply fit 256 bits.  The shares minted are worth
    no more than either side of the deposit at the old ratio
    ([liquidity * reserve_i <= amount_i * totalSupply]), so the holders
    before are not diluted; only the balance of [to], the total supply and
    the reserves change. *)
Theorem later_deposit_is_proportional w sender to amount0 amount1 :
  conserved (st w) ->
  0 < totalSupply (st w) -> 0 < reserve0 (st w) -> 0 < reserve1 (st w) ->
  IERC20_balanceOf (ledger_of w (token0 (st w))) (this (st w)) = reserve0 (st w) + amount0 ->
  IERC20_balanceOf (ledger_of w (token1 (st w))) (this (st w)) = reserve1 (st w) + amount1 ->
  0 < amount0 -> 0 < amount1 ->
  amount0 * totalSupply (st w) <= MAX_UINT256 ->
  amount1 * totalSupply (st w) <= MAX_UINT256 ->
  let liquidity := min (amount0 * totalSupply (st w) / reserve0 (st w))
                       (amount1 * totalSupply (st w) / reserve1 (st w)) in
  0 < liquidity -> totalSupply (st w) + liquidity <= MAX_UINT256 ->
  ∃ w', mint sender to w = Ok (liquidity, w') ∧
        liquidity * reserve0 (st w) <= amount0 * totalSupply (st w) ∧
        liquidity * reserve1 (st w) <= amount1 * totalSupply (st w) ∧
        totalSupply (st w') = totalSupply (st w) + liquidity ∧
        (forall a, balanceOf_at (st w') a =
                   if decide (a = to) then balanceOf_at (st w) a + liquidity
                   else balanceOf_at (st w) a) ∧
        reserve0 (st w') = uint112 (reserve0 (st w) + amount0) ∧
        reserve1 (st w') = uint112 (reserve1 (st w) + amount1) ∧
        Storage.identity (st w') = Storage.identity (st w) ∧
        allowance (st w') = allowance (st w) ∧
        tokens w' = tokens w.
Proof.
  intros Hcons Hs Hr0 Hr1 Hc0 Hc1 Ha0 Ha1 Hm0 Hm1 liquidity Hl Hfit.
  destruct (LiquidityFacts.mint_proportional w sender to amount0 amount1
              Hcons Hs Hr0 Hr1 Hc0 Hc1 Ha0 Ha1 Hm0 Hm1 Hl Hfit) as (w' & Hmint).
  destruct (LiquidityFacts.mint_effect w sender to _ w' Hmint)
    as (_ & _ & _ & _ & Hsupply & Hbal & Hres0 & Hres1 & Hid & Hallow & Htok).
  destruct (LiquidityFacts.min_proportion amount0 amount1 (totalSupply (st w))
              (reserve0 (st w)) (reserve1 (st w))) as [Hw0 Hw1].
  rewrite Hc0 in Hres0. rewrite Hc1 in Hres1.
  exists w'. repeat split; assumption.
Qed.

(** [funded] has 1000 shares on reserves 1000 and 1000; a deposit of 500 and
    200 is valued at the worse ratio and mints 200 shares. *)
Lemma later_deposit_is_proportional_witness :
  ∃ w', mint 7 8 (world funded 1500 1200) = Ok (200, w') ∧
        totalSupply (st w') = 1200 ∧ balanceOf_at (st w') 8 = 200.
Proof.
  destruct (later_deposit_is_proportional (world funded 1500 1200) 7 8 500 200)
    as (w' & Hmint & _ & _ & Hsupply & Hbal & _).
  - vm_compute. reflexivity.
  - vm_compute. reflexivity.
  - vm_compute. reflexivity.
  - vm_compute. reflexivity.
  - vm_compute. reflexivity.
  - vm_compute. reflexivity.
  - reflexivity.
  - reflexivity.
  - vm_compute. discriminate.
  - vm_compute. discriminate.
  - vm_compute. reflexivity.
  - vm_compute. discriminate.
  - exists w'. split; [exact Hmint|]. split; [exact Hsupply|].
    rewrite Hbal. vm_compute. reflexivity.
Defined.

(** X5 (Pair.mint).  A deposit that adds nothing to one of the two reserves
    is refused with [InsufficientLiquidity], whatever it adds to the
    other. *)
Theorem one_sided_deposit_rejected w sender to :
  reserve0 (st w) <= IERC20_balanceOf (ledger_of w (token0 (st w))) (this (st w)) ->
  reserve1 (st w) <= IERC20_balanceOf (ledger_of w (token1 (st w))) (this (st w)) ->
  IERC20_balanceOf (ledger_of w (token0 (st w))) (this (st w)) = reserve0 (st w) ∨
  IERC20_balanceOf (ledger_of w (token1 (st w))) (this (st w)) = reserve1 (st w) ->
  mint sender to w = Revert InsufficientLiquidity.
Proof. exact (LiquidityFacts.mint_one_sided w sender to). Qed.

(** 500 more of token 1 and nothing of token 2 on [funded]. *)
Lemma one_sided_deposit_rejected_witness :
  mint 7 8 (world funded 1500 1000) = Revert InsufficientLiquidity.
Proof.
  apply one_sided_deposit_rejected.
  - vm_compute. discriminate.
  - vm_compute. discriminate.
  - right. vm_compute. reflexivity.
Defined.

(** X6 (Pair.burn).  [burn] redeems the shares the Pair holds of itself:
    with [liquidity] such shares it pays [liquidity * reserve_i /
    totalSupply] of each token to [to], never more than the reserve,
    destroys the shares (the Pair's share balance becomes 0 and the total
    supply falls by [liquidity]), and stores what is left in custody as the
    new reserves; no other share balance, no allowance and no immutable
    changes.  The products must fit 256 bits and the custody must cover the
    payouts. *)
Theorem burn_pays_pro_rata w sender to :
  conserved (st w) -> 0 < totalSupply (st w) ->
  token0 (st w) ≠ token1 (st w) -> to ≠ this (st w) ->
  let liquidity := balanceOf_at (st w) (this (st w)) in
  let amount0 := liquidity * reserve0 (st w) / totalSupply (st w) in
  let amount1 := liquidity * reserve1 (st w) / totalSupply (st w) in
  let balance0 := IERC20_balanceOf (ledger_of w (token0 (st w))) (this (st w)) in
  let balance1 := IERC20_balanceOf (ledger_of w (token1 (st w))) (this (st w)) in
  liquidity * reserve0 (st w) <= MAX_UINT256 ->
  liquidity * reserve1 (st w) <= MAX_UINT256 ->
  amount0 <= balance0 -> amount1 <= balance1 ->
  ∃ w', burn sender to w = Ok ((amount0, amount1), w') ∧
        amount0 <= reserve0 (st w) ∧ amount1 <= reserve1 (st w) ∧
        totalSupply (st w') = totalSupply (st w) - liquidity ∧
        (forall a, balanceOf_at (st w') a =
                   if decide (a = this (st w)) then 0 else balanceOf_at (st w) a) ∧
        IERC20_balanceOf (ledger_of w' (token0 (st w))) (this (st w)) = balance0 - amount0 ∧
        IERC20_balanceOf (ledger_of w' (token1 (st w))) (this (st w)) = balance1 - amount1 ∧
        IERC20_balanceOf (ledger_of w' (token0 (st w))) to =
          IERC20_balanceOf (ledger_of w (token0 (st w))) to + amount0 ∧
        IERC20_balanceOf (ledger_of w' (token1 (st w))) to =
          IERC20_balanceOf (ledger_of w (token1 (st w))) to + amount1 ∧
        reserve0 (st w') = uint112 (balance0 - amount0) ∧
        reserve1 (st w') = uint112 (balance1 - amount1) ∧
        Storage.identity (st w') = Storage.identity (st w) ∧
        allowance (st w') = allowance (st w).
Proof. exact (LiquidityFacts.burn_proportional w sender to). Qed.

(** The provider of [funded] has sent 250 of the 1000 shares to the Pair;
    [burn] pays 250 of each token. *)
Lemma burn_pays_pro_rata_witness :
  let s := run funded [mkTx (custody 1000 1000) 11 (CallTransfer 7 100 250)] in
  ∃ w', burn 7 7 (world s 1000 1000) = Ok ((250, 250), w') ∧
        totalSupply (st w') = 750 ∧ reserve0 (st w') = 750 ∧ reserve1 (st w') = 750.
Proof.
  intros s.
  destruct (burn_pays_pro_rata (world s 1000 1000) 7 7)
    as (w' & Hburn & _ & _ & Hsupply & _ & _ & _ & _ & _ & Hres0 & Hres1 & _).
  - vm_compute. reflexivity.
  - vm_compute. reflexivity.
  - vm_compute. discriminate.
  - vm_compute. discriminate.
  - vm_compute. discriminate.
  - vm_compute. discriminate.
  - vm_compute. discriminate.
  - vm_compute. discriminate.
  - exists w'. split; [exact Hburn|]. split; [exact Hsupply|].
    split; [exact Hres0 | exact Hres1].
Defined.

(** X7 (Pair.mint, Pair.transfer, Pair.burn, Pair.sqrt).  Round trip of the
    first provider.  A new Pair that holds [amount0] and [amount1] (each
    positive and below [2^112]) mints [floor (sqrt (amount0 * amount1))]
    shares to the provider; when the provider sends all of them to the Pair
    and calls [burn], the Pair pays back exactly [amount0] and [amount1],
    and is left with no supply, no share balance, no reserves and no
    custody of either token. *)
Theorem first_deposit_round_trip_returns_deposit
    self fac t0 t1 tk lg ts provider sender amount0 amount1 :
  t0 ≠ t1 -> provider ≠ self ->
  IERC20_balanceOf (default ∅ (tk !! t0)) self = amount0 ->
  IERC20_balanceOf (default ∅ (tk !! t1)) self = amount1 ->
  0 < amount0 < 2 ^ 112 -> 0 < amount1 < 2 ^ 112 ->
  let w0 := {| st := constructor self fac t0 t1; tokens := tk; log := lg;
               block_timestamp := ts |} in
  ∃ liquidity w1 w2 w3,
    mint sender provider w0 = Ok (liquidity, w1) ∧
    liquidity * liquidity <= amount0 * amount1 < (liquidity + 1) * (liquidity + 1) ∧
    transfer provider self liquidity w1 = Ok (true, w2) ∧
    burn sender provider w2 = Ok ((amount0, amount1), w3) ∧
    totalSupply (st w3) = 0 ∧ reserve0 (st w3) = 0 ∧ reserve1 (st w3) = 0 ∧
    (forall a, balanceOf_at (st w3) a = 0) ∧
    IERC20_balanceOf (ledger_of w3 t0) self = 0 ∧
    IERC20_balanceOf (ledger_of w3 t1) self = 0 ∧
    IERC20_balanceOf (ledger_of w3 t0) provider =
      IERC20_balanceOf (default ∅ (tk !! t0)) provider + amount0 ∧
    IERC20_balanceOf (ledger_of w3 t1) provider =
      IERC20_balanceOf (default ∅ (tk !! t1)) provider + amount1.
Proof.
  exact (LiquidityFacts.first_deposit_round_trip
           self fac t0 t1 tk lg ts provider sender amount0 amount1).
Qed.

(** A deposit of 4 and 9 into [fresh]: 6 shares out, 4 and 9 back. *)
Lemma first_deposit_round_trip_returns_deposit_witness :
  ∃ w1 w2 w3,
    mint 7 7 (world fresh 4 9) = Ok (6, w1) ∧
    transfer 7 100 6 w1 = Ok (true, w2) ∧
    burn 7 7 w2 = Ok ((4, 9), w3) ∧
    totalSupply (st w3) = 0.
Proof.
  destruct (first_deposit_round_trip_returns_deposit
              100 50 1 2 (custody 4 9) [] 20 7 7 4 9)
    as (liquidity & w1 & w2 & w3 & Hmint & Hsqrt & Hmove & Hburn & Hsupply & _).
  - discriminate.
  - discriminate.
  - reflexivity.
  - reflexivity.
  - split; reflexivity.
  - split; reflexivity.
  - assert (Hl : liquidity = 6).
    { change (mint 7 7 (world fresh 4 9) = Ok (liquidity, w1)) in Hmint.
      assert (Hrun : ∃ w, mint 7 7 (world fresh 4 9) = Ok (6, w))
        by (eexists; vm_compute; reflexivity).
      destruct Hrun as [w Hrun]. rewrite Hrun in Hmint. injection Hmint as <- _.
      reflexivity. }
    subst liquidity. exists w1, w2, w3. tauto.
Defined.

(** ** Swaps *)

(** X8 (Pair.swap).  Nothing comes out of a Pair that was paid nothing: when
    the custody of neither token exceeds its reserve, every [swap] to a
    recipient other than the Pair fails, whatever outputs it asks for, and
    with one of the four failures of [swap]. *)
Theorem unpaid_swap_fails w sender amountOut0 amountOut1 to :
  token0 (st w) ≠ token1 (st w) -> to ≠ this (st w) ->
  IERC20_balanceOf (ledger_of w (token0 (st w))) (this (st w)) <= reserve0 (st w) ->
  IERC20_balanceOf (ledger_of w (token1 (st w))) (this (st w)) <= reserve1 (st w) ->
  ∃ e, swap sender amountOut0 amountOut1 to w = Revert e ∧
       e ∈ [InsufficientOutput; InsufficientLiquidity; TransferFailed; InsufficientInput].
Proof. exact (SwapFacts.swap_unpaid w sender amountOut0 amountOut1 to). Qed.

(** On [funded] with custody equal to the reserves, asking for 10 of token 2
    fails for want of input. *)
Lemma unpaid_swap_fails_witness :
  swap 9 0 10 8 (world funded 1000 1000) = Revert InsufficientInput.
Proof.
  destruct (unpaid_swap_fails (world funded 1000 1000) 9 0 10 8) as (e & Hrun & _).
  - vm_compute. discriminate.
  - vm_compute. discriminate.
  - vm_compute. discriminate.
  - vm_compute. discriminate.
  - rewrite Hrun. vm_compute in Hrun. injection Hrun as <-. reflexivity.
Defined.

(** X9 (Pair.swap, Pair._update, Pair._safeTransfer).  What a successful
    [swap] has done and what it has left alone.  Each output is below its
    reserve; the custody the Pair is left with has a product no smaller than
    the product of the old reserves; the new reserves are that custody
    narrowed to 112 bits; the immutables, the total supply, the share
    balances and the allowances are unchanged; the ledger of a token of
    which nothing was paid out is unchanged; and on every ledger only the
    balances of the Pair and of the recipient can differ. *)
Theorem swap_writes_reserves_only w sender amountOut0 amountOut1 to w' :
  swap sender amountOut0 amountOut1 to w = Ok (tt, w') ->
  let custody0 := IERC20_balanceOf (ledger_of w' (token0 (st w))) (this (st w)) in
  let custody1 := IERC20_balanceOf (ledger_of w' (token1 (st w))) (this (st w)) in
  amountOut0 < reserve0 (st w) ∧ amountOut1 < reserve1 (st w) ∧
  reserve0 (st w) * reserve1 (st w) <= custody0 * custody1 ∧
  reserve0 (st w') = uint112 custody0 ∧ reserve1 (st w') = uint112 custody1 ∧
  Storage.identity (st w') = Storage.identity (st w) ∧
  Storage.shares (st w') = Storage.shares (st w) ∧
  (forall t, (t = token0 (st w) -> amountOut0 = 0) ->
             (t = token1 (st w) -> amountOut1 = 0) ->
             ledger_of w' t = ledger_of w t) ∧
  (forall t h, h ≠ this (st w) -> h ≠ to ->
               IERC20_balanceOf (ledger_of w' t) h = IERC20_balanceOf (ledger_of w t) h).
Proof.
  intros Hswap custody0 custody1.
  destruct (PairFacts.swap_ok_inv _ _ _ _ _ _ Hswap)
    as (Hout0 & Hout1 & (in0 & in1 & Hfee) & Hres0 & Hres1).
  pose proof (PairFacts.fee_check_product _ _ _ _ _ _ Hfee) as Hk.
  pose proof (StorageFacts.swap_keeps_shares sender amountOut0 amountOut1 to _
                w tt w' eq_refl Hswap) as Hkeep.
  cbv beta in Hkeep. apply pair_equal_spec in Hkeep as [Hid Hsh].
  split; [exact Hout0|]. split; [exact Hout1|]. split; [exact Hk|].
  split; [exact Hres0|]. split; [exact Hres1|]. split; [exact Hid|]. split; [exact Hsh|].
  split.
  - intros t. exact (LedgerFrame.swap_ledger_frame _ _ _ _ _ _ t Hswap).
  - intros t h. exact (BalanceFrame.swap_balance_frame _ _ _ _ _ _ t h Hswap).
Qed.

(** 100 of token 1 were paid into [funded]; the swap of 90 of token 2 to
    address 8 succeeds, keeps the 1000 shares, and leaves the reserves 1100
    and 910, whose product exceeds 1000 * 1000. *)
Lemma swap_writes_reserves_only_witness :
  ∃ w', swap 9 0 90 8 (world funded 1100 1000) = Ok (tt, w') ∧
        totalSupply (st w') = 1000 ∧
        reserve0 (st w') = 1100 ∧ reserve1 (st w') = 910.
Proof.
  destruct (swap 9 0 90 8 (world funded 1100 1000)) as [[[] w']|e] eqn:Hrun.
  - destruct (swap_writes_reserves_only _ _ _ _ _ _ Hrun)
      as (_ & _ & _ & _ & _ & _ & Hsh & _).
    exists w'. split; [reflexivity|].
    pose proof (f_equal (fun x => fst (fst x)) Hsh) as Hsupply.
    unfold Storage.shares in Hsupply. cbn [fst] in Hsupply.
    split; [rewrite Hsupply; vm_compute; reflexivity|].
    vm_compute in Hrun. injection Hrun as <-. split; reflexivity.
  - vm_compute in Hrun. discriminate.
Defined.

(** ** The storage over any sequence of calls *)

(** X10 (Pair constructor, _update, _mint, _burn and every external
    function).  Whatever calls a Pair receives after its construction, with
    whatever the token ledgers and the clock show at each call, its stored
    reserves stay below [2^112], its time stamp below [2^32], and its total
    supply within 256 bits. *)
Theorem storage_stays_in_range self sender t0 t1 txs :
  Storage.in_range (run (constructor self sender t0 t1) txs).
Proof.
  apply StorageFacts.in_range_run, StorageFacts.in_range_constructor.
Qed.

(** X11 (every external function of the Pair).  No sequence of calls changes
    the address, the two tokens or the factory the constructor wrote. *)
Theorem immutables_never_change self sender t0 t1 txs :
  Storage.identity (run (constructor self sender t0 t1) txs) = (self, t0, t1, sender).
Proof. rewrite StorageFacts.identity_run. reflexivity. Qed.

(** X12 (Pair.mint, Pair.burn, Pair.swap, Pair._update).  Each of the three
    calls that end in [_update] leaves, when it succeeds, reserves equal to
    what the two token contracts report as the Pair's balance at that
    moment, narrowed to 112 bits, and a time stamp equal to the time of the
    block, narrowed to 32 bits. *)
Theorem reserves_track_custody c w w' :
  Custody.resyncs c = true -> exec c w = Ok (tt, w') ->
  Custody.synced w' ∧ blockTimestampLast (st w') = uint32 (block_timestamp w).
Proof.
  destruct c as [| | |sender to|sender to|sender amountOut0 amountOut1 to];
    try discriminate; intros _; cbn [exec].
  - unfold bind at 1. destruct (mint sender to w) as [[liquidity w1]|e] eqn:Hmint;
      [|intros [=]].
    intros [= <-]. split; [|exact (proj2 (EventFacts.mint_log _ _ _ _ _ Hmint))].
    destruct (LiquidityFacts.mint_effect _ _ _ _ _ Hmint)
      as (_ & _ & _ & _ & _ & _ & Hres0 & Hres1 & Hid & _ & Htok).
    unfold Storage.identity in Hid. injection Hid as Hthis Ht0 Ht1 _.
    unfold Custody.synced, ledger_of. rewrite Hthis, Ht0, Ht1, Htok. split; assumption.
  - unfold bind at 1.
    destruct (burn sender to w) as [[[amount0 amount1] w1]|e] eqn:Hburn; [|intros [=]].
    intros [= <-].
    split; [exact (CustodyFacts.burn_sync _ _ _ _ _ Hburn)
           |exact (proj2 (EventFacts.burn_log _ _ _ _ _ _ Hburn))].
  - intros Hswap. split; [|exact (proj2 (EventFacts.swap_log _ _ _ _ _ _ Hswap))].
    destruct (PairFacts.swap_ok_inv _ _ _ _ _ _ Hswap) as (_ & _ & _ & Hres0 & Hres1).
    pose proof (StorageFacts.swap_keeps_shares sender amountOut0 amountOut1 to _
                  w tt w' eq_refl Hswap) as Hkeep.
    cbv beta in Hkeep. apply pair_equal_spec in Hkeep as [Hid _].
    unfold Storage.identity in Hid. injection Hid as Hthis Ht0 Ht1 _.
    unfold Custody.synced. rewrite Hthis, Ht0, Ht1. split; assumption.
Qed.

(** The first deposit of 4 and 9 into [fresh], at time 20, leaves the
    reserves 4 and 9 and the time stamp 20. *)
Lemma reserves_track_custody_witness :
  ∃ w', exec (CallMint 7 7) (world fresh 4 9) = Ok (tt, w') ∧
        reserve0 (st w') = 4 ∧ reserve1 (st w') = 9 ∧ blockTimestampLast (st w') = 20.
Proof.
  destruct (exec (CallMint 7 7) (world fresh 4 9)) as [[[] w']|e] eqn:Hrun.
  - destruct (reserves_track_custody (CallMint 7 7) _ w' eq_refl Hrun) as [[H0 H1] Ht].
    exists w'. split; [reflexivity|]. rewrite H0, H1, Ht.
    vm_compute in Hrun. injection Hrun as <-. repeat split; vm_compute; reflexivity.
  - vm_compute in Hrun. discriminate.
Defined.

(** ** The registry of the Factory *)

(** X13 (Factory.createPair).  The two token arguments of [createPair] can
    be given in either order: the result, the failure, and the state written
    are the same. *)
Theorem createPair_ignores_argument_order created tokenA tokenB s :
  Factory.createPair created tokenA tokenB s = Factory.createPair created tokenB tokenA s.
Proof. exact (RegistryFacts.createPair_comm created tokenA tokenB s). Qed.

(** X14 (Factory.createPair, Factory.allPairsLength).  On a factory reached
    by [createPair] calls and calls to its Pairs, a successful [createPair]
    only adds: the new address was not listed and is appended to
    [allPairs], whose length grows by one; [getPair] returns the new address
    for the two tokens in either order; every registration made before
    still holds, and no other entry of [getPair] differs; the contracts
    deployed before are untouched; the new contract is a Pair constructed
    for the two tokens in ascending order, with the factory as its creator;
    and the one event logged names these tokens, the new address and the new
    length of the list. *)
Theorem createPair_only_appends self s created tokenA tokenB pair s' :
  Market.reachable self s ->
  created ≠ 0 -> Factory.deployed s !! created = None ->
  Factory.createPair created tokenA tokenB s = Ok (pair, s') ->
  pair = created ∧ (pair ∉ Factory.allPairs s) ∧
  Factory.allPairs s' = Factory.allPairs s ++ [pair] ∧
  Factory.allPairsLength s' = Factory.allPairsLength s + 1 ∧
  Factory.getPair_at s' tokenA tokenB = pair ∧
  Factory.getPair_at s' tokenB tokenA = pair ∧
  (forall a b, Factory.getPair_at s a b ≠ 0 ->
               Factory.getPair_at s' a b = Factory.getPair_at s a b) ∧
  (forall a b, Factory.getPair_at s' a b ≠ Factory.getPair_at s a b ->
               Factory.getPair_at s' a b = pair ∧
               ((a, b) = (tokenA, tokenB) ∨ (a, b) = (tokenB, tokenA))) ∧
  (forall q p, Factory.deployed s !! q = Some p -> Factory.deployed s' !! q = Some p) ∧
  Factory.deployed s' !! pair =
    Some (constructor pair self (N.min tokenA tokenB) (N.max tokenA tokenB)) ∧
  Factory.log s' =
    Factory.log s ++ [Factory.PairCreated (N.min tokenA tokenB) (N.max tokenA tokenB) pair
                        (Factory.allPairsLength s')].
Proof.
  intros Hreach Hc0 Hfresh Hok.
  destruct (MarketFacts.market_identity self s Hreach) as [Hself _].
  rewrite <- Hself.
  pose proof (RegistryFacts.createPair_extends created tokenA tokenB s pair s'
                (MarketFacts.wf_market self s Hreach) Hc0 Hfresh Hok)
    as (H1 & H2 & H3 & H4 & H5 & H6 & H7 & H8).
  pose proof (RegistryLog.createPair_log created tokenA tokenB s pair s' Hok) as H9.
  assert (Hboth : Factory.getPair_at s' tokenA tokenB = pair ∧
                  Factory.getPair_at s' tokenB tokenA = pair).
  { destruct (FactoryFacts.createPair_ok_inv _ _ _ _ _ _ Hok) as (Hne & Hz & Hfree).
    destruct (FactoryFacts.createPair_ok created tokenA tokenB s Hne Hz Hfree)
      as (s1 & Hok1 & _ & Hgp & _ & _).
    rewrite Hok in Hok1. injection Hok1 as -> ->.
    unfold Factory.getPair_at. rewrite Hgp.
    destruct (N.lt_ge_cases tokenA tokenB).
    - rewrite N.min_l, N.max_r by lia. split.
      + rewrite lookup_insert_ne by (intros [=]; lia).
        rewrite lookup_insert_eq. reflexivity.
      + rewrite lookup_insert_eq. reflexivity.
    - rewrite N.min_r, N.max_l by lia. split.
      + rewrite lookup_insert_eq. reflexivity.
      + rewrite lookup_insert_ne by (intros [=]; lia).
        rewrite lookup_insert_eq. reflexivity. }
  tauto.
Qed.

(** [Scenario.registry_minted] lists the Pair at 100 for the tokens 1 and 2, with the
    shares of a first deposit; a Pair for the tokens 3 and 2 deployed at 101
    comes second, is registered under both orders, and leaves the first
    registration in place. *)
Lemma createPair_only_appends_witness :
  ∃ s', Factory.createPair 101 3 2 Scenario.registry_minted = Ok (101, s') ∧
        Factory.allPairs s' = [100; 101] ∧
        Factory.getPair_at s' 3 2 = 101 ∧ Factory.getPair_at s' 2 3 = 101 ∧
        Factory.getPair_at s' 1 2 = 100.
Proof.
  assert (Hreach : Market.reachable 50 Scenario.registry_minted).
  { unfold Scenario.registry_minted. apply MarketFacts.reach_step; [|reflexivity].
    apply Market.reach_createPair; [apply Market.reach_constructor|].
    split; [discriminate | reflexivity]. }
  destruct (Factory.createPair 101 3 2 Scenario.registry_minted) as [[pair s']|e] eqn:Hrun;
    [|vm_compute in Hrun; discriminate].
  destruct (createPair_only_appends 50 Scenario.registry_minted 101 3 2 pair s' Hreach)
    as (-> & _ & Hall & _ & H32 & H23 & Hkept & _).
  - discriminate.
  - reflexivity.
  - exact Hrun.
  - exists s'. split; [reflexivity|]. split; [exact Hall|].
    split; [exact H32|]. split; [exact H23|].
    rewrite Hkept; [reflexivity | discriminate].
Defined.



(** ** The quote of the Router *)

(** X16 (Router.getAmountOut).  The outcome of [getAmountOut] for every
    input: 'INSUFFICIENT_INPUT' for a zero input, 'INSUFFICIENT_LIQUIDITY'
    for a zero reserve, the arithmetic panic when [amountIn * 997 *
    reserveOut] or [reserveIn * 1000 + amountIn * 997] exceeds 256 bits, and
    otherwise the quotient of the two, in this order of precedence. *)
Theorem getAmountOut_outcomes amountIn reserveIn reserveOut :
  Router.getAmountOut amountIn reserveIn reserveOut =
  if amountIn =? 0 then Revert QuoteInsufficientInput
  else if (reserveIn =? 0) || (reserveOut =? 0) then Revert QuoteInsufficientLiquidity
  else if (amountIn * 997 * reserveOut <=? MAX_UINT256)
          && (reserveIn * 1000 + amountIn * 997 <=? MAX_UINT256)
       then Ok (amountIn * 997 * reserveOut / (reserveIn * 1000 + amountIn * 997))
       else Revert ArithmeticOverflow.
Proof. exact (AmountFacts.getAmountOut_cases amountIn reserveIn reserveOut). Qed.

(** X17 (Router.getAmountOut).  A quote never reaches the output reserve,
    and it is never better than the reserves' ratio less the fee of 0.3%:
    [amountOut * reserveIn * 1000 <= amountIn * reserveOut * 997]. *)
Theorem getAmountOut_below_spot_price amountIn reserveIn reserveOut amountOut :
  Router.getAmountOut amountIn reserveIn reserveOut = Ok amountOut ->
  amountOut < reserveOut ∧
  amountOut * reserveIn * 1000 <= amountIn * reserveOut * 997 ∧
  amountOut * reserveIn <= amountIn * reserveOut.
Proof. exact (AmountFacts.getAmountOut_bounds amountIn reserveIn reserveOut amountOut). Qed.

(** 100 against reserves 1000 and 4000 quotes 362, under the 400 of the
    plain ratio. *)
Lemma getAmountOut_below_spot_price_witness :
  Router.getAmountOut 100 1000 4000 = Ok 362 ∧ 362 * 1000 <= 100 * 4000.
Proof.
  split; [reflexivity|].
  apply (getAmountOut_below_spot_price 100 1000 4000 362). reflexivity.
Defined.

(** X18 (Router.getAmountOut).  The quote is monotone: a larger input, a
    smaller input reserve or a larger output reserve never lowers it. *)
Theorem getAmountOut_monotone
    amountIn reserveIn reserveOut amountIn' reserveIn' reserveOut' q q' :
  amountIn <= amountIn' -> reserveIn' <= reserveIn -> reserveOut <= reserveOut' ->
  Router.getAmountOut amountIn reserveIn reserveOut = Ok q ->
  Router.getAmountOut amountIn' reserveIn' reserveOut' = Ok q' ->
  q <= q'.
Proof.
  exact (AmountFacts.getAmountOut_mono
           amountIn reserveIn reserveOut amountIn' reserveIn' reserveOut' q q').
Qed.

(** 100 against 1000 and 4000 quotes 362; 150 against 900 and 4000 quotes
    569. *)
Lemma getAmountOut_monotone_witness :
  Router.getAmountOut 100 1000 4000 = Ok 362 ∧
  Router.getAmountOut 150 900 4000 = Ok 569 ∧ 362 <= 569.
Proof.
  split; [reflexivity|]. split; [reflexivity|].
  apply (getAmountOut_monotone 100 1000 4000 150 900 4000 362 569).
  - discriminate.
  - discriminate.
  - discriminate.
  - reflexivity.
  - reflexivity.
Defined.

(** X19 (Router.getAmountsOut, Router.getAmountOut).  A successful
    [getAmountsOut] returns one amount per token of the path, the first
    being [amountIn], and every amount that is the input of a hop, that is
    every amount but the last, is positive. *)
Theorem getAmountsOut_feeds_positive_amounts f amountIn path amounts :
  Router.getAmountsOut f amountIn path = Ok amounts ->
  length amounts = length path ∧ amounts !! 0%nat = Some amountIn ∧
  forall i y, (S i < length amounts)%nat -> amounts !! i = Some y -> 0 < y.
Proof.
  rewrite RouterFacts.getAmountsOut_quotePath. unfold Router.quotePath.
  destruct path as [|a [|b rest]]; try discriminate.
  intros Hq.
  destruct (RouterFacts.quoteHops_ok f (b :: rest) amountIn a amounts Hq) as (Hlen & H0 & _).
  split; [exact Hlen|]. split; [exact H0|].
  exact (AmountFacts.quoteHops_inputs_positive f (b :: rest) amountIn a amounts Hq).
Qed.

(** The quote of 100 of token 1 along the path 1, 2 on [registry_funded]. *)
Lemma getAmountsOut_feeds_positive_amounts_witness :
  Router.getAmountsOut registry_funded 100 [1; 2] = Ok [100; 362] ∧ 0 < 100.
Proof.
  split; [reflexivity|].
  destruct (getAmountsOut_feeds_positive_amounts registry_funded 100 [1; 2] [100; 362])
    as (_ & _ & Hpos).
  - reflexivity.
  - apply (Hpos 0%nat 100); [cbn; lia | reflexivity].
Defined.

(** ** Swaps through the Router *)

(** X20 (Router.swapExactTokensForTokens, Router._swap,
    Router.getAmountsOut, Pair.swap).  A swap over one Pair, end to end.
    Let the registry name for the tokens [A] and [B] a deployed Pair that
    holds them in ascending order and whose custody equals its reserves
    [rIn] (of [A]) and [rOut] (of [B]).  If the sender holds [amountIn] of
    [A] and has approved the Router for it, the quote
    [q = amountIn * 997 * rOut / (rIn * 1000 + amountIn * 997)] is positive
    and at least [amountOutMin], and the products fit 256 bits, then the
    call succeeds and returns [amountIn; q]; the sender has paid exactly
    [amountIn] of [A], the recipient has received exactly [q] of [B], and
    the Pair's reserves are [rIn + amountIn] and [rOut - q] narrowed to 112
    bits. *)
Theorem routed_single_hop_delivers_the_quote
    router sender amountIn amountOutMin A B to c p :
  let pair := Router.getPair (Routing.registry c) A B in
  let rIn := if A <? B then reserve0 p else reserve1 p in
  let rOut := if A <? B then reserve1 p else reserve0 p in
  let q := amountIn * 997 * rOut / (rIn * 1000 + amountIn * 997) in
  A ≠ B -> pair ≠ 0 -> Factory.deployed (Routing.registry c) !! pair = Some p ->
  this p = pair -> token0 p = N.min A B -> token1 p = N.max A B ->
  Holdings.balance c A pair = rIn -> Holdings.balance c B pair = rOut ->
  sender ≠ pair -> to ≠ pair ->
  amountIn <= Holdings.balance c A sender ->
  amountIn <= Holdings.allowed c A sender router ->
  0 < amountIn -> 0 < rIn -> 0 < rOut -> Router.fits amountIn rIn rOut ->
  0 < q -> amountOutMin <= q ->
  ∃ c' p',
    Routing.swapExactTokensForTokens router sender amountIn amountOutMin [A; B] to c
      = Ok ([amountIn; q], c') ∧
    Holdings.balance c' A sender = Holdings.balance c A sender - amountIn ∧
    Holdings.balance c' B to = Holdings.balance c B to + q ∧
    Factory.deployed (Routing.registry c') !! pair = Some p' ∧
    (if A <? B then reserve0 p' else reserve1 p') = uint112 (rIn + amountIn) ∧
    (if A <? B then reserve1 p' else reserve0 p') = uint112 (rOut - q).
Proof.
  intros pair rIn rOut q HAB. subst pair rIn rOut q.
  destruct (N.ltb_spec A B) as [Hlt|Hge].
  - rewrite N.min_l, N.max_r by lia.
    exact (SingleHop.single_hop_up router sender amountIn amountOutMin A B to c p Hlt).
  - assert (Hlt : B < A) by lia. rewrite N.min_r, N.max_l by lia.
    intros Hpair Hp Hthis Ht0 Ht1 Hc0 Hc1 Hsender Hto Hbal Hallow Hin Hr0 Hr1 Hfits Hq Hmin.
    destruct (SingleHop.single_hop_down router sender amountIn amountOutMin A B to c p
                Hlt Hpair Hp Hthis Ht0 Ht1 Hc0 Hc1 Hsender Hto Hbal Hallow Hin Hr1 Hr0
                Hfits Hq Hmin) as (c' & p' & Hrun & Hpaid & Hgot & Hp' & Hres0 & Hres1).
    exists c', p'. tauto.
Qed.

(** On [Scenario.chain] the trader at address 7 sells 100 of token 1 for at
    least 300 of token 2, to be paid to address 8: the swap returns the
    quote of 362, the trader is left with 400 of token 1 and address 8
    holds 362 of token 2. *)
Lemma routed_single_hop_delivers_the_quote_witness :
  ∃ c', Routing.swapExactTokensForTokens 60 7 100 300 [1; 2] 8 Scenario.chain
          = Ok ([100; 362], c') ∧
        Holdings.balance c' 1 7 = 400 ∧ Holdings.balance c' 2 8 = 362.
Proof.
  destruct (routed_single_hop_delivers_the_quote 60 7 100 300 1 2 8 Scenario.chain
              (set_reserves 1000 4000 10 (constructor 100 50 1 2)))
    as (c' & p' & Hrun & Hpaid & Hgot & _).
  - discriminate.
  - discriminate.
  - reflexivity.
  - reflexivity.
  - reflexivity.
  - reflexivity.
  - reflexivity.
  - reflexivity.
  - discriminate.
  - discriminate.
  - vm_compute. discriminate.
  - vm_compute. discriminate.
  - reflexivity.
  - reflexivity.
  - reflexivity.
  - vm_compute. discriminate.
  - reflexivity.
  - vm_compute. discriminate.
  - exists c'. split; [exact Hrun|]. split; [rewrite Hpaid | rewrite Hgot]; reflexivity.
Defined.



(** X22 (Router.swapExactTokensForTokens, Router.getAmountsOut).  The
    failures of a routed swap that come before any token moves: a path of
    fewer than two tokens fails with 'PATH_SHORT'; a failure of the quote is
    the failure of the swap; and a quote whose last amount is below
    [amountOutMin] fails with 'SLIPPAGE'. *)
Theorem routed_swap_fails_before_moving router sender amountIn amountOutMin path to c :
  ((length path < 2)%nat ->
   Routing.swapExactTokensForTokens router sender amountIn amountOutMin path to c
     = Revert PathTooShort) ∧
  (forall e, Router.getAmountsOut (Routing.registry c) amountIn path = Revert e ->
   Routing.swapExactTokensForTokens router sender amountIn amountOutMin path to c
     = Revert e) ∧
  (forall amounts final,
     Router.getAmountsOut (Routing.registry c) amountIn path = Ok amounts ->
     last amounts = Some final -> final < amountOutMin ->
     Routing.swapExactTokensForTokens router sender amountIn amountOutMin path to c
       = Revert Routing.SlippageExceeded).
Proof.
  assert (Hfail : forall e,
            Router.getAmountsOut (Routing.registry c) amountIn path = Revert e ->
            Routing.swapExactTokensForTokens router sender amountIn amountOutMin path to c
              = Revert e).
  { intros e He. unfold Routing.swapExactTokensForTokens. rewrite He. reflexivity. }
  split; [|split].
  - intros Hshort. apply Hfail. unfold Router.getAmountsOut, require.
    destruct (Nat.leb_spec 2 (length path)); [lia | reflexivity].
  - exact Hfail.
  - intros amounts final. apply RoutingFacts.swapExact_slippage.
Qed.

(** On [Scenario.chain] the quote for 100 of token 1 is 362 of token 2; a
    trader who insists on 363 gets nothing done. *)
Lemma routed_swap_fails_before_moving_witness :
  Routing.swapExactTokensForTokens 60 7 100 363 [1; 2] 8 Scenario.chain
    = Revert Routing.SlippageExceeded ∧
  Routing.swapExactTokensForTokens 60 7 100 363 [1] 8 Scenario.chain
    = Revert PathTooShort.
Proof.
  split.
  - destruct (routed_swap_fails_before_moving 60 7 100 363 [1; 2] 8 Scenario.chain)
      as (_ & _ & Hslip).
    apply (Hslip [100; 362] 362); reflexivity.
  - destruct (routed_swap_fails_before_moving 60 7 100 363 [1] 8 Scenario.chain)
      as (Hshort & _).
    apply Hshort. cbn. lia.
Defined.

(** X23 (Router.swapExactTokensForTokens, Router._swap, Pair.swap).  A
    routed swap moves tokens between the sender, the Pairs of the registry
    and the recipient only: whoever is none of these holds the same amount
    of every token afterwards.  In particular the Router itself, which pulls
    the input straight into the first Pair and has every Pair pay the next
    one, ends with the balances it started with. *)
Theorem routed_swap_spares_bystanders
    router sender amountIn amountOutMin path to c amounts c' token holder :
  Routing.swapExactTokensForTokens router sender amountIn amountOutMin path to c
    = Ok (amounts, c') ->
  Frame.self_aware (Routing.registry c) ->
  (forall a b, Router.getPair (Routing.registry c) a b ≠ holder) ->
  holder ≠ sender -> holder ≠ to ->
  Holdings.balance c' token holder = Holdings.balance c token holder.
Proof.
  exact (BystanderFacts.swapExact_balance
           router sender amountIn amountOutMin path to c amounts c' token holder).
Qed.

(** The same swap seen from the Router at address 60, which holds nothing
    before and nothing after. *)
Lemma routed_swap_spares_bystanders_witness :
  ∃ c', Routing.swapExactTokensForTokens 60 7 100 300 [1; 2] 8 Scenario.chain
          = Ok ([100; 362], c') ∧
        Holdings.balance c' 1 60 = 0 ∧ Holdings.balance c' 2 60 = 0.
Proof.
  destruct (Routing.swapExactTokensForTokens 60 7 100 300 [1; 2] 8 Scenario.chain)
    as [[amounts c']|e] eqn:Hrun; [|vm_compute in Hrun; discriminate].
  assert (Hself : Frame.self_aware (Routing.registry Scenario.chain)).
  { intros pair p Hp. unfold Scenario.chain, registry_funded in Hp.
    cbn [Routing.registry Factory.deployed] in Hp.
    apply lookup_singleton_Some in Hp as [<- <-]. reflexivity. }
  assert (Hreg : forall a b, Router.getPair (Routing.registry Scenario.chain) a b ≠ 60).
  { intros a b. unfold Router.getPair, Factory.getPair_at.
    change (Factory.getPair (Routing.registry Scenario.chain))
      with (<[(2, 1) := 100]> (<[(1, 2) := 100]> (∅ : gmap (address * address) address))).
    destruct (decide ((a, b) = (2, 1))) as [->|H21];
      [rewrite lookup_insert_eq; discriminate|].
    rewrite lookup_insert_ne by congruence.
    destruct (decide ((a, b) = (1, 2))) as [->|H12];
      [rewrite lookup_insert_eq; discriminate|].
    rewrite lookup_insert_ne by congruence. rewrite lookup_empty. discriminate. }
  exists c'. split.
  - assert (Ha : amounts = [100; 362]).
    { vm_compute in Hrun. injection Hrun as <- _. reflexivity. }
    rewrite Ha. reflexivity.
  - split.
    + rewrite (routed_swap_spares_bystanders _ _ _ _ _ _ _ _ _ 1 60 Hrun Hself Hreg);
        [reflexivity | discriminate | discriminate].
    + rewrite (routed_swap_spares_bystanders _ _ _ _ _ _ _ _ _ 2 60 Hrun Hself Hreg);
        [reflexivity | discriminate | discriminate].
Defined.

(** X24 (Router.swapExactTokensForTokens, Router._swap, Pair.swap).  An
    input so small that its quote over one Pair is 0 cannot be swapped
    through the Router even with [amountOutMin = 0]: the slippage test
    passes and the input is pulled, but the Pair is asked for no output and
    refuses with [InsufficientOutput], which undoes the call. *)
Theorem routed_dust_is_refused router sender amountIn A B to c :
  Router.getAmountsOut (Routing.registry c) amountIn [A; B] = Ok [amountIn; 0] ->
  amountIn <= Holdings.balance c A sender ->
  amountIn <= Holdings.allowed c A sender router ->
  Routing.swapExactTokensForTokens router sender amountIn 0 [A; B] to c
    = Revert InsufficientOutput.
Proof.
  intros Hquote Hbal Hallow.
  assert (Hpair : Router.getPair (Routing.registry c) A B ≠ 0 ∧
                  ∃ p, Factory.deployed (Routing.registry c)
                         !! Router.getPair (Routing.registry c) A B = Some p).
  { rewrite RouterFacts.getAmountsOut_quotePath in Hquote.
    cbn [Router.quotePath Router.quoteHops] in Hquote. unfold Router.quoteHop in Hquote.
    destruct (N.eqb_spec (Router.getPair (Routing.registry c) A B) 0) as [|Hne];
      [discriminate|].
    split; [exact Hne|]. unfold Router.Pair_getReserves in Hquote.
    destruct (Factory.deployed _ !! _) as [p|]; [|discriminate]. exists p. reflexivity. }
  destruct Hpair as [Hne [p Hp]].
  unfold Routing.swapExactTokensForTokens. rewrite Hquote.
  cbn [rbind length Nat.eqb Nat.sub lookup list_lookup require N.leb N.compare].
  cbn.
  unfold Routing.token_transferFrom, Routing.IERC20_transferFrom.
  destruct (N.leb_spec amountIn
              (default 0 (default ∅ (Routing.approvals c !! A) !! (sender, router))))
    as [_|]; [|unfold Holdings.allowed in Hallow; lia].
  unfold IERC20_transfer.
  destruct (N.leb_spec amountIn
              (IERC20_balanceOf (default ∅ (Routing.ledgers c !! A)) sender))
    as [_|]; [|unfold Holdings.balance in Hbal; lia].
  cbn [rbind Routing.registry].
  destruct (N.eqb_spec (Router.getPair (Routing.registry c) A B) 0) as [|_];
    [contradiction|].
  assert (Hzero : forall w, swap router 0 0 to w = Revert InsufficientOutput)
    by reflexivity.
  destruct (A <? B); [rewrite N.eqb_refl | destruct (A =? B)];
    unfold Routing.Pair_call; cbn [Routing.registry]; rewrite Hp, Hzero; reflexivity.
Qed.

(** On [Scenario.chain] 4 of token 2 quote 0 of token 1. *)
Lemma routed_dust_is_refused_witness :
  Router.getAmountsOut (Routing.registry Scenario.chain) 4 [2; 1] = Ok [4; 0] ∧
  Routing.swapExactTokensForTokens 60 7 4 0 [2; 1] 8 Scenario.chain
    = Revert InsufficientOutput.
Proof.
  split; [reflexivity|].
  apply routed_dust_is_refused.
  - reflexivity.
  - vm_compute. discriminate.
  - vm_compute. discriminate.
Defined.

(** ** Events *)

(** X25 (every external function of the Pair, Pair._mint, Pair._burn,
    Pair._update).  The events of a successful call, appended to the log in
    this order and with nothing else: [approve] logs the approval;
    [transfer] and [transferFrom] log the transfer of the shares; [mint]
    logs the shares created, the reserves it has stored, and the two amounts
    by which the custody exceeded the old reserves; [burn] logs the shares
    of the Pair destroyed, the reserves it has stored, and the two amounts
    it returns; [swap] logs the reserves it has stored and, as inputs, the
    excess of the custody it is left with over the old reserves less the
    outputs (0 where there is none). *)
Theorem calls_log_their_events w w' :
  (forall sender spender value r,
     approve sender spender value w = Ok (r, w') ->
     log w' = log w ++ [Approval sender spender value]) ∧
  (forall sender to value r,
     transfer sender to value w = Ok (r, w') ->
     log w' = log w ++ [Transfer sender to value]) ∧
  (forall sender from to value r,
     transferFrom sender from to value w = Ok (r, w') ->
     log w' = log w ++ [Transfer from to value]) ∧
  (forall sender to liquidity,
     mint sender to w = Ok (liquidity, w') ->
     log w' = log w ++
       [Transfer 0 to liquidity;
        Sync (reserve0 (st w')) (reserve1 (st w'));
        Mint sender
          (IERC20_balanceOf (ledger_of w (token0 (st w))) (this (st w)) - reserve0 (st w))
          (IERC20_balanceOf (ledger_of w (token1 (st w))) (this (st w)) - reserve1 (st w))
          to]) ∧
  (forall sender to amount0 amount1,
     burn sender to w = Ok ((amount0, amount1), w') ->
     log w' = log w ++
       [Transfer (this (st w)) 0 (balanceOf_at (st w) (this (st w)));
        Sync (reserve0 (st w')) (reserve1 (st w'));
        Burn sender amount0 amount1 to]) ∧
  (forall sender amountOut0 amountOut1 to,
     swap sender amountOut0 amountOut1 to w = Ok (tt, w') ->
     log w' = log w ++
       [Sync (reserve0 (st w')) (reserve1 (st w'));
        Swap sender
          (IERC20_balanceOf (ledger_of w' (token0 (st w))) (this (st w))
             - (reserve0 (st w) - amountOut0))
          (IERC20_balanceOf (ledger_of w' (token1 (st w))) (this (st w))
             - (reserve1 (st w) - amountOut1))
          amountOut0 amountOut1 to]).
Proof.
  split; [|split; [|split; [|split; [|split]]]].
  - intros sender spender value r. apply EventFacts.approve_log.
  - intros sender to value r. apply EventFacts.transfer_log.
  - intros sender from to value r. apply EventFacts.transferFrom_log.
  - intros sender to liquidity Hrun. exact (proj1 (EventFacts.mint_log _ _ _ _ _ Hrun)).
  - intros sender to amount0 amount1 Hrun.
    exact (proj1 (EventFacts.burn_log _ _ _ _ _ _ Hrun)).
  - intros sender amountOut0 amountOut1 to Hrun.
    exact (proj1 (EventFacts.swap_log _ _ _ _ _ _ Hrun)).
Qed.

(** The events of the swap of 90 of token 2 for 100 of token 1 on
    [funded]. *)
Lemma calls_log_their_events_witness :
  ∃ w', swap 9 0 90 8 (world funded 1100 1000) = Ok (tt, w') ∧
        log w' = [Sync 1100 910; Swap 9 100 0 0 90 8].
Proof.
  destruct (swap 9 0 90 8 (world funded 1100 1000)) as [[[] w']|e] eqn:Hrun;
    [|vm_compute in Hrun; discriminate].
  destruct (calls_log_their_events (world funded 1100 1000) w')
    as (_ & _ & _ & _ & _ & Hswap).
  exists w'. split; [reflexivity|]. rewrite (Hswap 9 0 90 8 Hrun).
  vm_compute in Hrun. injection Hrun as <-. vm_compute. reflexivity.
Defined.

End Further.
